(** * A shallow embedding of aecra/raft: the stack calculator and the
      sequential core of the consensus module.

    Go's [int] is modelled as [Z] with 64-bit two's-complement wrap-around
    ([GoInt]); maps are [gmap]s read with Go's zero-value default; slices are
    lists; methods that mutate their receiver are state-passing functions. *)

From Stdlib Require Import ZArith Lia.
From Equations Require Import Equations.
From stdpp Require Import gmap strings list list_numbers fin_maps.

Local Open Scope Z_scope.

(** ** Go's [int] on a 64-bit platform *)

Module GoInt.

Definition MinInt : Z := - 2 ^ 63.
Definition MaxInt : Z := 2 ^ 63 - 1.

Definition in_range (z : Z) : Prop := MinInt <= z <= MaxInt.

(** Two's-complement wrap-around of a mathematical result. *)
Definition wrap (z : Z) : Z := (z + 2 ^ 63) mod 2 ^ 64 - 2 ^ 63.

Definition add (a b : Z) : Z := wrap (a + b).
Definition sub (a b : Z) : Z := wrap (a - b).
Definition mul (a b : Z) : Z := wrap (a * b).
(** Go's [/] truncates toward zero; [MinInt / -1] wraps to [MinInt]. *)
Definition quo (a b : Z) : Z := wrap (Z.quot a b).

End GoInt.

(** ** A state monad for methods with a pointer receiver *)

Module StateM.

Definition M (S A : Type) : Type := S -> A * S.

Definition ret {S A} (a : A) : M S A := fun s => (a, s).
Definition bind {S A B} (m : M S A) (k : A -> M S B) : M S B :=
  fun s => let (a, s') := m s in k a s'.
Definition get {S} : M S S := fun s => (s, s).
Definition modify {S} (f : S -> S) : M S unit := fun s => (tt, f s).

#[global] Instance M_ret {S} : MRet (M S) := fun A => @ret S A.
#[global] Instance M_bind {S} : MBind (M S) := fun A B k m => bind m k.

End StateM.

(** ** package calculator *)

Module calculator.
Import StateM.

(** [Calculator.Calculator] is the map from instance id to stack (the top
    of a stack is the last element of the slice); the field is renamed
    [Calculator_] because it shares its name with the type. *)
Record Calculator := mkCalculator {
  Calculator_ : gmap Z (list Z);
  LastInstanceId : Z
}.

Record Entry := mkEntry {
  Method : string;
  InstanceId : Z;
  Operand : Z
}.

(** [Result.Result] is renamed [Result_] for the same reason. *)
Record Result := mkResult {
  Result_ : bool;
  Value : Z
}.

Definition NewCalculator : Calculator :=
  {| Calculator_ := ∅; LastInstanceId := 0 |}.

(** [_, ok := app.Calculator[instanceId]] *)
Definition has (app : Calculator) (instanceId : Z) : bool :=
  bool_decide (is_Some (Calculator_ app !! instanceId)).

(** [app.Calculator[instanceId]], the nil slice when the key is absent. *)
Definition stack (app : Calculator) (instanceId : Z) : list Z :=
  default [] (Calculator_ app !! instanceId).

(** [len(app.Calculator[instanceId])] *)
Definition len (app : Calculator) (instanceId : Z) : Z :=
  Z.of_nat (length (stack app instanceId)).

Definition set_stack (instanceId : Z) (s : list Z) : M Calculator unit :=
  modify (fun app =>
    {| Calculator_ := <[instanceId := s]> (Calculator_ app);
       LastInstanceId := LastInstanceId app |}).

Definition createCalculator : M Calculator Z :=
  modify (fun app =>
    {| Calculator_ := Calculator_ app;
       LastInstanceId := GoInt.add (LastInstanceId app) 1 |}) ;;
  app ← get;
  set_stack (LastInstanceId app) [] ;;
  ret (LastInstanceId app).

Definition deleteCalculator (instanceId : Z) : M Calculator bool :=
  app ← get;
  if negb (has app instanceId) then ret false
  else
    modify (fun app =>
      {| Calculator_ := delete instanceId (Calculator_ app);
         LastInstanceId := LastInstanceId app |}) ;;
    ret true.

Definition push (instanceId operand : Z) : M Calculator bool :=
  app ← get;
  if negb (has app instanceId) then ret false
  else
    set_stack instanceId (stack app instanceId ++ [operand]) ;;
    ret true.

Definition pop (instanceId : Z) : M Calculator (Z * bool) :=
  app ← get;
  if negb (has app instanceId) then ret (0, false)
  else if len app instanceId =? 0 then ret (0, false)
  else
    let s := stack app instanceId in
    let operand := default 0 (last s) in
    set_stack instanceId (take (length s - 1)%nat s) ;;
    ret (operand, true).

Definition add (instanceId : Z) : M Calculator (Z * bool) :=
  app ← get;
  if negb (has app instanceId) then ret (0, false)
  else if len app instanceId <? 2 then ret (0, false)
  else
    '(operand1, _) ← pop instanceId;
    '(operand2, _) ← pop instanceId;
    push instanceId (GoInt.add operand1 operand2) ;;
    ret (GoInt.add operand1 operand2, true).

Definition sub (instanceId : Z) : M Calculator (Z * bool) :=
  app ← get;
  if negb (has app instanceId) then ret (0, false)
  else if len app instanceId <? 2 then ret (0, false)
  else
    '(operand1, _) ← pop instanceId;
    '(operand2, _) ← pop instanceId;
    push instanceId (GoInt.sub operand1 operand2) ;;
    ret (GoInt.sub operand1 operand2, true).

Definition mul (instanceId : Z) : M Calculator (Z * bool) :=
  app ← get;
  if negb (has app instanceId) then ret (0, false)
  else if len app instanceId <? 2 then ret (0, false)
  else
    '(operand1, _) ← pop instanceId;
    '(operand2, _) ← pop instanceId;
    push instanceId (GoInt.mul operand1 operand2) ;;
    ret (GoInt.mul operand1 operand2, true).

Definition div (instanceId : Z) : M Calculator (Z * bool) :=
  app ← get;
  if negb (has app instanceId) then ret (0, false)
  else if len app instanceId <? 2 then ret (0, false)
  else
    '(operand1, _) ← pop instanceId;
    '(operand2, _) ← pop instanceId;
    if operand2 =? 0 then
      push instanceId operand2 ;;
      push instanceId operand1 ;;
      ret (0, false)
    else
      push instanceId (GoInt.quo operand1 operand2) ;;
      ret (GoInt.quo operand1 operand2, true).

Definition inc (instanceId : Z) : M Calculator (Z * bool) :=
  app ← get;
  if negb (has app instanceId) then ret (0, false)
  else if len app instanceId =? 0 then ret (0, false)
  else
    '(operand, _) ← pop instanceId;
    push instanceId (GoInt.add operand 1) ;;
    ret (GoInt.add operand 1, true).

Definition dec (instanceId : Z) : M Calculator (Z * bool) :=
  app ← get;
  if negb (has app instanceId) then ret (0, false)
  else if len app instanceId =? 0 then ret (0, false)
  else
    '(operand, _) ← pop instanceId;
    push instanceId (GoInt.sub operand 1) ;;
    ret (GoInt.sub operand 1, true).

Definition get_ (instanceId : Z) : M Calculator (Z * bool) :=
  app ← get;
  if negb (has app instanceId) then ret (0, false)
  else if len app instanceId =? 0 then ret (0, false)
  else ret (default 0 (last (stack app instanceId)), true).

(** [val, ok := f(id); return Result{ok, val}] *)
Definition valOk (m : M Calculator (Z * bool)) : M Calculator Result :=
  '(val, ok) ← m; ret (mkResult ok val).

(** [ApplyCommand] after the type assertion [command.(Entry)]: the
    argument is an [Entry] by its type. *)
Definition ApplyCommand (entry : Entry) : M Calculator Result :=
  let m := Method entry in
  if String.eqb m "create" then
    v ← createCalculator; ret (mkResult true v)
  else if String.eqb m "delete" then
    ok ← deleteCalculator (InstanceId entry); ret (mkResult ok 0)
  else if String.eqb m "push" then
    ok ← push (InstanceId entry) (Operand entry); ret (mkResult ok 0)
  else if String.eqb m "pop" then valOk (pop (InstanceId entry))
  else if String.eqb m "add" then valOk (add (InstanceId entry))
  else if String.eqb m "sub" then valOk (sub (InstanceId entry))
  else if String.eqb m "mul" then valOk (mul (InstanceId entry))
  else if String.eqb m "div" then valOk (div (InstanceId entry))
  else if String.eqb m "inc" then valOk (inc (InstanceId entry))
  else if String.eqb m "dec" then valOk (dec (InstanceId entry))
  else if String.eqb m "get" then valOk (get_ (InstanceId entry))
  else ret (mkResult false 0).

(** Applying a sequence of commands in order, collecting the results. *)
Fixpoint applyAll (cmds : list Entry) : M Calculator (list Result) :=
  match cmds with
  | [] => ret []
  | e :: rest =>
      r ← ApplyCommand e;
      rs ← applyAll rest;
      ret (r :: rs)
  end.

Definition cmd (m : string) (instanceId operand : Z) : Entry :=
  mkEntry m instanceId operand.

(** The state [app] with the stack of [instanceId] replaced by [s]. *)
Definition with_stack (instanceId : Z) (s : list Z) (app : Calculator) : Calculator :=
  {| Calculator_ := <[instanceId := s]> (Calculator_ app);
     LastInstanceId := LastInstanceId app |}.

(** A fresh calculator after create; push 0; push 10. *)
Definition after_push_0_10 : Calculator :=
  snd (applyAll [cmd "create" 0 0; cmd "push" 1 0; cmd "push" 1 10] NewCalculator).

(** The commands of the arithmetic scenario that follow [create], on the
    instance [instanceId]. *)
Definition arithmetic (instanceId : Z) : list Entry :=
  [ cmd "push" instanceId 1; cmd "push" instanceId 2; cmd "add" instanceId 0;
    cmd "push" instanceId 5; cmd "sub" instanceId 0;
    cmd "push" instanceId 7; cmd "mul" instanceId 0;
    cmd "push" instanceId 42; cmd "div" instanceId 0;
    cmd "inc" instanceId 0; cmd "dec" instanceId 0;
    cmd "delete" instanceId 0 ].

Definition is_create (e : Entry) : bool := String.eqb (Method e) "create".

(** How many of the commands are [create]. *)
Definition creates (cmds : list Entry) : Z :=
  Z.of_nat (length (filter (fun e => is_create e = true) cmds)).

(** [app'] differs from [app] at most in the instance [instanceId], which
    it does not bring into existence; the id counter is the same. *)
Definition touches_only (instanceId : Z) (app app' : Calculator) : Prop :=
  LastInstanceId app' = LastInstanceId app
  /\ (forall j, j <> instanceId -> Calculator_ app' !! j = Calculator_ app !! j)
  /\ (is_Some (Calculator_ app' !! instanceId) ->
      is_Some (Calculator_ app !! instanceId)).

(** Every instance id lies between 1 and the id counter. *)
Definition ids_bounded (app : Calculator) : Prop :=
  0 <= LastInstanceId app
  /\ forall j, is_Some (Calculator_ app !! j) -> 1 <= j <= LastInstanceId app.

End calculator.

(** ** Go slices as lists: indexing and slicing panic out of range *)

Module GoSlice.

Definition len {A} (l : list A) : Z := Z.of_nat (length l).

(** [l[i]] *)
Definition index {A} (l : list A) (i : Z) : option A :=
  if bool_decide (0 <= i) then l !! Z.to_nat i else None.

(** [l[:j]]; the bound is the length, the slices sliced here having no
    spare capacity that is ever read. *)
Definition slice_to {A} (l : list A) (j : Z) : option (list A) :=
  if bool_decide (0 <= j <= len l) then Some (take (Z.to_nat j) l) else None.

(** [l[i:]] *)
Definition slice_from {A} (l : list A) (i : Z) : option (list A) :=
  if bool_decide (0 <= i <= len l) then Some (drop (Z.to_nat i) l) else None.

(** [l[i:j]] within the length of [l]. Past the length Go panics or, when
    the slice has spare capacity, hands out what lies there: the model has
    no value for either. *)
Definition slice {A} (l : list A) (i j : Z) : option (list A) :=
  if bool_decide (0 <= i <= j /\ j <= len l)
  then Some (take (Z.to_nat (j - i)) (drop (Z.to_nat i) l)) else None.

End GoSlice.

(** ** A monad for code that mutates a receiver, may panic, and performs
       channel sends and goroutine launches (recorded in order) *)

Module GoM.

Inductive Outcome (S E A : Type) : Type :=
| Panic
| Done (a : A) (s : S) (es : list E).
Arguments Panic {S E A}.
Arguments Done {S E A}.

Definition R (S E A : Type) : Type := S -> Outcome S E A.

Definition ret {S E A} (a : A) : R S E A := fun s => Done a s [].
Definition bind {S E A B} (m : R S E A) (k : A -> R S E B) : R S E B :=
  fun s =>
    match m s with
    | Panic => Panic
    | Done a s' es =>
        match k a s' with
        | Panic => Panic
        | Done b s'' es' => Done b s'' (es ++ es')
        end
    end.
Definition get {S E} : R S E S := fun s => Done s s [].
Definition modify {S E} (f : S -> S) : R S E unit := fun s => Done tt (f s) [].
Definition emit {S E} (e : E) : R S E unit := fun s => Done tt s [e].
(** A partial read: [None] is a run-time panic. *)
Definition must {S E A} (o : option A) : R S E A :=
  fun s => match o with Some a => Done a s [] | None => Panic end.
Definition when {S E} (b : bool) (m : R S E unit) : R S E unit :=
  if b then m else ret tt.

#[global] Instance R_ret {S E} : MRet (R S E) := fun A => @ret S E A.
#[global] Instance R_bind {S E} : MBind (R S E) := fun A B k m => bind m k.

End GoM.

(** ** package raft *)

Module raft.
Import GoM.

Inductive CMState : Set := Follower | Candidate | Leader | Dead.

#[global] Instance CMState_eq_dec : EqDecision CMState.
Proof. solve_decision. Defined.

Module LogEntry.
Record t (Command : Type) := mk { Command_ : Command; Term : Z }.
Arguments mk {Command}.
Arguments Command_ {Command}.
Arguments Term {Command}.
End LogEntry.

Module CommittedResult.
Record t (AppResult : Type) := mk { Result : AppResult; Index : Z }.
Arguments mk {AppResult}.
Arguments Result {AppResult}.
Arguments Index {AppResult}.
End CommittedResult.

Module RequestVoteArgs.
Record t := mk {
  Term : Z;
  CandidateId : Z;
  LastLogIndex : Z;
  LastLogTerm : Z
}.
End RequestVoteArgs.

Module RequestVoteReply.
Record t := mk { Term : Z; VoteGranted : bool }.
(** The zero value the RPC layer hands to the handler. *)
Definition zero : t := mk 0 false.
Definition with_Term (v : Z) (r : t) : t := mk v (VoteGranted r).
Definition with_VoteGranted (b : bool) (r : t) : t := mk (Term r) b.
End RequestVoteReply.

Module AppendEntriesArgs.
Record t (Command : Type) := mk {
  Term : Z;
  LeaderId : Z;
  PrevLogIndex : Z;
  PrevLogTerm : Z;
  Entries : list (LogEntry.t Command);
  LeaderCommit : Z
}.
Arguments mk {Command}.
Arguments Term {Command}.
Arguments LeaderId {Command}.
Arguments PrevLogIndex {Command}.
Arguments PrevLogTerm {Command}.
Arguments Entries {Command}.
Arguments LeaderCommit {Command}.
End AppendEntriesArgs.

Module AppendEntriesReply.
Record t := mk { Term : Z; Success : bool }.
Definition zero : t := mk 0 false.
Definition with_Term (v : Z) (r : t) : t := mk v (Success r).
Definition with_Success (b : bool) (r : t) : t := mk (Term r) b.
End AppendEntriesReply.

(** The fields of [ConsensusModule] that hold Raft state. The mutex, the
    server handle, the application and the channels are not state of the
    sequential model: a channel send or a goroutine launch is an [Effect]. *)
Module CM.
Record t (Command : Type) := mk {
  id : Z;
  maxId : Z;
  peerIds : gmap Z Z;
  currentTerm : Z;
  votedFor : Z;
  log : list (LogEntry.t Command);
  commitIndex : Z;
  lastApplied : Z;
  state : CMState;
  electionResetEvent : Z;
  nextIndex : gmap Z Z;
  matchIndex : gmap Z Z
}.
Arguments mk {Command}.
Arguments id {Command}.
Arguments maxId {Command}.
Arguments peerIds {Command}.
Arguments currentTerm {Command}.
Arguments votedFor {Command}.
Arguments log {Command}.
Arguments commitIndex {Command}.
Arguments lastApplied {Command}.
Arguments state {Command}.
Arguments electionResetEvent {Command}.
Arguments nextIndex {Command}.
Arguments matchIndex {Command}.

Section Setters.
Context {Command : Type}.
Implicit Type cm : t Command.

Definition with_currentTerm (v : Z) cm : t Command :=
  mk (id cm) (maxId cm) (peerIds cm) v (votedFor cm) (log cm)
     (commitIndex cm) (lastApplied cm) (state cm)
     (electionResetEvent cm) (nextIndex cm) (matchIndex cm).
Definition with_votedFor (v : Z) cm : t Command :=
  mk (id cm) (maxId cm) (peerIds cm) (currentTerm cm) v (log cm)
     (commitIndex cm) (lastApplied cm) (state cm)
     (electionResetEvent cm) (nextIndex cm) (matchIndex cm).
Definition with_log (v : list (LogEntry.t Command)) cm : t Command :=
  mk (id cm) (maxId cm) (peerIds cm) (currentTerm cm) (votedFor cm) v
     (commitIndex cm) (lastApplied cm) (state cm)
     (electionResetEvent cm) (nextIndex cm) (matchIndex cm).
Definition with_commitIndex (v : Z) cm : t Command :=
  mk (id cm) (maxId cm) (peerIds cm) (currentTerm cm) (votedFor cm)
     (log cm) v (lastApplied cm) (state cm)
     (electionResetEvent cm) (nextIndex cm) (matchIndex cm).
Definition with_state (v : CMState) cm : t Command :=
  mk (id cm) (maxId cm) (peerIds cm) (currentTerm cm) (votedFor cm)
     (log cm) (commitIndex cm) (lastApplied cm) v
     (electionResetEvent cm) (nextIndex cm) (matchIndex cm).
Definition with_electionResetEvent (v : Z) cm : t Command :=
  mk (id cm) (maxId cm) (peerIds cm) (currentTerm cm) (votedFor cm)
     (log cm) (commitIndex cm) (lastApplied cm) (state cm)
     v (nextIndex cm) (matchIndex cm).
Definition with_nextIndex (v : gmap Z Z) cm : t Command :=
  mk (id cm) (maxId cm) (peerIds cm) (currentTerm cm) (votedFor cm)
     (log cm) (commitIndex cm) (lastApplied cm) (state cm)
     (electionResetEvent cm) v (matchIndex cm).
Definition with_matchIndex (v : gmap Z Z) cm : t Command :=
  mk (id cm) (maxId cm) (peerIds cm) (currentTerm cm) (votedFor cm)
     (log cm) (commitIndex cm) (lastApplied cm) (state cm)
     (electionResetEvent cm) (nextIndex cm) v.
Definition with_lastApplied (v : Z) cm : t Command :=
  mk (id cm) (maxId cm) (peerIds cm) (currentTerm cm) (votedFor cm)
     (log cm) (commitIndex cm) v (state cm)
     (electionResetEvent cm) (nextIndex cm) (matchIndex cm).
End Setters.
End CM.

(** [m[k]] on a [map[int]int]: the zero value when the key is absent. *)
Definition mapGet (m : gmap Z Z) (k : Z) : Z := default 0 (m !! k).

(** [len(m)] *)
Definition mapLen (m : gmap Z Z) : Z := Z.of_nat (size m).

Definition intMin (a b : Z) : Z := if a <? b then a else b.

(** What a handler does besides changing the state, in program order. *)
Inductive Effect (AppResult : Type) : Type :=
| GoRunElectionTimer                 (* go cm.runElectionTimer() *)
| GoRunAEsTimer (heartbeat_ms : Z)   (* go cm.runAEsTimer(...) *)
| GoRequestVote (peerId : Z)         (* the RequestVote goroutine of a peer *)
| GoAppendEntries (peerId : Z)       (* the AppendEntries goroutine of a peer *)
| CloseNewCommitReady                (* close(cm.newCommitReadyChan) *)
| SendNewCommitReady                 (* cm.newCommitReadyChan <- struct{}{} *)
| SendTriggerAE                      (* cm.triggerAEChan <- struct{}{} *)
| SendCommittedResult (cr : CommittedResult.t AppResult)
                                     (* cm.committedResultChan <- cr *)
| NewTicker (ms : Z)                 (* time.NewTicker(ms * time.Millisecond) *)
| TickerStop                         (* ticker.Stop() *)
| Sleep (ms : Z).                    (* time.Sleep(ms * time.Millisecond) *)
Arguments GoRunElectionTimer {AppResult}.
Arguments GoRunAEsTimer {AppResult}.
Arguments GoRequestVote {AppResult}.
Arguments GoAppendEntries {AppResult}.
Arguments CloseNewCommitReady {AppResult}.
Arguments SendNewCommitReady {AppResult}.
Arguments SendTriggerAE {AppResult}.
Arguments SendCommittedResult {AppResult}.
Arguments NewTicker {AppResult}.
Arguments TickerStop {AppResult}.
Arguments Sleep {AppResult}.

(** What happens around a [Submit] that waits, in the order it happens.
    [committedResultChan] is unbuffered: a value passes only when a sender
    and a receiver meet. [ticker.C] holds one tick until it is read. *)
Inductive WaitEvent (AppResult : Type) : Type :=
| TickerC                                      (* the ticker fires *)
| Received (cr : CommittedResult.t AppResult)  (* case cr := <-cm.committedResultChan *)
| Taken.  (* another goroutine receives what [Submit] sends back *)
Arguments TickerC {AppResult}.
Arguments Received {AppResult}.
Arguments Taken {AppResult}.

(** Where a waiting [Submit] stands: in the [select], or in the send
    [cm.committedResultChan <- committedResult], which is outside it. *)
Inductive WaitAt (AppResult : Type) : Type :=
| InSelect
| InSend (committedResult : CommittedResult.t AppResult).
Arguments InSelect {AppResult}.
Arguments InSend {AppResult}.

(** What [Submit] returns. When the events supplied are used up and the
    call has not returned: [Waiting], blocked in the [select] with no tick
    ready, or [Sending], blocked in the send of a result of another index. *)
Inductive SubmitReturn (AppResult : Type) : Type :=
| Returned (result : option AppResult) (ok : bool)
| Waiting
| Sending (committedResult : CommittedResult.t AppResult).
Arguments Returned {AppResult}.
Arguments Waiting {AppResult}.
Arguments Sending {AppResult}.

Section Handlers.
Context {Command AppResult : Type}.
Import GoSlice.

Local Abbreviation M := (R (CM.t Command) (Effect AppResult)).

(** [server.num] peers, ids [0 .. num-1]; the node itself is one of them. *)
Definition NewConsensusModule (serverId num : Z) : CM.t Command :=
  {| CM.id := serverId;
     CM.maxId := 0;
     CM.peerIds := list_to_map ((fun i => (i, i)) <$> seqZ 0 num);
     CM.currentTerm := 0;
     CM.votedFor := -1;
     CM.log := [];
     CM.commitIndex := -1;
     CM.lastApplied := -1;
     CM.state := Follower;
     CM.electionResetEvent := 0;
     CM.nextIndex := ∅;
     CM.matchIndex := ∅ |}.

Definition Stop : M unit :=
  modify (CM.with_state Dead) ;;
  emit CloseNewCommitReady.

Definition lastLogIndexAndTerm : M (Z * Z) :=
  cm ← get;
  if bool_decide (len (CM.log cm) > 0) then
    let lastIndex := len (CM.log cm) - 1 in
    e ← must (index (CM.log cm) lastIndex);
    ret (lastIndex, LogEntry.Term e)
  else ret (-1, -1).

(** [now] is the instant [time.Now()] returns during the call. *)
Definition becomeFollower (now term : Z) : M unit :=
  modify (CM.with_state Follower) ;;
  modify (CM.with_currentTerm term) ;;
  modify (CM.with_votedFor (-1)) ;;
  modify (CM.with_electionResetEvent now) ;;
  emit GoRunElectionTimer.

(** [reply] is the value behind the pointer on entry; the result is the
    value behind it on return. *)
Definition RequestVote (now : Z) (args : RequestVoteArgs.t)
    (reply : RequestVoteReply.t) : M RequestVoteReply.t :=
  cm ← get;
  if bool_decide (CM.state cm = Dead) then ret reply
  else
    '(lastLogIndex, lastLogTerm) ← lastLogIndexAndTerm;
    when (bool_decide (RequestVoteArgs.Term args > CM.currentTerm cm))
      (becomeFollower now (RequestVoteArgs.Term args)) ;;
    cm ← get;
    reply ←
      (if bool_decide (CM.currentTerm cm = RequestVoteArgs.Term args)
          && (bool_decide (CM.votedFor cm = -1)
              || bool_decide (CM.votedFor cm = RequestVoteArgs.CandidateId args))
          && (bool_decide (RequestVoteArgs.LastLogTerm args > lastLogTerm)
              || (bool_decide (RequestVoteArgs.LastLogTerm args = lastLogTerm)
                  && bool_decide (RequestVoteArgs.LastLogIndex args >= lastLogIndex)))
       then
         modify (CM.with_votedFor (RequestVoteArgs.CandidateId args)) ;;
         modify (CM.with_electionResetEvent now) ;;
         ret (RequestVoteReply.with_VoteGranted true reply)
       else ret (RequestVoteReply.with_VoteGranted false reply));
    cm ← get;
    ret (RequestVoteReply.with_Term (CM.currentTerm cm) reply).

(** The insertion-point loop of [AppendEntries]: both indices advance
    while the local entry and the sent entry have the same term. The
    increments stay below a slice length, so they cannot overflow; [None]
    is an index read out of range. *)
Equations AppendEntries_loop (log entries : list (LogEntry.t Command))
    (logInsertIndex newEntriesIndex : Z) : option (Z * Z)
    by wf (Z.to_nat (len entries - newEntriesIndex)) lt :=
  AppendEntries_loop log entries logInsertIndex newEntriesIndex with
      decide (logInsertIndex >= len log \/ newEntriesIndex >= len entries) => {
    | left _ => Some (logInsertIndex, newEntriesIndex)
    | right _ with index log logInsertIndex, index entries newEntriesIndex => {
      | Some a, Some b =>
          if bool_decide (LogEntry.Term a <> LogEntry.Term b)
          then Some (logInsertIndex, newEntriesIndex)
          else AppendEntries_loop log entries
                 (logInsertIndex + 1) (newEntriesIndex + 1)
      | _, _ => None
      }
    }.
Next Obligation. lia. Qed.

(** The consistency check of [AppendEntries]: is there an entry at
    [PrevLogIndex] whose term is [PrevLogTerm]? *)
Definition AppendEntries_check (args : AppendEntriesArgs.t Command) : M bool :=
  cm ← get;
  let PrevLogIndex := AppendEntriesArgs.PrevLogIndex args in
  if bool_decide (PrevLogIndex = -1) then ret true
  else if bool_decide (PrevLogIndex < len (CM.log cm)) then
    e ← must (index (CM.log cm) PrevLogIndex);
    ret (bool_decide (AppendEntriesArgs.PrevLogTerm args = LogEntry.Term e))
  else ret false.

(** The block of [AppendEntries] that finds the insertion point and
    rewrites the log. *)
Definition AppendEntries_insert (args : AppendEntriesArgs.t Command) : M unit :=
  cm ← get;
  let Entries := AppendEntriesArgs.Entries args in
  '(logInsertIndex, newEntriesIndex) ←
    must (AppendEntries_loop (CM.log cm) Entries
            (AppendEntriesArgs.PrevLogIndex args + 1) 0);
  when (bool_decide (newEntriesIndex < len Entries))
    (kept ← must (slice_to (CM.log cm) logInsertIndex);
     sent ← must (slice_from Entries newEntriesIndex);
     modify (CM.with_log (kept ++ sent))).

(** The block of [AppendEntries] that sets the commit index. *)
Definition AppendEntries_commit (args : AppendEntriesArgs.t Command) : M unit :=
  cm ← get;
  when (bool_decide (AppendEntriesArgs.LeaderCommit args > CM.commitIndex cm))
    (modify (CM.with_commitIndex
               (intMin (AppendEntriesArgs.LeaderCommit args)
                       (len (CM.log cm) - 1))) ;;
     emit SendNewCommitReady).

Definition AppendEntries (now : Z) (args : AppendEntriesArgs.t Command)
    (reply : AppendEntriesReply.t) : M AppendEntriesReply.t :=
  cm ← get;
  if bool_decide (CM.state cm = Dead) then ret reply
  else
    when (bool_decide (AppendEntriesArgs.Term args > CM.currentTerm cm))
      (becomeFollower now (AppendEntriesArgs.Term args)) ;;
    let reply := AppendEntriesReply.with_Success false reply in
    cm ← get;
    reply ←
      (if bool_decide (AppendEntriesArgs.Term args = CM.currentTerm cm) then
         when (bool_decide (CM.state cm <> Follower))
           (becomeFollower now (AppendEntriesArgs.Term args)) ;;
         modify (CM.with_electionResetEvent now) ;;
         ok ← AppendEntries_check args;
         if (ok : bool) then
           let reply := AppendEntriesReply.with_Success true reply in
           AppendEntries_insert args ;;
           AppendEntries_commit args ;;
           ret reply
         else ret reply
       else ret reply);
    cm ← get;
    ret (AppendEntriesReply.with_Term (CM.currentTerm cm) reply).

(** [for _, peerId := range cm.peerIds { body }]: the values of the map,
    in one of the orders Go may choose. *)
Definition rangePeerIds (cm : CM.t Command) : list Z :=
  (map_to_list (CM.peerIds cm)).*2.

Fixpoint forEach (l : list Z) (body : Z -> M unit) : M unit :=
  match l with
  | [] => ret tt
  | i :: rest => body i ;; forEach rest body
  end.

Definition startLeader : M unit :=
  modify (CM.with_state Leader) ;;
  cm ← get;
  forEach (rangePeerIds cm) (fun peerId =>
    modify (fun cm =>
      CM.with_nextIndex (<[peerId := len (CM.log cm)]> (CM.nextIndex cm)) cm) ;;
    modify (fun cm =>
      CM.with_matchIndex (<[peerId := -1]> (CM.matchIndex cm)) cm)) ;;
  emit (GoRunAEsTimer 50).

(** [startElection] up to the launch of the goroutines; it returns
    [savedCurrentTerm] and the initial [votesReceived], the two
    variables the goroutines capture. *)
Definition startElection (now : Z) : M (Z * Z) :=
  modify (CM.with_state Candidate) ;;
  modify (fun cm => CM.with_currentTerm (GoInt.add (CM.currentTerm cm) 1) cm) ;;
  cm ← get;
  let savedCurrentTerm := CM.currentTerm cm in
  modify (CM.with_electionResetEvent now) ;;
  modify (CM.with_votedFor (CM.id cm)) ;;
  let votesReceived := 1 in
  forEach (rangePeerIds cm) (fun peerId => emit (GoRequestVote peerId)) ;;
  emit GoRunElectionTimer ;;
  ret (savedCurrentTerm, votesReceived).

(** The body a RequestVote goroutine runs under the lock once its call
    has returned [reply] without error. [votesReceived] is the captured
    counter, read on entry and returned as updated. *)
Definition startElection_reply (now savedCurrentTerm : Z)
    (reply : RequestVoteReply.t) (votesReceived : Z) : M Z :=
  cm ← get;
  if bool_decide (CM.state cm <> Candidate) then ret votesReceived
  else if bool_decide (RequestVoteReply.Term reply > savedCurrentTerm) then
    becomeFollower now (RequestVoteReply.Term reply) ;;
    ret votesReceived
  else if bool_decide (RequestVoteReply.Term reply = savedCurrentTerm) then
    if RequestVoteReply.VoteGranted reply then
      let votesReceived := GoInt.add votesReceived 1 in
      when (bool_decide (GoInt.mul votesReceived 2
                         > GoInt.add (mapLen (CM.peerIds cm)) 1))
        startLeader ;;
      ret votesReceived
    else ret votesReceived
  else ret votesReceived.

(** [leaderSendAEs] up to the launch of the goroutines: one per peer
    other than the node itself. It returns [savedCurrentTerm], or
    nothing when the node is not the leader. *)
Definition leaderSendAEs : M (option Z) :=
  cm ← get;
  if bool_decide (CM.state cm <> Leader) then ret None
  else
    let savedCurrentTerm := CM.currentTerm cm in
    forEach (rangePeerIds cm) (fun peerId =>
      when (negb (bool_decide (CM.id cm = peerId)))
        (emit (GoAppendEntries peerId))) ;;
    ret (Some savedCurrentTerm).

(** The first half of an AppendEntries goroutine: [ni], [entries] and
    the arguments of the call. *)
Definition leaderSendAEs_args (peerId savedCurrentTerm : Z)
    : M (Z * list (LogEntry.t Command) * AppendEntriesArgs.t Command) :=
  cm ← get;
  let ni := mapGet (CM.nextIndex cm) peerId in
  let prevLogIndex := GoInt.sub ni 1 in
  prevLogTerm ←
    (if bool_decide (prevLogIndex >= 0) then
       e ← must (index (CM.log cm) prevLogIndex);
       ret (LogEntry.Term e)
     else ret (-1));
  entries ← must (slice_from (CM.log cm) ni);
  ret (ni, entries,
       AppendEntriesArgs.mk savedCurrentTerm (CM.id cm) prevLogIndex
         prevLogTerm entries (CM.commitIndex cm)).

(** [matchCount] after the inner loop over the peers, for index [i]. *)
Definition matchCount (cm : CM.t Command) (i : Z) : Z :=
  foldl (fun matchCount peerId =>
           if bool_decide (mapGet (CM.matchIndex cm) peerId >= i)
           then GoInt.add matchCount 1 else matchCount)
        1 (rangePeerIds cm).

(** One iteration of the commit scan. *)
Definition commitScan_body (i : Z) : M unit :=
  cm ← get;
  e ← must (index (CM.log cm) i);
  when (bool_decide (LogEntry.Term e = CM.currentTerm cm))
    (when (bool_decide (GoInt.mul (matchCount cm i) 2
                        > GoInt.add (mapLen (CM.peerIds cm)) 1))
       (modify (CM.with_commitIndex i))).

(** [for i := cm.commitIndex + 1; i < len(cm.log); i++ { ... }]: the
    bounds are read once and the body changes neither [i] nor the log. *)
Definition commitScan : M unit :=
  cm ← get;
  let first := GoInt.add (CM.commitIndex cm) 1 in
  forEach (seqZ first (len (CM.log cm) - first)) commitScan_body.

(** The second half of an AppendEntries goroutine, run under the lock
    once the call has returned [reply] without error. *)
Definition leaderSendAEs_reply (now peerId savedCurrentTerm ni : Z)
    (entries : list (LogEntry.t Command)) (reply : AppendEntriesReply.t)
    : M unit :=
  cm ← get;
  if bool_decide (AppendEntriesReply.Term reply > CM.currentTerm cm) then
    becomeFollower now (AppendEntriesReply.Term reply)
  else if bool_decide (CM.state cm = Leader)
          && bool_decide (savedCurrentTerm = AppendEntriesReply.Term reply) then
    if AppendEntriesReply.Success reply then
      modify (fun cm =>
        CM.with_nextIndex
          (<[peerId := GoInt.add ni (len entries)]> (CM.nextIndex cm)) cm) ;;
      modify (fun cm =>
        CM.with_matchIndex
          (<[peerId := GoInt.sub (mapGet (CM.nextIndex cm) peerId) 1]>
             (CM.matchIndex cm)) cm) ;;
      cm ← get;
      let savedCommitIndex := CM.commitIndex cm in
      commitScan ;;
      cm ← get;
      when (bool_decide (CM.commitIndex cm <> savedCommitIndex))
        (emit SendNewCommitReady ;; emit SendTriggerAE)
    else
      modify (fun cm =>
        CM.with_nextIndex (<[peerId := GoInt.sub ni 1]> (CM.nextIndex cm)) cm)
  else ret tt.

(** The wait of [Submit] under the events [sel]; [ticked] says that a tick
    is ready in [ticker.C].

    In the [select], a result is received or the tick is read; when both
    are ready the events say which the [select] took: the result, if
    [Received] comes next. A result of another index is sent back on the
    channel by a plain send: until a receiver takes it, [Submit] stands in
    that send, where a tick that fires stays in [ticker.C] unread. The send
    is recorded as an effect once it has been taken. An event that cannot
    happen where [Submit] stands ([Taken] with nothing offered, [Received]
    while [Submit] is itself sending) ends the events that count. *)
Fixpoint Submit_wait (currentLogIndex : Z) (at_ : WaitAt AppResult)
    (ticked : bool) (sel : list (WaitEvent AppResult)) {struct sel}
    : M (SubmitReturn AppResult) :=
  match at_, sel with
  | InSelect, Received committedResult :: rest =>
      if bool_decide (CommittedResult.Index committedResult <> currentLogIndex) then
        Submit_wait currentLogIndex (InSend committedResult) ticked rest
      else
        ret (Returned (Some (CommittedResult.Result committedResult)) true)
  | InSelect, TickerC :: _ =>
      emit TickerStop ;;
      ret (Returned None false)
  | InSelect, _ =>
      if ticked then
        emit TickerStop ;;
        ret (Returned None false)
      else ret Waiting
  | InSend committedResult, Taken :: rest =>
      emit (SendCommittedResult committedResult) ;;
      emit (Sleep 5) ;;
      Submit_wait currentLogIndex InSelect ticked rest
  | InSend committedResult, TickerC :: rest =>
      Submit_wait currentLogIndex (InSend committedResult) true rest
  | InSend committedResult, _ => ret (Sending committedResult)
  end.

(** [Submit]; the send on [triggerAEChan], which has room for one value and
    is drained by the heartbeat loop of a leader, is taken to complete. *)
Definition Submit (command : Command) (sel : list (WaitEvent AppResult))
    : M (SubmitReturn AppResult) :=
  cm ← get;
  if bool_decide (CM.state cm = Leader) then
    modify (CM.with_log
              (CM.log cm ++ [LogEntry.mk command (CM.currentTerm cm)])) ;;
    cm ← get;
    let currentLogIndex := len (CM.log cm) - 1 in
    emit SendTriggerAE ;;
    emit (NewTicker 650) ;;
    Submit_wait currentLogIndex InSelect false sel
  else ret (Returned None false).

(** *** Notions used to state the properties *)

(** The number of leading positions at which a local entry and the
    sent entry facing it have the same term. *)
Fixpoint agreeing (local sent : list (LogEntry.t Command)) : nat :=
  match local, sent with
  | a :: local', b :: sent' =>
      if bool_decide (LogEntry.Term a = LogEntry.Term b)
      then S (agreeing local' sent') else O
  | _, _ => O
  end.

(** The consistency check as the specification words it. *)
Definition consistent (log : list (LogEntry.t Command))
    (args : AppendEntriesArgs.t Command) : Prop :=
  AppendEntriesArgs.PrevLogIndex args = -1
  \/ exists e, 0 <= AppendEntriesArgs.PrevLogIndex args
       /\ log !! Z.to_nat (AppendEntriesArgs.PrevLogIndex args) = Some e
       /\ AppendEntriesArgs.PrevLogTerm args = LogEntry.Term e.

(** Reconciliation as the specification words it: cut the local log at
    the first index from [prevLogIndex + 1] on where it disagrees with
    the sent entries and append the sent entries from there; leave the
    log alone when every sent entry agrees. *)
Definition reconcile (log : list (LogEntry.t Command)) (prevLogIndex : Z)
    (entries : list (LogEntry.t Command)) : list (LogEntry.t Command) :=
  let first := Z.to_nat (prevLogIndex + 1) in
  let k := agreeing (drop first log) entries in
  if bool_decide (k < length entries)%nat
  then take (first + k) log ++ drop k entries
  else log.

(** The voter's last log term, [-1] for an empty log, and last log
    index, [-1] for an empty log. *)
Definition localLastLogTerm (log : list (LogEntry.t Command)) : Z :=
  match last log with Some e => LogEntry.Term e | None => -1 end.

Definition localLastLogIndex (log : list (LogEntry.t Command)) : Z :=
  len log - 1.

(** The candidate's log is at least as up-to-date as the voter's. *)
Definition upToDate (args : RequestVoteArgs.t)
    (log : list (LogEntry.t Command)) : Prop :=
  RequestVoteArgs.LastLogTerm args > localLastLogTerm log
  \/ (RequestVoteArgs.LastLogTerm args = localLastLogTerm log
      /\ RequestVoteArgs.LastLogIndex args >= localLastLogIndex log).

(** The state once a term above the current one has been seen: follower
    at that term, vote cleared, election deadline reset. *)
Definition upgradeTerm (now term : Z) (cm : CM.t Command) : CM.t Command :=
  if bool_decide (term > CM.currentTerm cm)
  then CM.with_electionResetEvent now
         (CM.with_votedFor (-1)
            (CM.with_currentTerm term (CM.with_state Follower cm)))
  else cm.

(** The decision of [RequestVote], on the state reached by the term
    upgrade. *)
Definition grants (now : Z) (args : RequestVoteArgs.t)
    (cm : CM.t Command) : Prop :=
  let cm1 := upgradeTerm now (RequestVoteArgs.Term args) cm in
  CM.currentTerm cm1 = RequestVoteArgs.Term args
  /\ (CM.votedFor cm1 = -1 \/ CM.votedFor cm1 = RequestVoteArgs.CandidateId args)
  /\ upToDate args (CM.log cm).

(** One iteration of the loop of [startLeader], as a function. *)
Definition startLeader_step (p : Z) (cm : CM.t Command) : CM.t Command :=
  CM.with_matchIndex (<[p := -1]> (CM.matchIndex cm))
    (CM.with_nextIndex (<[p := len (CM.log cm)]> (CM.nextIndex cm)) cm).

(** What the wait of [Submit] sends back for results that are not its own. *)
Definition requeue (others : list (CommittedResult.t AppResult))
    : list (Effect AppResult) :=
  flat_map (fun cr => [SendCommittedResult cr; Sleep 5]) others.

(** The events in which each of [others] is received and, sent back, taken
    by another goroutine. *)
Definition resent (others : list (CommittedResult.t AppResult))
    : list (WaitEvent AppResult) :=
  flat_map (fun cr => [Received cr; Taken]) others.

(** The test the commit scan applies to index [i]: an entry of the current
    term whose match count passes the threshold of the source. *)
Definition commits (cm : CM.t Command) (i : Z) : Prop :=
  exists e, index (CM.log cm) i = Some e
    /\ LogEntry.Term e = CM.currentTerm cm
    /\ GoInt.mul (matchCount cm i) 2 > GoInt.add (mapLen (CM.peerIds cm)) 1.

(** The entries of [peerIds] counted for index [i]. *)
Definition matching (cm : CM.t Command) (i : Z) : list Z :=
  filter (fun peerId => mapGet (CM.matchIndex cm) peerId >= i) (rangePeerIds cm).

(** The state a computation ends in; the start state if it panics. *)
Definition exec {A} (m : R (CM.t Command) (Effect AppResult) A)
    (cm : CM.t Command) : CM.t Command :=
  match m cm with Done _ cm' _ => cm' | Panic => cm end.

End Handlers.

(** The [Application] interface: [ApplyCommand] on a receiver it may
    change. *)
Class Application (App Command AppResult : Type) : Type :=
  ApplyCommand : Command -> App -> AppResult * App.

Section ApplyPipeline.
Context {App Command AppResult : Type} `{!Application App Command AppResult}.
Import GoSlice.

(** The consensus module together with the application it drives. *)
Local Abbreviation MA := (R (CM.t Command * App) (Effect AppResult)).

(** [for i, entry := range entries { ... }] of [commitChanSender], from
    position [i] on. [cm.state] is read at each entry; no other goroutine
    runs in between here. *)
Fixpoint commitChanSender_apply (savedLastApplied i : Z)
    (entries : list (LogEntry.t Command)) : MA unit :=
  match entries with
  | [] => ret tt
  | entry :: rest =>
      '(cm, app) ← get;
      let '(res, app') := ApplyCommand (LogEntry.Command_ entry) app in
      modify (fun s => (fst s, app')) ;;
      when (bool_decide (CM.state cm = Leader))
        (emit (SendCommittedResult
                 (CommittedResult.mk res
                    (GoInt.add (GoInt.add savedLastApplied i) 1)))) ;;
      commitChanSender_apply savedLastApplied (i + 1) rest
  end.

(** One round of [commitChanSender]: what it does for one value received
    from [newCommitReadyChan]. *)
Definition commitChanSender_round : MA unit :=
  '(cm, _) ← get;
  let savedLastApplied := CM.lastApplied cm in
  entries ←
    (if bool_decide (CM.commitIndex cm > CM.lastApplied cm) then
       entries ← must (slice (CM.log cm) (GoInt.add (CM.lastApplied cm) 1)
                         (GoInt.add (CM.commitIndex cm) 1));
       modify (fun s => (CM.with_lastApplied (CM.commitIndex cm) (fst s), snd s)) ;;
       ret entries
     else ret []);
  commitChanSender_apply savedLastApplied 0 entries.

(** The application after the commands, and their results, in order. *)
Fixpoint applyCommands (commands : list Command) (app : App)
    : list AppResult * App :=
  match commands with
  | [] => ([], app)
  | c :: rest =>
      let '(res, app') := ApplyCommand c app in
      let '(ress, app'') := applyCommands rest app' in
      (res :: ress, app'')
  end.

(** The results of the entries applied, tagged with consecutive log
    indices from [first] on. *)
Fixpoint tagged (first : Z) (results : list AppResult)
    : list (Effect AppResult) :=
  match results with
  | [] => []
  | res :: rest =>
      SendCommittedResult (CommittedResult.mk res first) :: tagged (first + 1) rest
  end.

End ApplyPipeline.

Section ElectionTimer.
Context {Command AppResult : Type}.

Local Abbreviation M := (R (CM.t Command) (Effect AppResult)).

(** [electionTimeout] in nanoseconds, [r] being the value of
    [rand.Intn(150)]. *)
Definition electionTimeout (r : Z) : Z := (150 + r) * 1000000.

(** How one pass through the loop of [runElectionTimer] ends. *)
Inductive TimerTick : Type :=
| TimerReturns                                  (* return, no election *)
| TimerElects (savedCurrentTerm votesReceived : Z)  (* startElection, then return *)
| TimerContinues.                               (* next tick *)

(** One pass through the loop of [runElectionTimer], after a tick, at the
    instant [now] (nanoseconds); [timeoutDuration] and [termStarted] are
    the values taken when the timer was started. *)
Definition runElectionTimer_tick (now timeoutDuration termStarted : Z)
    : M TimerTick :=
  cm ← get;
  if bool_decide (CM.state cm <> Candidate) && bool_decide (CM.state cm <> Follower)
  then ret TimerReturns
  else if bool_decide (termStarted <> CM.currentTerm cm) then ret TimerReturns
  else
    let elapsed := now - CM.electionResetEvent cm in
    if bool_decide (elapsed >= timeoutDuration) then
      '(savedCurrentTerm, votesReceived) ← startElection now;
      ret (TimerElects savedCurrentTerm votesReceived)
    else ret TimerContinues.

End ElectionTimer.

End raft.

(** ** Concrete nodes and messages used by the examples *)

Module scenarios.
Import GoM raft.

Abbreviation Cmd := calculator.Entry.
Abbreviation Res := calculator.Result.

Definition entry (term : Z) : LogEntry.t Cmd :=
  LogEntry.mk (calculator.cmd "create" 0 0) term.

(** Node 0 of a three-node cluster at term [term], with the given role,
    log and commit index. *)
Definition node (role : CMState) (term : Z) (log : list (LogEntry.t Cmd))
    (commitIndex : Z) : CM.t Cmd :=
  CM.with_commitIndex commitIndex
    (CM.with_log log
       (CM.with_currentTerm term
          (CM.with_state role (NewConsensusModule 0 3)))).

(** A stopped node that had reached term 3. *)
Definition deadNode : CM.t Cmd := node Dead 3 [] (-1).

Definition voteRequest : RequestVoteArgs.t :=
  RequestVoteArgs.mk 3 1 (-1) (-1).

Definition heartbeat : AppendEntriesArgs.t Cmd :=
  AppendEntriesArgs.mk 3 1 (-1) (-1) [] (-1).

(** A follower at term 2 holding two entries of term 1, both committed. *)
Definition committedFollower : CM.t Cmd :=
  node Follower 2 [entry 1; entry 1] 1.

(** An AppendEntries of term 2 that rewrites the log from index 0 with one
    entry of term 2 and announces commit index 5. *)
Definition overwriting : AppendEntriesArgs.t Cmd :=
  AppendEntriesArgs.mk 2 1 (-1) (-1) [entry 2] 5.

(** A follower at term 2 with entries of terms 1, 1, 1 and nothing
    committed. *)
Definition follower3 : CM.t Cmd :=
  node Follower 2 [entry 1; entry 1; entry 1] (-1).

(** An AppendEntries of term 2 after index 0: an entry of term 1, which
    agrees with the local one, then one of term 2, which does not. *)
Definition appendTwo : AppendEntriesArgs.t Cmd :=
  AppendEntriesArgs.mk 2 1 0 1 [entry 1; entry 2] 1.

(** Node 0 elected at term 1 with an empty log, after one [Submit]. *)
Definition leaderNode : CM.t Cmd :=
  exec (AppResult:=Res) (Submit (calculator.cmd "create" 0 0) [])
    (exec (AppResult:=Res) startLeader (node Candidate 1 [] (-1))).

(** Node 1 of the cluster, a follower at term 1 with an empty log. *)
Definition peerNode : CM.t Cmd :=
  CM.with_currentTerm 1 (NewConsensusModule 1 3).

(** What the leader sends to a peer whose [nextIndex] is 0. *)
Definition firstAppend : AppendEntriesArgs.t Cmd :=
  AppendEntriesArgs.mk 1 0 (-1) (-1) [entry 1] (-1).

(** The successful reply of a follower at term 1. *)
Definition success : AppendEntriesReply.t := AppendEntriesReply.mk 1 true.

(** Node 0 as a candidate of term 1, as [startElection] leaves it. *)
Definition candidateNode : CM.t Cmd :=
  exec (AppResult:=Res) (startElection 5) (node Follower 0 [] (-1)).

Definition granted : RequestVoteReply.t := RequestVoteReply.mk 1 true.

(** The calculator as the application under the consensus module. *)
#[global] Instance calculator_Application : Application calculator.Calculator Cmd Res :=
  calculator.ApplyCommand.

(** The leader of the scenario once its entry at index 0 is committed. *)
Definition committedLeader : CM.t Cmd := CM.with_commitIndex 0 leaderNode.

(** A follower at term 1 that has the first of the two entries of
    [twoEntryLeader], and that leader: node 0 at term 1, two entries, the
    first committed, with [nextIndex] 1 for peer 1. *)
Definition twoEntryLeader : CM.t Cmd :=
  CM.with_nextIndex (<[1 := 1]> ∅) (node Leader 1 [entry 1; entry 1] 0).

Definition laggingFollower : CM.t Cmd := node Follower 1 [entry 1] (-1).

(** A RequestVote and an AppendEntries of term 1, below the term 2 of
    [follower3]. *)
Definition staleVote : RequestVoteArgs.t := RequestVoteArgs.mk 1 1 5 5.

Definition staleAppend : AppendEntriesArgs.t Cmd :=
  AppendEntriesArgs.mk 1 1 (-1) (-1) [entry 1] 0.

(** An AppendEntries of term 2 that refers to index 5, which [follower3]
    does not have, and one that refers to index -2. *)
Definition gapAppend : AppendEntriesArgs.t Cmd :=
  AppendEntriesArgs.mk 2 1 5 1 [entry 2] 0.

Definition badIndexAppend : AppendEntriesArgs.t Cmd :=
  AppendEntriesArgs.mk 2 1 (-2) 1 [] 0.

(** The result of the entry at index 0, which no [Submit] has collected,
    and a command submitted after it. *)
Definition uncollected : CommittedResult.t Res :=
  CommittedResult.mk (calculator.mkResult true 1) 0.

Definition pushCommand : Cmd := calculator.cmd "push" 1 7.

(** The leader of the scenario with its entry committed and applied. *)
Definition appliedLeader : CM.t Cmd := CM.with_lastApplied 0 committedLeader.

(** A calculator that holds instance 1. *)
Definition oneInstance : calculator.Calculator :=
  snd (calculator.ApplyCommand (calculator.cmd "create" 0 0) calculator.NewCalculator).

End scenarios.

(** * Properties *)

Module GoIntFacts.
Import GoInt.

Lemma wrap_in_range z : in_range z -> wrap z = z.
Proof.
  unfold in_range, MinInt, MaxInt, wrap. intros H.
  rewrite Z.mod_small by lia. lia.
Qed.

Lemma add_in_range a b : in_range (a + b) -> add a b = a + b.
Proof. apply wrap_in_range. Qed.

Lemma sub_in_range a b : in_range (a - b) -> sub a b = a - b.
Proof. apply wrap_in_range. Qed.

Lemma mul_in_range a b : in_range (a * b) -> mul a b = a * b.
Proof. apply wrap_in_range. Qed.

End GoIntFacts.

(** ** The stack calculator *)

Module calculator_spec.
Import StateM calculator.

Ltac run := unfold mbind, mret, M_bind, M_ret, bind, ret, get, modify; simpl.

Lemma has_Some app instanceId s :
  Calculator_ app !! instanceId = Some s -> has app instanceId = true.
Proof. intros H. unfold has. rewrite H. apply bool_decide_eq_true. eauto. Qed.

Lemma stack_Some app instanceId s :
  Calculator_ app !! instanceId = Some s -> stack app instanceId = s.
Proof. intros H. unfold stack. by rewrite H. Qed.

Lemma with_stack_lookup instanceId s app :
  Calculator_ (with_stack instanceId s app) !! instanceId = Some s.
Proof. simpl. apply lookup_insert_eq. Qed.

Lemma with_stack_twice instanceId s s' app :
  with_stack instanceId s (with_stack instanceId s' app) = with_stack instanceId s app.
Proof. unfold with_stack. simpl. by rewrite insert_insert_eq. Qed.

Lemma with_stack_same instanceId s app :
  Calculator_ app !! instanceId = Some s -> with_stack instanceId s app = app.
Proof.
  intros H. destruct app as [m l]. unfold with_stack. simpl in *.
  by rewrite insert_id.
Qed.

Lemma push_present app instanceId s operand :
  Calculator_ app !! instanceId = Some s ->
  push instanceId operand app = (true, with_stack instanceId (s ++ [operand]) app).
Proof.
  intros H. unfold push, set_stack. run.
  by rewrite (has_Some _ _ _ H), (stack_Some _ _ _ H).
Qed.

Lemma pop_present app instanceId s operand :
  Calculator_ app !! instanceId = Some (s ++ [operand]) ->
  pop instanceId app = ((operand, true), with_stack instanceId s app).
Proof.
  intros H. unfold pop, set_stack, len. run.
  rewrite (has_Some _ _ _ H), (stack_Some _ _ _ H). simpl.
  rewrite length_app. simpl.
  destruct (Z.eqb_spec (Z.of_nat (length s + 1)) 0) as [E|_]; [lia|].
  rewrite last_snoc. simpl.
  replace (length s + 1 - 1)%nat with (length s) by lia.
  by rewrite take_app_length.
Qed.

(** Division with a zero divisor under the top element: both operands go
    back, the divisor first, and the state is the one before the call. *)
Lemma div_zero_divisor app instanceId s top :
  Calculator_ app !! instanceId = Some (s ++ [0; top]) ->
  div instanceId app = ((0, false), app).
Proof.
  intros H. unfold div. run.
  rewrite (has_Some _ _ _ H). simpl.
  unfold len. rewrite (stack_Some _ _ _ H), length_app. simpl.
  destruct (Z.ltb_spec (Z.of_nat (length s + 2)) 2) as [E|_]; [lia|].
  change (s ++ [0; top]) with (s ++ [0] ++ [top]) in H.
  rewrite app_assoc in H.
  rewrite (pop_present _ _ _ _ H).
  rewrite (pop_present _ _ s 0 (with_stack_lookup _ _ _)). simpl.
  rewrite (push_present _ _ s 0 (with_stack_lookup _ _ _)).
  rewrite (push_present _ _ (s ++ [0]) top (with_stack_lookup _ _ _)).
  rewrite !with_stack_twice. by rewrite (with_stack_same _ _ _ H).
Qed.

(** C8: with the stack [0, 10] (0 pushed first, 10 on top), [div] answers
    [Result=false], [Value=0] and leaves the calculator as it was, the
    stack being [0, 10] again. *)
Theorem div_by_zero_restores_stack (app : Calculator) (instanceId : Z) :
  Calculator_ app !! instanceId = Some [0; 10] ->
  ApplyCommand (cmd "div" instanceId 0) app = (mkResult false 0, app)
  /\ stack (snd (ApplyCommand (cmd "div" instanceId 0) app)) instanceId = [0; 10].
Proof.
  intros H.
  assert (E : ApplyCommand (cmd "div" instanceId 0) app = (mkResult false 0, app)).
  { unfold ApplyCommand, valOk. run.
    by rewrite (div_zero_divisor app instanceId [] 10 H). }
  split; [exact E|]. rewrite E. simpl. by apply stack_Some.
Qed.

Lemma div_by_zero_restores_stack_witness :
  Calculator_ after_push_0_10 !! 1 = Some [0; 10]
  /\ ApplyCommand (cmd "div" 1 0) after_push_0_10 = (mkResult false 0, after_push_0_10)
  /\ stack (snd (ApplyCommand (cmd "div" 1 0) after_push_0_10)) 1 = [0; 10].
Proof.
  assert (H : Calculator_ after_push_0_10 !! 1 = Some [0; 10]) by (vm_compute; reflexivity).
  split; [exact H|]. exact (div_by_zero_restores_stack after_push_0_10 1 H).
Defined.

(** C9: on a fresh calculator, create followed by the arithmetic sequence
    on the created instance succeeds at every step; add gives 3, sub 2,
    mul 14, div 3, inc 4 and dec 3 (top element first, then the second). *)
Theorem arithmetic_sequence :
  let '(created, app) := ApplyCommand (cmd "create" 0 0) NewCalculator in
  created = mkResult true 1
  /\ fst (applyAll (arithmetic (Value created)) app) =
     [ mkResult true 0; mkResult true 0; mkResult true 3;
       mkResult true 0; mkResult true 2;
       mkResult true 0; mkResult true 14;
       mkResult true 0; mkResult true 3;
       mkResult true 4; mkResult true 3;
       mkResult true 0 ].
Proof. vm_compute. split; reflexivity. Qed.

(** *** Instance ids *)

Lemma push_LastInstanceId instanceId operand app :
  LastInstanceId (snd (push instanceId operand app)) = LastInstanceId app.
Proof. unfold push, set_stack. run. by destruct (has app instanceId). Qed.

Lemma pop_LastInstanceId instanceId app :
  LastInstanceId (snd (pop instanceId app)) = LastInstanceId app.
Proof.
  unfold pop, set_stack. run.
  destruct (has app instanceId); simpl; [|done].
  by destruct (len app instanceId =? 0).
Qed.

Lemma bind_snd {A B} (m : M Calculator A) (k : A -> M Calculator B) app :
  (forall a app', LastInstanceId (snd (k a app')) = LastInstanceId app') ->
  LastInstanceId (snd (bind m k app)) = LastInstanceId (snd (m app)).
Proof. intros H. unfold bind. destruct (m app) as [a app']. apply H. Qed.

Ltac preserved :=
  repeat first
    [ progress (intros; simpl)
    | reflexivity
    | rewrite push_LastInstanceId
    | rewrite pop_LastInstanceId
    | match goal with
      | |- context [let (_, _) := ?p in _] => destruct p eqn:?
      | |- context [if ?b then _ else _] => destruct b
      | |- LastInstanceId (snd (bind ?m ?k ?app)) = _ =>
          rewrite (bind_snd m k app)
      end ].

(** Only [create] changes the id counter. *)
Lemma other_LastInstanceId e app :
  is_create e = false ->
  LastInstanceId (snd (ApplyCommand e app)) = LastInstanceId app.
Proof.
  intros H. unfold is_create in H. unfold ApplyCommand. rewrite H.
  unfold mbind, mret, M_bind, M_ret.
  repeat match goal with
  | |- context [if String.eqb ?a ?b then _ else _] => destruct (String.eqb a b)
  end;
  unfold deleteCalculator, add, sub, mul, div, inc, dec, get_, valOk,
    mbind, mret, M_bind, M_ret;
  try (rewrite bind_snd; [|preserved]);
  try (rewrite bind_snd; [|preserved]);
  first [ apply push_LastInstanceId | apply pop_LastInstanceId | idtac ];
  unfold bind, get, ret, modify; simpl;
  repeat match goal with
  | |- context [if ?b then _ else _] => destruct b; simpl
  end; try reflexivity.
Qed.

Lemma create_spec e app :
  is_create e = true ->
  ApplyCommand e app =
    (mkResult true (GoInt.add (LastInstanceId app) 1),
     {| Calculator_ := <[GoInt.add (LastInstanceId app) 1 := []]> (Calculator_ app);
        LastInstanceId := GoInt.add (LastInstanceId app) 1 |}).
Proof.
  intros H. unfold is_create in H. unfold ApplyCommand. rewrite H.
  reflexivity.
Qed.

Lemma creates_cons e cmds :
  creates (e :: cmds) = (if is_create e then 1 else 0) + creates cmds.
Proof.
  unfold creates. rewrite filter_cons.
  destruct (decide (is_create e = true)) as [H|H];
    destruct (is_create e); simpl length; try done; lia.
Qed.

Lemma creates_app cmds cmds' :
  creates (cmds ++ cmds') = creates cmds + creates cmds'.
Proof. unfold creates. rewrite filter_app, length_app. lia. Qed.

Lemma creates_bounds cmds : 0 <= creates cmds <= Z.of_nat (length cmds).
Proof.
  induction cmds as [|e cmds IH]; [unfold creates; simpl; lia|].
  rewrite creates_cons. simpl length. destruct (is_create e); lia.
Qed.

Lemma applyAll_cons e cmds app :
  applyAll (e :: cmds) app =
    (fst (ApplyCommand e app) :: fst (applyAll cmds (snd (ApplyCommand e app))),
     snd (applyAll cmds (snd (ApplyCommand e app)))).
Proof.
  simpl. run. destruct (ApplyCommand e app) as [r app1]. simpl.
  by destruct (applyAll cmds app1).
Qed.

(** While the counter cannot overflow, the [i]-th command, when it is a
    [create], returns the counter's start value plus the number of
    [create]s up to and including itself. *)
Lemma applyAll_create_value cmds : forall app i e r,
  0 <= LastInstanceId app ->
  LastInstanceId app + Z.of_nat (length cmds) <= GoInt.MaxInt ->
  cmds !! i = Some e -> is_create e = true ->
  fst (applyAll cmds app) !! i = Some r ->
  Value r = LastInstanceId app + creates (take i cmds) + 1.
Proof.
  induction cmds as [|c cmds IH]; intros app i e r Hpos Hmax Hi He Hr;
    [done|].
  rewrite applyAll_cons in Hr. simpl in Hr. simpl length in Hmax.
  destruct i as [|i]; simpl in Hi, Hr.
  - injection Hi as ->. injection Hr as <-.
    rewrite (create_spec _ _ He). simpl.
    rewrite GoIntFacts.add_in_range; [unfold creates; simpl; lia|].
    unfold GoInt.in_range, GoInt.MinInt, GoInt.MaxInt in *. lia.
  - simpl take. rewrite creates_cons.
    destruct (is_create c) eqn:Hc.
    + rewrite (create_spec _ _ Hc) in Hr. simpl in Hr.
      assert (Hadd : GoInt.add (LastInstanceId app) 1 = LastInstanceId app + 1).
      { apply GoIntFacts.add_in_range.
        unfold GoInt.in_range, GoInt.MinInt, GoInt.MaxInt in *. lia. }
      erewrite (IH _ i e r _ _ Hi He Hr). simpl. rewrite Hadd. lia.
      Unshelve. all: simpl; rewrite Hadd; lia.
    + pose proof (other_LastInstanceId c app Hc) as Hsame.
      erewrite (IH _ i e r _ _ Hi He Hr). rewrite Hsame. lia.
      Unshelve. all: rewrite Hsame; lia.
Qed.

(** C10: on a fresh calculator, any two [create]s of a command sequence
    (short enough for the 64-bit counter not to overflow) return ids
    that increase strictly with the position, whatever is deleted in
    between; ids start at 1. *)
Theorem create_ids_strictly_increase (cmds : list Entry) (i j : nat)
    (ei ej : Entry) (ri rj : Result) :
  Z.of_nat (length cmds) <= GoInt.MaxInt ->
  (i < j)%nat ->
  cmds !! i = Some ei -> Method ei = "create" ->
  cmds !! j = Some ej -> Method ej = "create" ->
  fst (applyAll cmds NewCalculator) !! i = Some ri ->
  fst (applyAll cmds NewCalculator) !! j = Some rj ->
  1 <= Value ri < Value rj
  /\ (creates (take i cmds) = 0 -> Value ri = 1).
Proof.
  intros Hlen Hij Hi Hci Hj Hcj Hri Hrj.
  assert (Ci : is_create ei = true) by (unfold is_create; by rewrite Hci).
  assert (Cj : is_create ej = true) by (unfold is_create; by rewrite Hcj).
  rewrite (applyAll_create_value cmds NewCalculator i ei ri) by (simpl; done || lia).
  rewrite (applyAll_create_value cmds NewCalculator j ej rj) by (simpl; done || lia).
  simpl.
  pose proof (creates_bounds (take i cmds)) as Bi.
  assert (Hstep : creates (take i cmds) + 1 <= creates (take j cmds)).
  { rewrite <- (take_drop (S i) (take j cmds)), take_take.
    replace (S i `min` j)%nat with (S i) by lia.
    rewrite (take_S_r _ _ _ Hi), !creates_app.
    pose proof (creates_bounds (drop (S i) (take j cmds))).
    rewrite (creates_cons ei []), Ci. unfold creates at 3. simpl. lia. }
  split; [lia|]. intros Hz. lia.
Qed.

(** create; delete 1; create: the second [create] returns 2 although
    instance 1 is gone. *)
Lemma create_ids_strictly_increase_witness :
  let create := cmd "create" 0 0 in
  let cmds := [create; cmd "delete" 1 0; create] in
  Z.of_nat (length cmds) <= GoInt.MaxInt
  /\ (0 < 2)%nat
  /\ cmds !! 0%nat = Some create /\ Method create = "create"
  /\ cmds !! 2%nat = Some create
  /\ fst (applyAll cmds NewCalculator) !! 0%nat = Some (mkResult true 1)
  /\ fst (applyAll cmds NewCalculator) !! 2%nat = Some (mkResult true 2)
  /\ 1 <= 1 < 2.
Proof.
  intros create cmds.
  assert (H1 : Z.of_nat (length cmds) <= GoInt.MaxInt) by (vm_compute; discriminate).
  assert (H2 : (0 < 2)%nat) by lia.
  assert (H3 : cmds !! 0%nat = Some create) by reflexivity.
  assert (H4 : Method create = "create") by reflexivity.
  assert (H5 : cmds !! 2%nat = Some create) by reflexivity.
  assert (H6 : fst (applyAll cmds NewCalculator) !! 0%nat = Some (mkResult true 1))
    by reflexivity.
  assert (H7 : fst (applyAll cmds NewCalculator) !! 2%nat = Some (mkResult true 2))
    by reflexivity.
  repeat (split; [assumption|]).
  exact (proj1 (create_ids_strictly_increase cmds 0 2 create create
                  (mkResult true 1) (mkResult true 2) H1 H2 H3 H4 H5 H4 H6 H7)).
Defined.

End calculator_spec.

(** ** The consensus module *)

Module raft_spec.
Import GoM raft GoSlice.

Ltac run :=
  unfold mbind, mret, R_bind, R_ret, bind, ret, get, modify, emit, must, when;
  simpl.

Section Facts.
Context {Command AppResult : Type}.
Implicit Types log entries : list (LogEntry.t Command).
Implicit Types cm : CM.t Command.

Local Abbreviation M := (R (CM.t Command) (Effect AppResult)).

Lemma index_lookup {A} (l : list A) (i : Z) :
  0 <= i -> index l i = l !! Z.to_nat i.
Proof. intros H. unfold index. by rewrite bool_decide_eq_true_2. Qed.

Lemma with_log_same cm : CM.with_log (CM.log cm) cm = cm.
Proof. by destruct cm. Qed.

(** *** The insertion-point loop *)

Lemma agreeing_nil_r log : agreeing log [] = O.
Proof. by destruct log. Qed.

Lemma agreeing_le_l log entries : (agreeing log entries <= length log)%nat.
Proof.
  revert entries. induction log as [|a log IH]; intros [|b entries]; simpl; try lia.
  case_bool_decide; [specialize (IH entries)|]; lia.
Qed.

Lemma agreeing_le_r log entries : (agreeing log entries <= length entries)%nat.
Proof.
  revert entries. induction log as [|a log IH]; intros [|b entries]; simpl; try lia.
  case_bool_decide; [specialize (IH entries)|]; lia.
Qed.

(** Below [agreeing], facing entries have equal terms. *)
Lemma agreeing_below log entries j :
  (j < agreeing log entries)%nat ->
  exists a b, log !! j = Some a /\ entries !! j = Some b
              /\ LogEntry.Term a = LogEntry.Term b.
Proof.
  revert entries j. induction log as [|a log IH]; intros [|b entries] j; simpl;
    try lia.
  case_bool_decide as E; [|lia]. intros Hj.
  destruct j as [|j]; simpl; [eauto|]. apply IH. lia.
Qed.

(** At [agreeing], a sent entry faces no local entry or one of another
    term. *)
Lemma agreeing_at log entries b :
  entries !! agreeing log entries = Some b ->
  match log !! agreeing log entries with
  | None => True
  | Some a => LogEntry.Term a <> LogEntry.Term b
  end.
Proof.
  revert entries. induction log as [|a log IH]; intros [|b' entries]; simpl;
    try done.
  case_bool_decide as E; simpl; [apply IH|]. by intros [= ->].
Qed.

Lemma loop_agreeing log entries logInsertIndex newEntriesIndex :
  0 <= logInsertIndex -> 0 <= newEntriesIndex ->
  AppendEntries_loop log entries logInsertIndex newEntriesIndex =
    let k := Z.of_nat (agreeing (drop (Z.to_nat logInsertIndex) log)
                                (drop (Z.to_nat newEntriesIndex) entries)) in
    Some (logInsertIndex + k, newEntriesIndex + k).
Proof.
  funelim (AppendEntries_loop log entries logInsertIndex newEntriesIndex);
    intros Hl Hn; simpl;
    try (rewrite !index_lookup in * by done).
  - assert (E : agreeing (drop (Z.to_nat logInsertIndex) log)
                  (drop (Z.to_nat newEntriesIndex) entries) = O).
    { unfold len in *. destruct o.
      - rewrite (drop_ge log) by lia. done.
      - rewrite (drop_ge entries) by lia. apply agreeing_nil_r. }
    rewrite E. f_equal. f_equal; lia.
  - rewrite (drop_S _ _ _ Heq0), (drop_S _ _ _ Heq). simpl.
    destruct (decide (LogEntry.Term a = LogEntry.Term b)) as [E|E].
    + rewrite (bool_decide_eq_false_2 (LogEntry.Term a <> LogEntry.Term b)) by tauto.
      rewrite (bool_decide_eq_true_2 _ E).
      rewrite H by lia.
      replace (Z.to_nat (logInsertIndex + 1)) with (S (Z.to_nat logInsertIndex)) by lia.
      replace (Z.to_nat (newEntriesIndex + 1)) with (S (Z.to_nat newEntriesIndex)) by lia.
      f_equal. f_equal; lia.
    + rewrite (bool_decide_eq_true_2 _ E), (bool_decide_eq_false_2 _ E).
      f_equal. f_equal; lia.
  - exfalso. apply lookup_ge_None in Heq. unfold len in *. lia.
  - exfalso. apply lookup_ge_None in Heq. unfold len in *. lia.
Qed.

(** *** The blocks of [AppendEntries] *)

Lemma check_returns args cm :
  -1 <= AppendEntriesArgs.PrevLogIndex args ->
  exists ok : bool,
    AppendEntries_check (AppResult:=AppResult) args cm = Done ok cm []
    /\ (ok = true <-> consistent (CM.log cm) args).
Proof.
  intros Hprev. unfold AppendEntries_check, consistent. run.
  case_bool_decide as E1; [eexists; split; [done|]; tauto|].
  case_bool_decide as E2.
  - rewrite index_lookup by lia.
    destruct (lookup_lt_is_Some_2 (CM.log cm)
                (Z.to_nat (AppendEntriesArgs.PrevLogIndex args))) as [e He];
      [unfold len in E2; lia|].
    rewrite He. simpl. eexists; split; [done|].
    rewrite bool_decide_eq_true. split.
    + intros Ht. right. exists e. split; [lia|]. done.
    + intros [?|(e' & _ & He' & Ht)]; [done|]. congruence.
  - eexists; split; [done|]. split; [done|].
    intros [?|(e' & ? & He' & _)]; [done|].
    apply lookup_lt_Some in He'. unfold len in E2. lia.
Qed.

Lemma check_panics args cm :
  AppendEntriesArgs.PrevLogIndex args < -1 ->
  AppendEntries_check (AppResult:=AppResult) args cm = Panic.
Proof.
  intros Hprev. unfold AppendEntries_check. run.
  rewrite bool_decide_eq_false_2 by lia.
  rewrite bool_decide_eq_true_2 by (unfold len; lia).
  unfold index. by rewrite bool_decide_eq_false_2 by lia.
Qed.

Lemma insert_reconciles args cm :
  -1 <= AppendEntriesArgs.PrevLogIndex args < len (CM.log cm) ->
  AppendEntries_insert (AppResult:=AppResult) args cm =
    Done tt (CM.with_log (reconcile (CM.log cm)
                            (AppendEntriesArgs.PrevLogIndex args)
                            (AppendEntriesArgs.Entries args)) cm) [].
Proof.
  intros Hprev. unfold AppendEntries_insert, reconcile. run.
  rewrite loop_agreeing by lia. simpl. rewrite drop_0.
  set (first := Z.to_nat (AppendEntriesArgs.PrevLogIndex args + 1)).
  set (k := agreeing (drop first (CM.log cm)) (AppendEntriesArgs.Entries args)).
  pose proof (agreeing_le_l (drop first (CM.log cm)) (AppendEntriesArgs.Entries args)) as Hl.
  pose proof (agreeing_le_r (drop first (CM.log cm)) (AppendEntriesArgs.Entries args)) as Hr.
  fold k in Hl, Hr. rewrite length_drop in Hl. unfold len in *.
  destruct (decide (k < length (AppendEntriesArgs.Entries args))%nat) as [Hk|Hk].
  - rewrite bool_decide_eq_true_2 by lia.
    rewrite (bool_decide_eq_true_2 _ Hk).
    unfold slice_to, slice_from, len.
    rewrite !bool_decide_eq_true_2 by lia. simpl.
    replace (Z.to_nat (AppendEntriesArgs.PrevLogIndex args + 1 + Z.of_nat k))
      with (first + k)%nat by lia.
    replace (Z.to_nat (0 + Z.of_nat k)) with k by lia. done.
  - rewrite bool_decide_eq_false_2 by lia.
    rewrite (bool_decide_eq_false_2 _ Hk). by rewrite with_log_same.
Qed.

Lemma commit_sets args cm :
  AppendEntries_commit (AppResult:=AppResult) args cm =
    if bool_decide (AppendEntriesArgs.LeaderCommit args > CM.commitIndex cm)
    then Done tt (CM.with_commitIndex
                    (intMin (AppendEntriesArgs.LeaderCommit args)
                            (len (CM.log cm) - 1)) cm)
              [SendNewCommitReady]
    else Done tt cm [].
Proof. unfold AppendEntries_commit. run. by case_bool_decide. Qed.


Lemma consistent_range log args :
  consistent log args ->
  -1 <= AppendEntriesArgs.PrevLogIndex args < len log.
Proof.
  intros [E|(e & H0 & He & _)]; unfold len; [lia|].
  apply lookup_lt_Some in He. lia.
Qed.

Lemma AppendEntries_accepted now args reply cm :
  CM.state cm <> Dead ->
  CM.currentTerm cm <= AppendEntriesArgs.Term args ->
  consistent (CM.log cm) args ->
  exists cm' timers,
    AppendEntries (AppResult:=AppResult) now args reply cm
      = Done (AppendEntriesReply.mk (AppendEntriesArgs.Term args) true) cm'
          (timers ++
           if bool_decide (AppendEntriesArgs.LeaderCommit args > CM.commitIndex cm)
           then [SendNewCommitReady] else [])
    /\ Forall (fun e => e = GoRunElectionTimer) timers
    /\ CM.log cm' = reconcile (CM.log cm) (AppendEntriesArgs.PrevLogIndex args)
                      (AppendEntriesArgs.Entries args)
    /\ CM.currentTerm cm' = AppendEntriesArgs.Term args
    /\ CM.state cm' = Follower
    /\ CM.electionResetEvent cm' = now
    /\ CM.commitIndex cm' =
         (if bool_decide (AppendEntriesArgs.LeaderCommit args > CM.commitIndex cm)
          then intMin (AppendEntriesArgs.LeaderCommit args) (len (CM.log cm') - 1)
          else CM.commitIndex cm).
Proof.
  intros Hdead Hterm Hcons.
  pose proof (consistent_range _ _ Hcons) as Hrange.
  unfold AppendEntries. run.
  rewrite (bool_decide_eq_false_2 _ Hdead).
  case_bool_decide as Hup; simpl.
  - rewrite bool_decide_eq_true_2 by done. simpl.
    match goal with |- context [AppendEntries_check args ?s] =>
      destruct (check_returns args s) as (ok & Hc & Hok); [lia|]; rewrite Hc
    end.
    simpl in Hok. apply Hok in Hcons. subst ok.
    rewrite insert_reconciles by (simpl; lia). simpl.
    rewrite commit_sets. simpl.
    case_bool_decide; simpl;
      (eexists _, [GoRunElectionTimer]; split; [reflexivity|];
       split; [by repeat constructor|]; done).
  - assert (Heq : AppendEntriesArgs.Term args = CM.currentTerm cm) by lia.
    rewrite (bool_decide_eq_true_2 _ Heq). simpl.
    case_bool_decide as Hfol; simpl.
    + match goal with |- context [AppendEntries_check args ?s] =>
        destruct (check_returns args s) as (ok & Hc & Hok); [lia|]; rewrite Hc
      end.
      simpl in Hok. apply Hok in Hcons. subst ok.
      rewrite insert_reconciles by (simpl; lia). simpl.
      rewrite commit_sets. simpl.
      case_bool_decide; simpl;
        (eexists _, [GoRunElectionTimer]; split; [reflexivity|];
         split; [by repeat constructor|]; done).
    + match goal with |- context [AppendEntries_check args ?s] =>
        destruct (check_returns args s) as (ok & Hc & Hok); [lia|]; rewrite Hc
      end.
      simpl in Hok. apply Hok in Hcons. subst ok.
      rewrite insert_reconciles by (simpl; lia). simpl.
      rewrite commit_sets. simpl.
      assert (CM.state cm = Follower) by (destruct (CM.state cm); done || tauto).
      case_bool_decide; simpl; rewrite <- ?Heq;
        (eexists _, []; split; [reflexivity|];
         split; [by repeat constructor|]; done).
Qed.

Lemma AppendEntries_dead now args reply cm :
  CM.state cm = Dead ->
  AppendEntries (AppResult:=AppResult) now args reply cm = Done reply cm [].
Proof.
  intros H. unfold AppendEntries. run. by rewrite (bool_decide_eq_true_2 _ H).
Qed.

Lemma AppendEntries_stale now args reply cm :
  CM.state cm <> Dead ->
  AppendEntriesArgs.Term args < CM.currentTerm cm ->
  AppendEntries (AppResult:=AppResult) now args reply cm
    = Done (AppendEntriesReply.mk (CM.currentTerm cm) false) cm [].
Proof.
  intros Hdead Hterm. unfold AppendEntries. run.
  rewrite (bool_decide_eq_false_2 _ Hdead).
  rewrite (bool_decide_eq_false_2 (AppendEntriesArgs.Term args > CM.currentTerm cm)) by lia.
  simpl.
  rewrite (bool_decide_eq_false_2 (AppendEntriesArgs.Term args = CM.currentTerm cm)) by lia.
  done.
Qed.

Lemma AppendEntries_inconsistent now args reply cm :
  CM.state cm <> Dead ->
  CM.currentTerm cm <= AppendEntriesArgs.Term args ->
  -1 <= AppendEntriesArgs.PrevLogIndex args ->
  ~ consistent (CM.log cm) args ->
  exists cm' timers,
    AppendEntries (AppResult:=AppResult) now args reply cm
      = Done (AppendEntriesReply.mk (AppendEntriesArgs.Term args) false) cm' timers
    /\ Forall (fun e => e = GoRunElectionTimer) timers
    /\ CM.log cm' = CM.log cm
    /\ CM.currentTerm cm' = AppendEntriesArgs.Term args
    /\ CM.commitIndex cm' = CM.commitIndex cm.
Proof.
  intros Hdead Hterm Hprev Hcons.
  unfold AppendEntries. run.
  rewrite (bool_decide_eq_false_2 _ Hdead).
  case_bool_decide as Hup; simpl.
  - rewrite bool_decide_eq_true_2 by done. simpl.
    match goal with |- context [AppendEntries_check args ?s] =>
      destruct (check_returns args s) as (ok & Hc & Hok); [lia|]; rewrite Hc
    end.
    simpl in Hok. destruct ok; [tauto|]. simpl.
    eexists _, [GoRunElectionTimer]; split; [reflexivity|].
    split; [by repeat constructor|]. done.
  - assert (Heq : AppendEntriesArgs.Term args = CM.currentTerm cm) by lia.
    rewrite (bool_decide_eq_true_2 _ Heq). simpl.
    case_bool_decide as Hfol; simpl;
      match goal with |- context [AppendEntries_check args ?s] =>
        destruct (check_returns args s) as (ok & Hc & Hok); [lia|]; rewrite Hc
      end;
      simpl in Hok; (destruct ok; [tauto|]); simpl; rewrite <- ?Heq.
    + eexists _, [GoRunElectionTimer]; split; [reflexivity|].
      split; [by repeat constructor|]. done.
    + eexists _, []; split; [reflexivity|].
      split; [by repeat constructor|]. done.
Qed.

(** An index below [-1] at a matching term is read out of range. *)
Lemma AppendEntries_panics now args reply cm :
  CM.state cm <> Dead ->
  CM.currentTerm cm <= AppendEntriesArgs.Term args ->
  AppendEntriesArgs.PrevLogIndex args < -1 ->
  AppendEntries (AppResult:=AppResult) now args reply cm = Panic.
Proof.
  intros Hdead Hterm Hprev.
  unfold AppendEntries. run.
  rewrite (bool_decide_eq_false_2 _ Hdead).
  case_bool_decide as Hup; simpl.
  - rewrite bool_decide_eq_true_2 by done. simpl.
    by rewrite check_panics.
  - assert (Heq : AppendEntriesArgs.Term args = CM.currentTerm cm) by lia.
    rewrite (bool_decide_eq_true_2 _ Heq). simpl.
    case_bool_decide; simpl; by rewrite check_panics.
Qed.


(** *** [RequestVote] *)

Lemma lastLogIndexAndTerm_returns cm :
  lastLogIndexAndTerm (AppResult:=AppResult) cm
    = Done (localLastLogIndex (CM.log cm), localLastLogTerm (CM.log cm)) cm [].
Proof.
  unfold lastLogIndexAndTerm, localLastLogIndex, localLastLogTerm, len. run.
  destruct (CM.log cm) as [|e l] eqn:E using rev_ind.
  - by rewrite bool_decide_eq_false_2 by (simpl; lia).
  - rewrite bool_decide_eq_true_2 by (rewrite length_app; simpl; lia).
    rewrite index_lookup by (rewrite length_app; simpl; lia).
    rewrite last_snoc.
    replace (Z.to_nat (Z.of_nat (length (l ++ [e])) - 1)) with (length l)
      by (rewrite length_app; simpl; lia).
    rewrite lookup_app_r by lia. rewrite Nat.sub_diag. done.
Qed.

Lemma RequestVote_dead now args reply cm :
  CM.state cm = Dead ->
  RequestVote (Command:=Command) (AppResult:=AppResult) now args reply cm
    = Done reply cm [].
Proof.
  intros H. unfold RequestVote. run. by rewrite (bool_decide_eq_true_2 _ H).
Qed.

Lemma RequestVote_returns now args reply cm :
  CM.state cm <> Dead ->
  let cm1 := upgradeTerm now (RequestVoteArgs.Term args) cm in
  exists (granted : bool) es,
    (granted = true <-> grants now args cm)
    /\ RequestVote (AppResult:=AppResult) now args reply cm
       = Done (RequestVoteReply.mk (CM.currentTerm cm1) granted)
           (if granted
            then CM.with_electionResetEvent now
                   (CM.with_votedFor (RequestVoteArgs.CandidateId args) cm1)
            else cm1)
           es.
Proof.
  intros Hdead cm1. unfold RequestVote. run.
  rewrite (bool_decide_eq_false_2 _ Hdead).
  rewrite lastLogIndexAndTerm_returns. simpl.
  assert (Hlog : CM.log cm1 = CM.log cm).
  { unfold cm1, upgradeTerm. by case_bool_decide. }
  set (b := bool_decide (CM.currentTerm cm1 = RequestVoteArgs.Term args)
          && (bool_decide (CM.votedFor cm1 = -1)
              || bool_decide (CM.votedFor cm1 = RequestVoteArgs.CandidateId args))
          && (bool_decide (RequestVoteArgs.LastLogTerm args
                           > localLastLogTerm (CM.log cm))
              || (bool_decide (RequestVoteArgs.LastLogTerm args
                               = localLastLogTerm (CM.log cm))
                  && bool_decide (RequestVoteArgs.LastLogIndex args
                                  >= localLastLogIndex (CM.log cm))))).
  assert (Hb : b = true <-> grants now args cm).
  { unfold b, grants, upToDate. fold cm1.
    rewrite !andb_true_iff, !orb_true_iff, !andb_true_iff,
      !bool_decide_eq_true. tauto. }
  exists b. unfold cm1, upgradeTerm in *.
  case_bool_decide as Hup; simpl in *; fold b; destruct b; simpl;
    eexists; (split; [exact Hb|]); reflexivity.
Qed.


(** C3: on a node that is not Dead, the vote is granted exactly when,
    on the state reached by upgrading to a higher [args.Term], the
    terms are equal, the vote is free or already the candidate's, and
    the candidate's log is at least as up-to-date as the voter's; a
    grant records the candidate in [votedFor] and resets the election
    deadline. *)
Theorem RequestVote_grant_condition now args reply cm :
  CM.state cm <> Dead ->
  let cm1 := upgradeTerm now (RequestVoteArgs.Term args) cm in
  exists reply' cm' es,
    RequestVote (AppResult:=AppResult) now args reply cm = Done reply' cm' es
    /\ (RequestVoteReply.VoteGranted reply' = true <->
          CM.currentTerm cm1 = RequestVoteArgs.Term args
          /\ (CM.votedFor cm1 = -1
              \/ CM.votedFor cm1 = RequestVoteArgs.CandidateId args)
          /\ (RequestVoteArgs.LastLogTerm args > localLastLogTerm (CM.log cm)
              \/ (RequestVoteArgs.LastLogTerm args = localLastLogTerm (CM.log cm)
                  /\ RequestVoteArgs.LastLogIndex args
                     >= localLastLogIndex (CM.log cm))))
    /\ (RequestVoteReply.VoteGranted reply' = true ->
          CM.votedFor cm' = RequestVoteArgs.CandidateId args
          /\ CM.electionResetEvent cm' = now).
Proof.
  intros Hdead cm1.
  destruct (RequestVote_returns now args reply cm Hdead) as (g & es & Hg & Hrun).
  rewrite Hrun. eexists _, _, _. split; [reflexivity|]. simpl.
  split; [exact Hg|]. intros ->. done.
Qed.

(** C4: when the term matches and the consistency check passes, the
    follower keeps its log up to the first index from [PrevLogIndex+1]
    on at which a sent entry faces no local entry or one of another
    term, and appends the sent entries from there; entries that agree
    are kept, and the log is unchanged when every sent entry agrees. *)
Theorem AppendEntries_reconciles now args reply cm :
  CM.state cm <> Dead ->
  CM.currentTerm cm <= AppendEntriesArgs.Term args ->
  consistent (CM.log cm) args ->
  let first := Z.to_nat (AppendEntriesArgs.PrevLogIndex args + 1) in
  let sent := AppendEntriesArgs.Entries args in
  exists reply' cm' es (k : nat),
    AppendEntries (AppResult:=AppResult) now args reply cm = Done reply' cm' es
    /\ AppendEntriesReply.Success reply' = true
    /\ (k <= length sent)%nat
    /\ (forall j, (j < k)%nat ->
          exists a b, CM.log cm !! (first + j)%nat = Some a
                      /\ sent !! j = Some b
                      /\ LogEntry.Term a = LogEntry.Term b)
    /\ (forall b, sent !! k = Some b ->
          match CM.log cm !! (first + k)%nat with
          | None => True
          | Some a => LogEntry.Term a <> LogEntry.Term b
          end)
    /\ CM.log cm' =
         (if bool_decide (k < length sent)%nat
          then take (first + k) (CM.log cm) ++ drop k sent
          else CM.log cm)
    /\ take (first + k) (CM.log cm') = take (first + k) (CM.log cm)
    /\ (k = length sent -> CM.log cm' = CM.log cm).
Proof.
  intros Hdead Hterm Hcons first sent.
  destruct (AppendEntries_accepted now args reply cm Hdead Hterm Hcons)
    as (cm' & timers & Hrun & _ & Hlog & _).
  set (k := agreeing (drop first (CM.log cm)) sent).
  exists (AppendEntriesReply.mk (AppendEntriesArgs.Term args) true), cm'.
  eexists _, k. split; [exact Hrun|]. split; [done|].
  pose proof (agreeing_le_l (drop first (CM.log cm)) sent) as Hl.
  fold k in Hl. rewrite length_drop in Hl.
  pose proof (consistent_range _ _ Hcons) as Hrange. unfold len in Hrange.
  assert (Hfirst : (first <= length (CM.log cm))%nat) by (unfold first; lia).
  split; [apply agreeing_le_r|].
  split.
  { intros j Hj. destruct (agreeing_below _ _ _ Hj) as (a & b & Ha & Hb & E).
    rewrite lookup_drop in Ha. eauto. }
  split.
  { intros b Hb. pose proof (agreeing_at _ _ _ Hb) as Hat.
    fold k in Hat. by rewrite lookup_drop in Hat. }
  assert (Hlog' : CM.log cm' =
            if bool_decide (k < length sent)%nat
            then take (first + k) (CM.log cm) ++ drop k sent
            else CM.log cm) by exact Hlog.
  split; [exact Hlog'|]. rewrite Hlog'.
  split.
  - case_bool_decide; [|done].
    rewrite take_app_length'; [done|]. rewrite length_take. lia.
  - intros ->. by rewrite bool_decide_eq_false_2 by lia.
Qed.

(** C5, as the code has it: in a successful AppendEntries the commit
    index becomes [min(LeaderCommit, last log index)], the last index
    taken after reconciliation, and the apply pipeline is woken, when
    [LeaderCommit] is above it, and is unchanged otherwise; it does not
    decrease when it was at most the last index of the reconciled log. *)
Theorem AppendEntries_commit_update now args reply cm :
  CM.state cm <> Dead ->
  CM.currentTerm cm <= AppendEntriesArgs.Term args ->
  consistent (CM.log cm) args ->
  exists reply' cm' timers,
    AppendEntries (AppResult:=AppResult) now args reply cm
      = Done reply' cm'
          (timers ++
           if bool_decide (AppendEntriesArgs.LeaderCommit args > CM.commitIndex cm)
           then [SendNewCommitReady] else [])
    /\ Forall (fun e => e = GoRunElectionTimer) timers
    /\ AppendEntriesReply.Success reply' = true
    /\ CM.commitIndex cm' =
         (if bool_decide (AppendEntriesArgs.LeaderCommit args > CM.commitIndex cm)
          then Z.min (AppendEntriesArgs.LeaderCommit args) (len (CM.log cm') - 1)
          else CM.commitIndex cm)
    /\ (CM.commitIndex cm <= len (CM.log cm') - 1 ->
        CM.commitIndex cm <= CM.commitIndex cm').
Proof.
  intros Hdead Hterm Hcons.
  destruct (AppendEntries_accepted now args reply cm Hdead Hterm Hcons)
    as (cm' & timers & Hrun & Htimers & _ & _ & _ & _ & Hci).
  eexists _, cm', timers. split; [exact Hrun|]. split; [exact Htimers|].
  split; [done|].
  assert (Hmin : forall a b, intMin a b = Z.min a b).
  { intros a b. unfold intMin. destruct (Z.ltb_spec a b); lia. }
  rewrite Hmin in Hci. split; [exact Hci|].
  rewrite Hci. case_bool_decide; lia.
Qed.

(** C7, as the code has it: on a node that is not Dead the reply of
    RequestVote carries the voter's current term and the reply of an
    AppendEntries with [PrevLogIndex >= -1] carries the follower's
    current term, which is the larger of its old term and the term
    received, with the success flag set by the term comparison and the
    consistency check; a Dead node leaves the reply as it received it. *)
Theorem replies_carry_current_term now rvArgs aeArgs rvReply aeReply cm :
  CM.state cm <> Dead ->
  -1 <= AppendEntriesArgs.PrevLogIndex aeArgs ->
  (exists reply' cm' es,
     RequestVote (AppResult:=AppResult) now rvArgs rvReply cm = Done reply' cm' es
     /\ RequestVoteReply.Term reply' = CM.currentTerm cm'
     /\ CM.currentTerm cm' = Z.max (CM.currentTerm cm) (RequestVoteArgs.Term rvArgs))
  /\ (exists reply' cm' es,
     AppendEntries (AppResult:=AppResult) now aeArgs aeReply cm = Done reply' cm' es
     /\ AppendEntriesReply.Term reply' = CM.currentTerm cm'
     /\ CM.currentTerm cm' = Z.max (CM.currentTerm cm) (AppendEntriesArgs.Term aeArgs)
     /\ (AppendEntriesReply.Success reply' = true <->
           CM.currentTerm cm <= AppendEntriesArgs.Term aeArgs
           /\ consistent (CM.log cm) aeArgs))
  /\ RequestVote (AppResult:=AppResult) now rvArgs rvReply (CM.with_state Dead cm)
       = Done rvReply (CM.with_state Dead cm) []
  /\ AppendEntries (AppResult:=AppResult) now aeArgs aeReply (CM.with_state Dead cm)
       = Done aeReply (CM.with_state Dead cm) [].
Proof.
  intros Hdead Hprev.
  split; [|split; [|split; [by apply RequestVote_dead|by apply AppendEntries_dead]]].
  - destruct (RequestVote_returns now rvArgs rvReply cm Hdead) as (g & es & _ & Hrun).
    rewrite Hrun. eexists _, _, _. split; [reflexivity|]. simpl.
    unfold upgradeTerm.
    case_bool_decide; destruct g; simpl; split; try done; lia.
  - destruct (Z.lt_ge_cases (AppendEntriesArgs.Term aeArgs) (CM.currentTerm cm))
      as [Hlt|Hge].
    + rewrite (AppendEntries_stale now aeArgs aeReply cm Hdead Hlt).
      eexists _, _, _. split; [reflexivity|]. simpl.
      split; [done|]. split; [lia|]. split; [done|]. lia.
    + assert (Hdec : consistent (CM.log cm) aeArgs \/ ~ consistent (CM.log cm) aeArgs).
      { destruct (check_returns aeArgs cm Hprev) as (ok & _ & Hok).
        destruct ok; [left; tauto|right]. intros Hc. apply Hok in Hc. done. }
      destruct Hdec as [Hc|Hc].
      * destruct (AppendEntries_accepted now aeArgs aeReply cm Hdead Hge Hc)
          as (cm' & timers & Hrun & _ & _ & Hct & _).
        rewrite Hrun. eexists _, _, _. split; [reflexivity|]. simpl.
        split; [done|]. split; [lia|]. done.
      * destruct (AppendEntries_inconsistent now aeArgs aeReply cm Hdead Hge Hprev Hc)
          as (cm' & timers & Hrun & _ & _ & Hct & _).
        rewrite Hrun. eexists _, _, _. split; [reflexivity|]. simpl.
        split; [done|]. split; [lia|]. split; [done|]. tauto.
Qed.


(** *** Loops over the peers *)

Lemma forEach_modify (l : list Z) (f : Z -> CM.t Command -> CM.t Command)
    (body : Z -> M unit) cm :
  (forall p s, body p s = Done tt (f p s) []) ->
  forEach l body cm = Done tt (foldl (fun s p => f p s) cm l) [].
Proof.
  intros Hbody. revert cm. induction l as [|p l IH]; intros cm; [done|].
  simpl. run. rewrite Hbody, IH. done.
Qed.

Lemma startLeader_fold_fields l cm :
  let cm' := foldl (fun s p => startLeader_step p s) cm l in
  CM.state cm' = CM.state cm /\ CM.peerIds cm' = CM.peerIds cm
  /\ CM.log cm' = CM.log cm /\ CM.currentTerm cm' = CM.currentTerm cm
  /\ CM.commitIndex cm' = CM.commitIndex cm.
Proof.
  revert cm. induction l as [|p l IH]; intros cm; simpl; [done|].
  destruct (IH (startLeader_step p cm)) as (? & ? & ? & ? & ?). done.
Qed.

Lemma startLeader_returns cm :
  exists cm',
    startLeader (AppResult:=AppResult) cm = Done tt cm' [GoRunAEsTimer 50]
    /\ CM.state cm' = Leader /\ CM.peerIds cm' = CM.peerIds cm
    /\ CM.log cm' = CM.log cm /\ CM.currentTerm cm' = CM.currentTerm cm
    /\ CM.commitIndex cm' = CM.commitIndex cm.
Proof.
  unfold startLeader. run.
  rewrite (forEach_modify _ startLeader_step) by done. simpl.
  eexists. split; [reflexivity|].
  apply (startLeader_fold_fields _ (CM.with_state Leader cm)).
Qed.

(** C2: a granted vote counted in the saved election term makes the
    candidate Leader exactly when the votes, the new one and the
    candidate's own included, satisfy [votes * 2 > N + 1], [N] being the
    number of entries of [peerIds] (the node itself is one of them); the
    counts are taken small enough for the 64-bit products not to wrap. *)
Theorem election_win_threshold now savedCurrentTerm reply votesReceived cm :
  CM.state cm = Candidate ->
  RequestVoteReply.Term reply = savedCurrentTerm ->
  RequestVoteReply.VoteGranted reply = true ->
  0 <= votesReceived ->
  (votesReceived + 1) * 2 <= GoInt.MaxInt ->
  mapLen (CM.peerIds cm) + 1 <= GoInt.MaxInt ->
  let votes := votesReceived + 1 in
  let N := mapLen (CM.peerIds cm) in
  exists cm' es,
    startElection_reply (AppResult:=AppResult) now savedCurrentTerm reply
      votesReceived cm = Done votes cm' es
    /\ (CM.state cm' = Leader <-> votes * 2 > N + 1)
    /\ (~ votes * 2 > N + 1 -> cm' = cm).
Proof.
  intros Hcand Hterm Hgranted Hvotes Hmul Hlen votes N.
  assert (HN : 0 <= N) by (unfold N, mapLen; lia).
  unfold startElection_reply. run.
  rewrite bool_decide_eq_false_2 by (rewrite Hcand; tauto).
  rewrite bool_decide_eq_false_2 by lia.
  rewrite (bool_decide_eq_true_2 _ Hterm), Hgranted.
  rewrite !GoIntFacts.add_in_range, GoIntFacts.mul_in_range
    by (unfold GoInt.in_range, GoInt.MinInt, GoInt.MaxInt in *; fold N; lia).
  fold votes N. case_bool_decide as Hwin; simpl.
  - destruct (startLeader_returns cm) as (cm' & Hrun & Hst & _).
    rewrite Hrun. eexists _, _. split; [reflexivity|]. split; [tauto|]. tauto.
  - eexists _, _. split; [reflexivity|].
    split; [|done]. rewrite Hcand. split; [discriminate|tauto].
Qed.

(** *** [Submit] *)

Lemma Submit_wait_resent currentLogIndex ticked
    (others : list (CommittedResult.t AppResult)) sel cm :
  Forall (fun cr => CommittedResult.Index cr <> currentLogIndex) others ->
  Submit_wait (Command:=Command) currentLogIndex InSelect ticked
    (resent others ++ sel) cm =
    match Submit_wait currentLogIndex InSelect ticked sel cm with
    | Panic => Panic
    | Done r cm' es => Done r cm' (requeue others ++ es)
    end.
Proof.
  intros Hall. induction Hall as [|cr others Hcr _ IH].
  - simpl. by destruct (Submit_wait currentLogIndex InSelect ticked sel cm).
  - cbn [resent flat_map app Submit_wait].
    rewrite (bool_decide_eq_true_2 _ Hcr).
    unfold mbind, R_bind, bind, emit at 1 2.
    fold (resent others). rewrite IH.
    by destruct (Submit_wait currentLogIndex InSelect ticked sel cm).
Qed.

(** In the send of a result of another index, ticks change nothing:
    [Submit] stands there for as long as no receiver comes. *)
Lemma Submit_wait_sending currentLogIndex committedResult (n : nat) :
  forall ticked cm,
  Submit_wait (Command:=Command) (AppResult:=AppResult) currentLogIndex
    (InSend committedResult) ticked (replicate n TickerC) cm
  = Done (Sending committedResult) cm [].
Proof.
  induction n as [|n IH]; intros ticked cm; [done|].
  cbn [replicate Submit_wait]. apply IH.
Qed.

(** What [Submit] does when every result it sends back finds a receiver.
    On a node that is not the leader it returns [(nil, false)] and changes
    nothing. On the leader it appends the command with the current term at
    index [len(log)], wakes the replication loop, arms a 650 ms ticker, and
    sends back every result received for another index; it returns
    [(nil, false)] when the ticker fires, the result and [true] when a
    result for its own index arrives, and goes on waiting while neither
    has happened. *)
Lemma Submit_resends_taken (command : Command) cm
    (others : list (CommittedResult.t AppResult))
    (rest : list (WaitEvent AppResult)) :
  let targetIndex := len (CM.log cm) in
  let appended :=
    CM.with_log (CM.log cm ++ [LogEntry.mk command (CM.currentTerm cm)]) cm in
  let sent := [SendTriggerAE; NewTicker 650] ++ requeue others in
  Forall (fun cr => CommittedResult.Index cr <> targetIndex) others ->
  (CM.state cm <> Leader ->
     Submit command (resent others ++ rest) cm
       = Done (Returned None false) cm [])
  /\ (CM.state cm = Leader ->
        index (CM.log appended) targetIndex
          = Some (LogEntry.mk command (CM.currentTerm cm))
        /\ Submit command (resent others ++ TickerC :: rest) cm
             = Done (Returned None false) appended (sent ++ [TickerStop])
        /\ (forall cr, CommittedResult.Index cr = targetIndex ->
              Submit command (resent others ++ Received cr :: rest) cm
                = Done (Returned (Some (CommittedResult.Result cr)) true)
                    appended sent)
        /\ Submit command (resent others) cm = Done Waiting appended sent).
Proof.
  intros targetIndex appended sent Hothers. split.
  - intros Hst. unfold Submit. run. by rewrite (bool_decide_eq_false_2 _ Hst).
  - intros Hst.
    assert (Hidx : len (CM.log cm ++ [LogEntry.mk command (CM.currentTerm cm)]) - 1
                   = targetIndex).
    { unfold targetIndex, len. rewrite length_app. simpl. lia. }
    split.
    { unfold appended. simpl. rewrite index_lookup by (unfold targetIndex, len; lia).
      unfold targetIndex, len. rewrite Nat2Z.id.
      rewrite lookup_app_r by lia. by rewrite Nat.sub_diag. }
    split; [|split].
    + unfold Submit. run. rewrite (bool_decide_eq_true_2 _ Hst). simpl.
      rewrite Hidx, (Submit_wait_resent _ _ _ _ _ Hothers). simpl. run.
      done.
    + intros cr Hcr. unfold Submit. run. rewrite (bool_decide_eq_true_2 _ Hst). simpl.
      rewrite Hidx, (Submit_wait_resent _ _ _ _ _ Hothers). simpl.
      rewrite bool_decide_eq_false_2 by tauto. run.
      unfold sent. simpl. by rewrite ?app_nil_r.
    + unfold Submit. run. rewrite (bool_decide_eq_true_2 _ Hst). simpl.
      rewrite Hidx. rewrite <- (app_nil_r (resent others)).
      rewrite (Submit_wait_resent _ _ _ _ _ Hothers). simpl. run.
      unfold sent. simpl. by rewrite ?app_nil_r.
Qed.

(** On the leader, a [Submit] that receives a result of another index and
    finds no receiver for it does not return, however often the ticker
    fires: it has appended its command, sent the trigger and armed the
    ticker, and stands in the send. *)
Lemma Submit_sending (command : Command) cm
    (committedResult : CommittedResult.t AppResult) (n : nat) :
  CM.state cm = Leader ->
  CommittedResult.Index committedResult <> len (CM.log cm) ->
  Submit command (Received committedResult :: replicate n TickerC) cm
  = Done (Sending committedResult)
      (CM.with_log (CM.log cm ++ [LogEntry.mk command (CM.currentTerm cm)]) cm)
      [SendTriggerAE; NewTicker 650].
Proof.
  intros Hst Hidx. unfold Submit. run. rewrite (bool_decide_eq_true_2 _ Hst). simpl.
  rewrite bool_decide_eq_true_2
    by (unfold len in *; rewrite length_app; simpl; lia).
  by rewrite Submit_wait_sending.
Qed.


(** *** The commit scan of the leader *)

Lemma matchCount_fold cm i (l : list Z) (acc : Z) :
  0 <= acc -> acc + Z.of_nat (length l) <= GoInt.MaxInt ->
  foldl (fun matchCount peerId =>
           if bool_decide (mapGet (CM.matchIndex cm) peerId >= i)
           then GoInt.add matchCount 1 else matchCount) acc l
  = acc + Z.of_nat (length (filter (fun peerId =>
                              mapGet (CM.matchIndex cm) peerId >= i) l)).
Proof.
  revert acc. induction l as [|p l IH]; intros acc Hacc Hmax; simpl in *; [lia|].
  rewrite filter_cons. case_bool_decide as Hp.
  - rewrite decide_True by done.
    rewrite GoIntFacts.add_in_range
      by (unfold GoInt.in_range, GoInt.MinInt, GoInt.MaxInt in *; lia).
    rewrite IH by lia. simpl. lia.
  - rewrite decide_False by done. rewrite IH by lia. done.
Qed.

(** While it cannot overflow, [matchCount] is one, for the leader, plus the
    number of entries of [peerIds] whose [matchIndex] has reached [i]. *)
Lemma matchCount_counts cm i :
  mapLen (CM.peerIds cm) < GoInt.MaxInt ->
  matchCount cm i = 1 + Z.of_nat (length (matching cm i)).
Proof.
  intros Hlen. unfold matchCount, matching. apply matchCount_fold; [lia|].
  unfold rangePeerIds, mapLen in *.
  rewrite length_fmap, length_map_to_list. lia.
Qed.

Lemma commits_with_commitIndex cm c i :
  commits (CM.with_commitIndex c cm) i <-> commits cm i.
Proof. done. Qed.

Lemma commitScan_body_returns i cm :
  0 <= i < len (CM.log cm) ->
  (commits cm i
   /\ commitScan_body (AppResult:=AppResult) i cm
      = Done tt (CM.with_commitIndex i cm) [])
  \/ (~ commits cm i
      /\ commitScan_body (AppResult:=AppResult) i cm = Done tt cm []).
Proof.
  intros Hi. unfold commitScan_body, commits. run.
  rewrite index_lookup by lia.
  destruct (lookup_lt_is_Some_2 (CM.log cm) (Z.to_nat i)) as [e He];
    [unfold len in Hi; lia|].
  rewrite He. simpl.
  case_bool_decide as Ht; simpl; [case_bool_decide as Hc; simpl|].
  - left. split; [|done]. eauto.
  - right. split; [|done]. intros (e' & He' & _ & Hc'). lia.
  - right. split; [|done]. intros (e' & He' & Ht' & _). congruence.
Qed.

Lemma commitScan_from cm (n : nat) : forall first c,
  0 <= first -> first + Z.of_nat n <= len (CM.log cm) ->
  exists c',
    forEach (seqZ first (Z.of_nat n)) (commitScan_body (AppResult:=AppResult))
      (CM.with_commitIndex c cm)
    = Done tt (CM.with_commitIndex c' cm) []
    /\ ((c' = c /\ forall i, first <= i < first + Z.of_nat n -> ~ commits cm i)
        \/ (first <= c' < first + Z.of_nat n /\ commits cm c'
            /\ forall i, c' < i < first + Z.of_nat n -> ~ commits cm i)).
Proof.
  induction n as [|n IH]; intros first c Hfirst Hlen.
  - rewrite seqZ_nil by lia. simpl. exists c. split; [done|]. left.
    split; [done|]. intros; lia.
  - rewrite seqZ_cons by lia. simpl. run.
    replace (Z.pred (Z.of_nat (S n))) with (Z.of_nat n) by lia.
    destruct (commitScan_body_returns first (CM.with_commitIndex c cm))
      as [[Hc Hrun]|[Hc Hrun]]; [simpl; lia| |]; rewrite Hrun;
      apply commits_with_commitIndex in Hc || rewrite commits_with_commitIndex in Hc.
    + destruct (IH (Z.succ first) first) as (c' & Hloop & Hc'); [lia|lia|].
      change (CM.with_commitIndex first (CM.with_commitIndex c cm))
        with (CM.with_commitIndex first cm).
      rewrite Hloop. exists c'. split; [done|]. right.
      destruct Hc' as [[-> Hnone]|(Hrange & Hcc & Hnone)].
      * split; [lia|]. split; [done|]. intros i Hi. apply Hnone. lia.
      * split; [lia|]. split; [done|]. intros i Hi. apply Hnone. lia.
    + destruct (IH (Z.succ first) c) as (c' & Hloop & Hc'); [lia|lia|].
      rewrite Hloop. exists c'. split; [done|].
      destruct Hc' as [[-> Hnone]|(Hrange & Hcc & Hnone)].
      * left. split; [done|]. intros i Hi.
        destruct (decide (i = first)) as [->|]; [done|]. apply Hnone. lia.
      * right. split; [lia|]. split; [done|]. intros i Hi. apply Hnone. lia.
Qed.

(** What the scan does: the commit index becomes the largest index above
    it that passes the test of the source, and stays if there is none. *)
Lemma commitScan_returns cm :
  -1 <= CM.commitIndex cm < len (CM.log cm) ->
  len (CM.log cm) <= GoInt.MaxInt ->
  exists c',
    commitScan (AppResult:=AppResult) cm = Done tt (CM.with_commitIndex c' cm) []
    /\ ((c' = CM.commitIndex cm
         /\ forall i, CM.commitIndex cm < i < len (CM.log cm) -> ~ commits cm i)
        \/ (CM.commitIndex cm < c' < len (CM.log cm) /\ commits cm c'
            /\ forall i, c' < i < len (CM.log cm) -> ~ commits cm i)).
Proof.
  intros Hci Hlen. unfold commitScan. run.
  rewrite GoIntFacts.add_in_range
    by (unfold GoInt.in_range, GoInt.MinInt, GoInt.MaxInt in *; lia).
  set (first := CM.commitIndex cm + 1).
  destruct (commitScan_from cm (Z.to_nat (len (CM.log cm) - first)) first
              (CM.commitIndex cm)) as (c' & Hrun & Hc'); [lia|lia|].
  rewrite Z2Nat.id in Hrun, Hc' by lia.
  replace (CM.with_commitIndex (CM.commitIndex cm) cm) with cm in Hrun
    by (by destruct cm).
  rewrite Hrun. exists c'. split; [done|].
  destruct Hc' as [[-> Hnone]|(Hrange & Hcc & Hnone)].
  - left. split; [done|]. intros i Hi. apply Hnone. lia.
  - right. split; [lia|]. split; [done|]. intros i Hi. apply Hnone. lia.
Qed.


(** A successful reply at the saved term, on the leader: the peer's
    progress is recorded, the scan runs, and the two wake-ups are sent
    exactly when the commit index has moved. *)
Lemma leaderSendAEs_reply_success now peerId savedCurrentTerm ni entries reply cm :
  CM.state cm = Leader ->
  AppendEntriesReply.Term reply <= CM.currentTerm cm ->
  savedCurrentTerm = AppendEntriesReply.Term reply ->
  AppendEntriesReply.Success reply = true ->
  -1 <= CM.commitIndex cm < len (CM.log cm) ->
  len (CM.log cm) <= GoInt.MaxInt ->
  let next := GoInt.add ni (len entries) in
  let recorded :=
    CM.with_matchIndex (<[peerId := GoInt.sub next 1]> (CM.matchIndex cm))
      (CM.with_nextIndex (<[peerId := next]> (CM.nextIndex cm)) cm) in
  exists c',
    leaderSendAEs_reply (AppResult:=AppResult) now peerId savedCurrentTerm ni
      entries reply cm
    = Done tt (CM.with_commitIndex c' recorded)
        (if bool_decide (c' <> CM.commitIndex cm)
         then [SendNewCommitReady; SendTriggerAE] else [])
    /\ ((c' = CM.commitIndex cm
         /\ forall i, CM.commitIndex cm < i < len (CM.log cm) -> ~ commits recorded i)
        \/ (CM.commitIndex cm < c' < len (CM.log cm) /\ commits recorded c'
            /\ forall i, c' < i < len (CM.log cm) -> ~ commits recorded i)).
Proof.
  intros Hst Hterm Hsaved Hsucc Hci Hlen next recorded.
  unfold leaderSendAEs_reply. run.
  rewrite bool_decide_eq_false_2 by lia.
  rewrite (bool_decide_eq_true_2 _ Hst), (bool_decide_eq_true_2 _ Hsaved), Hsucc.
  simpl. unfold mapGet at 1. simpl. rewrite lookup_insert_eq. simpl.
  fold next. fold recorded.
  destruct (commitScan_returns recorded) as (c' & Hrun & Hc'); [done|done|].
  rewrite Hrun. simpl. exists c'. split; [|exact Hc'].
  by case_bool_decide.
Qed.

End Facts.

(** *** The theorems on concrete nodes *)

Import scenarios.

(** A follower at term 2 with an empty log grants its vote to candidate 1
    of term 3 at instant 7. *)
Lemma RequestVote_grant_condition_witness :
  CM.state (node Follower 2 [] (-1)) <> Dead
  /\ exists reply' cm',
       (exists es, RequestVote (AppResult:=Res) 7 voteRequest RequestVoteReply.zero
                     (node Follower 2 [] (-1)) = Done reply' cm' es)
       /\ RequestVoteReply.VoteGranted reply' = true
       /\ CM.votedFor cm' = 1
       /\ CM.electionResetEvent cm' = 7.
Proof.
  assert (H : CM.state (node Follower 2 [] (-1)) <> Dead) by done.
  split; [exact H|].
  destruct (RequestVote_grant_condition (AppResult:=Res) 7 voteRequest
              RequestVoteReply.zero _ H) as (r & cm' & es & Hrun & Hiff & Hset).
  exists r, cm'. split; [by exists es|].
  assert (Hg : RequestVoteReply.VoteGranted r = true).
  { apply Hiff. vm_compute. split; [done|]. split; [by left|].
    right. split; [done|]. discriminate. }
  split; [exact Hg|]. exact (Hset Hg).
Defined.

Lemma AppendEntries_reconciles_witness :
  CM.state follower3 <> Dead
  /\ CM.currentTerm follower3 <= AppendEntriesArgs.Term appendTwo
  /\ consistent (CM.log follower3) appendTwo
  /\ exists reply' cm' es (k : nat),
       AppendEntries (AppResult:=Res) 0 appendTwo AppendEntriesReply.zero follower3
         = Done reply' cm' es
       /\ (k <= 2)%nat
       /\ CM.log cm' =
            (if bool_decide (k < 2)%nat
             then take (1 + k) (CM.log follower3) ++ drop k [entry 1; entry 2]
             else CM.log follower3).
Proof.
  assert (H1 : CM.state follower3 <> Dead) by done.
  assert (H2 : CM.currentTerm follower3 <= AppendEntriesArgs.Term appendTwo)
    by (vm_compute; discriminate).
  assert (H3 : consistent (CM.log follower3) appendTwo).
  { right. exists (entry 1). split; [done|]. split; reflexivity. }
  split; [exact H1|]. split; [exact H2|]. split; [exact H3|].
  destruct (AppendEntries_reconciles (AppResult:=Res) 0 appendTwo
              AppendEntriesReply.zero follower3 H1 H2 H3)
    as (r & cm' & es & k & Hrun & _ & Hk & _ & _ & Hlog & _).
  exists r, cm', es, k. split; [exact Hrun|]. split; [exact Hk|]. exact Hlog.
Defined.

(** Against C5 as specified, the handler can lower the commit index:
    a follower with two committed entries of term 1 accepts an
    AppendEntries that conflicts at index 0 and is left with one entry
    and commit index 0. *)
Lemma AppendEntries_commitIndex_decreases :
  CM.state committedFollower <> Dead
  /\ CM.commitIndex committedFollower = 1
  /\ exists cm',
       AppendEntries (AppResult:=Res) 0 overwriting AppendEntriesReply.zero
         committedFollower
         = Done (AppendEntriesReply.mk 2 true) cm' [SendNewCommitReady]
       /\ CM.log cm' = [entry 2]
       /\ CM.commitIndex cm' = 0
       /\ CM.commitIndex cm' < CM.commitIndex committedFollower.
Proof.
  split; [done|]. split; [reflexivity|].
  eexists. split; [vm_compute; reflexivity|].
  split; [reflexivity|]. split; [reflexivity|]. vm_compute. reflexivity.
Qed.

Lemma AppendEntries_commit_update_witness :
  CM.state follower3 <> Dead
  /\ CM.currentTerm follower3 <= AppendEntriesArgs.Term appendTwo
  /\ consistent (CM.log follower3) appendTwo
  /\ exists reply' cm' timers,
       AppendEntries (AppResult:=Res) 0 appendTwo AppendEntriesReply.zero follower3
         = Done reply' cm' (timers ++ [SendNewCommitReady])
       /\ CM.commitIndex cm' = Z.min 1 (GoSlice.len (CM.log cm') - 1)
       /\ (CM.commitIndex follower3 <= GoSlice.len (CM.log cm') - 1 ->
           CM.commitIndex follower3 <= CM.commitIndex cm').
Proof.
  assert (H1 : CM.state follower3 <> Dead) by done.
  assert (H2 : CM.currentTerm follower3 <= AppendEntriesArgs.Term appendTwo)
    by (vm_compute; discriminate).
  assert (H3 : consistent (CM.log follower3) appendTwo).
  { right. exists (entry 1). split; [done|]. split; reflexivity. }
  split; [exact H1|]. split; [exact H2|]. split; [exact H3|].
  destruct (AppendEntries_commit_update (AppResult:=Res) 0 appendTwo
              AppendEntriesReply.zero follower3 H1 H2 H3)
    as (r & cm' & timers & Hrun & _ & _ & Hci & Hmono).
  exists r, cm', timers. split; [exact Hrun|]. split; [exact Hci|]. exact Hmono.
Defined.

(** Against C7 as specified, on a Dead node the handlers return before they
    write the reply, which keeps the zero term it arrived with while the
    node's term is 3. *)
Lemma dead_node_reply_lacks_term :
  CM.state deadNode = Dead
  /\ CM.currentTerm deadNode = 3
  /\ RequestVote (AppResult:=Res) 0 voteRequest RequestVoteReply.zero deadNode
       = Done (RequestVoteReply.mk 0 false) deadNode []
  /\ AppendEntries (AppResult:=Res) 0 heartbeat AppendEntriesReply.zero deadNode
       = Done (AppendEntriesReply.mk 0 false) deadNode []
  /\ RequestVoteReply.Term (RequestVoteReply.mk 0 false) <> CM.currentTerm deadNode
  /\ AppendEntriesReply.Term (AppendEntriesReply.mk 0 false) <> CM.currentTerm deadNode.
Proof. repeat split; try reflexivity; vm_compute; discriminate. Qed.

Lemma replies_carry_current_term_witness :
  CM.state follower3 <> Dead
  /\ -1 <= AppendEntriesArgs.PrevLogIndex appendTwo
  /\ (exists reply' cm' es,
        RequestVote (AppResult:=Res) 0 voteRequest RequestVoteReply.zero follower3
          = Done reply' cm' es
        /\ RequestVoteReply.Term reply' = CM.currentTerm cm'
        /\ CM.currentTerm cm' = 3)
  /\ (exists reply' cm' es,
        AppendEntries (AppResult:=Res) 0 appendTwo AppendEntriesReply.zero follower3
          = Done reply' cm' es
        /\ AppendEntriesReply.Term reply' = CM.currentTerm cm'
        /\ CM.currentTerm cm' = 2).
Proof.
  assert (H1 : CM.state follower3 <> Dead) by done.
  assert (H2 : -1 <= AppendEntriesArgs.PrevLogIndex appendTwo)
    by (vm_compute; discriminate).
  split; [exact H1|]. split; [exact H2|].
  destruct (replies_carry_current_term (AppResult:=Res) 0 voteRequest appendTwo
              RequestVoteReply.zero AppendEntriesReply.zero follower3 H1 H2)
    as ((r & cm' & es & Hrun & Ht & Hmax) & (r2 & cm2 & es2 & Hrun2 & Ht2 & Hmax2 & _) & _).
  split.
  - exists r, cm', es. split; [exact Hrun|]. split; [exact Ht|]. exact Hmax.
  - exists r2, cm2, es2. split; [exact Hrun2|]. split; [exact Ht2|]. exact Hmax2.
Defined.

(** C1 on the code: node 0 leads a three-node cluster at term 1 with one
    entry of that term. It sends the entry to peer 1, which appends it and
    replies with success. The leader and peer 1 are two nodes of three, a
    strict majority holding index 0 of the current term, and the scan
    leaves the commit index at -1: its test is
    [matchCount*2 > len(peerIds)+1] with the leader itself in [peerIds]. *)
Theorem commit_scan_misses_strict_majority :
  let cm' := exec (AppResult:=Res)
               (leaderSendAEs_reply 0 1 1 0 [entry 1] success) leaderNode in
  leaderSendAEs_args (AppResult:=Res) 1 1 leaderNode
    = Done (0, [entry 1], firstAppend) leaderNode []
  /\ LogEntry.Term <$> CM.log (exec (AppResult:=Res)
                                 (AppendEntries 0 firstAppend AppendEntriesReply.zero)
                                 peerNode) = [1]
  /\ (exists cm1 es, AppendEntries (AppResult:=Res) 0 firstAppend
                       AppendEntriesReply.zero peerNode = Done success cm1 es)
  /\ leaderSendAEs_reply (AppResult:=Res) 0 1 1 0 [entry 1] success leaderNode
    = Done tt cm' []
  /\ CM.state cm' = Leader
  /\ CM.currentTerm cm' = 1
  /\ LogEntry.Term <$> CM.log cm' = [1]
  /\ mapLen (CM.peerIds cm') = 3
  /\ mapGet (CM.matchIndex cm') 1 = 0
  /\ matchCount cm' 0 = 2
  /\ matchCount cm' 0 * 2 > mapLen (CM.peerIds cm')
  /\ CM.commitIndex cm' = -1.
Proof.
  split; [vm_compute; reflexivity|]. split; [vm_compute; reflexivity|].
  split; [eexists _, _; vm_compute; reflexivity|].
  vm_compute. repeat split; reflexivity.
Qed.

(** With the second peer's reply, all three nodes hold the entry and the
    scan commits it. *)
Lemma commit_scan_commits_when_unanimous :
  let cm1 := exec (AppResult:=Res)
               (leaderSendAEs_reply 0 1 1 0 [entry 1] success) leaderNode in
  exists cm2,
    leaderSendAEs_reply (AppResult:=Res) 0 2 1 0 [entry 1] success cm1
      = Done tt cm2 [SendNewCommitReady; SendTriggerAE]
    /\ CM.commitIndex cm2 = 0.
Proof. eexists. split; vm_compute; reflexivity. Qed.

(** The candidate of a three-node cluster: with its own vote and one
    granted vote it has 2 votes, 2 * 2 > 3 + 1 fails, and it stays
    Candidate; the theorem gives the state it is left in. *)
Lemma election_win_threshold_witness :
  CM.state candidateNode = Candidate
  /\ RequestVoteReply.Term granted = 1
  /\ RequestVoteReply.VoteGranted granted = true
  /\ 0 <= 1
  /\ (1 + 1) * 2 <= GoInt.MaxInt
  /\ mapLen (CM.peerIds candidateNode) + 1 <= GoInt.MaxInt
  /\ exists cm' es,
       startElection_reply (AppResult:=Res) 6 1 granted 1 candidateNode
         = Done 2 cm' es
       /\ (CM.state cm' = Leader <-> 2 * 2 > 3 + 1).
Proof.
  assert (H1 : CM.state candidateNode = Candidate) by reflexivity.
  assert (H2 : RequestVoteReply.Term granted = 1) by reflexivity.
  assert (H3 : RequestVoteReply.VoteGranted granted = true) by reflexivity.
  assert (H4 : 0 <= 1) by lia.
  assert (H5 : (1 + 1) * 2 <= GoInt.MaxInt) by (vm_compute; discriminate).
  assert (H6 : mapLen (CM.peerIds candidateNode) + 1 <= GoInt.MaxInt)
    by (vm_compute; discriminate).
  repeat (split; [assumption|]).
  destruct (election_win_threshold (AppResult:=Res) 6 1 granted 1 candidateNode
              H1 H2 H3 H4 H5 H6) as (cm' & es & Hrun & Hiff & _).
  exists cm', es. split; [exact Hrun|]. exact Hiff.
Defined.

(** A third vote does win: 3 * 2 > 3 + 1. *)
Lemma election_won_with_three_votes :
  exists cm' es,
    startElection_reply (AppResult:=Res) 6 1 granted 2 candidateNode
      = Done 3 cm' es
    /\ CM.state cm' = Leader.
Proof. eexists _, _. split; vm_compute; reflexivity. Qed.

(** C6: [Submit] does not always return on timeout. The leader of the
    scenario, whose log holds one entry, is given [push 1 7] while the
    result of index 0 is still on offer. [Submit] appends the command at
    index 1, receives the result of index 0 and sends it back; no other
    goroutine receives, so it stands in that send and has not returned
    [(nil, false)] when the ticker has fired, once or any number of
    times. *)
Theorem Submit_blocks_in_requeue :
  CM.state leaderNode = Leader
  /\ CommittedResult.Index uncollected <> GoSlice.len (CM.log leaderNode)
  /\ forall n : nat,
       Submit pushCommand (Received uncollected :: replicate (S n) TickerC) leaderNode
       = Done (Sending uncollected)
           (CM.with_log (CM.log leaderNode ++ [LogEntry.mk pushCommand 1]) leaderNode)
           [SendTriggerAE; NewTicker 650].
Proof.
  assert (H1 : CM.state leaderNode = Leader) by reflexivity.
  assert (H2 : CommittedResult.Index uncollected <> GoSlice.len (CM.log leaderNode))
    by (vm_compute; discriminate).
  split; [exact H1|]. split; [exact H2|].
  intros n. exact (Submit_sending pushCommand leaderNode uncollected (S n) H1 H2).
Qed.

(** With a receiver for the result sent back, the same [Submit] times
    out. *)
Example Submit_times_out_when_taken :
  Submit pushCommand [Received uncollected; Taken; TickerC] leaderNode
  = Done (Returned None false)
      (CM.with_log (CM.log leaderNode ++ [LogEntry.mk pushCommand 1]) leaderNode)
      [SendTriggerAE; NewTicker 650; SendCommittedResult uncollected; Sleep 5;
       TickerStop].
Proof. vm_compute. reflexivity. Qed.

End raft_spec.

(** ** More on the stack calculator *)

Module calculator_props.
Import StateM calculator calculator_spec.

Ltac run := unfold mbind, mret, M_bind, M_ret, bind, ret, get, modify; simpl.

Lemma has_None app instanceId :
  Calculator_ app !! instanceId = None -> has app instanceId = false.
Proof.
  intros H. unfold has. rewrite H. apply bool_decide_eq_false.
  by intros [? ?].
Qed.

Lemma get_present app instanceId s operand :
  Calculator_ app !! instanceId = Some (s ++ [operand]) ->
  get_ instanceId app = ((operand, true), app).
Proof.
  intros H. unfold get_, len. run.
  rewrite (has_Some _ _ _ H), (stack_Some _ _ _ H). simpl.
  rewrite length_app. simpl.
  destruct (Z.eqb_spec (Z.of_nat (length s + 1)) 0) as [E|_]; [lia|].
  by rewrite last_snoc.
Qed.

(** X1: on an existing instance, [push v] succeeds, [get] then reads [v]
    without changing anything, and [pop] returns [v] and gives back the
    calculator as it was before the push. *)
Theorem push_get_pop_roundtrip (app : Calculator) (instanceId v : Z) (s : list Z) :
  Calculator_ app !! instanceId = Some s ->
  let pushed := snd (ApplyCommand (cmd "push" instanceId v) app) in
  ApplyCommand (cmd "push" instanceId v) app
    = (mkResult true 0, with_stack instanceId (s ++ [v]) app)
  /\ ApplyCommand (cmd "get" instanceId 0) pushed = (mkResult true v, pushed)
  /\ ApplyCommand (cmd "pop" instanceId 0) pushed = (mkResult true v, app).
Proof.
  intros H pushed.
  assert (E : ApplyCommand (cmd "push" instanceId v) app
              = (mkResult true 0, with_stack instanceId (s ++ [v]) app)).
  { unfold ApplyCommand. run. by rewrite (push_present _ _ _ _ H). }
  split; [exact E|]. unfold pushed. rewrite E. simpl.
  pose proof (with_stack_lookup instanceId (s ++ [v]) app) as Hl.
  split.
  - unfold ApplyCommand, valOk. run. by rewrite (get_present _ _ _ _ Hl).
  - unfold ApplyCommand, valOk. run. rewrite (pop_present _ _ _ _ Hl).
    by rewrite with_stack_twice, (with_stack_same _ _ _ H).
Qed.

Lemma push_get_pop_roundtrip_witness :
  Calculator_ after_push_0_10 !! 1 = Some [0; 10]
  /\ ApplyCommand (cmd "pop" 1 0)
       (snd (ApplyCommand (cmd "push" 1 7) after_push_0_10))
     = (mkResult true 7, after_push_0_10).
Proof.
  assert (H : Calculator_ after_push_0_10 !! 1 = Some [0; 10])
    by (vm_compute; reflexivity).
  split; [exact H|].
  exact (proj2 (proj2 (push_get_pop_roundtrip after_push_0_10 1 7 [0; 10] H))).
Defined.

(** X2: any command other than [create] that names an instance that does
    not exist, whatever its method, answers [Result=false], [Value=0] and
    leaves the calculator untouched. *)
Theorem missing_instance_rejected (app : Calculator) (e : Entry) :
  Method e <> "create" ->
  Calculator_ app !! InstanceId e = None ->
  ApplyCommand e app = (mkResult false 0, app).
Proof.
  intros Hm Hnone. pose proof (has_None _ _ Hnone) as Hhas.
  unfold ApplyCommand.
  destruct (String.eqb_spec (Method e) "create") as [|_]; [done|].
  repeat match goal with
  | |- context [if String.eqb ?a ?b then _ else _] => destruct (String.eqb a b)
  end;
  unfold deleteCalculator, push, pop, add, sub, mul, div, inc, dec, get_, valOk;
  run; rewrite ?Hhas; reflexivity.
Qed.

Lemma missing_instance_rejected_witness :
  Method (cmd "div" 5 0) <> "create"
  /\ Calculator_ after_push_0_10 !! InstanceId (cmd "div" 5 0) = None
  /\ ApplyCommand (cmd "div" 5 0) after_push_0_10
     = (mkResult false 0, after_push_0_10).
Proof.
  assert (H1 : Method (cmd "div" 5 0) <> "create") by discriminate.
  assert (H2 : Calculator_ after_push_0_10 !! InstanceId (cmd "div" 5 0) = None)
    by (vm_compute; reflexivity).
  split; [exact H1|]. split; [exact H2|].
  exact (missing_instance_rejected after_push_0_10 (cmd "div" 5 0) H1 H2).
Defined.

(** X3: a command that needs more operands than the stack holds fails and
    changes nothing: [add], [sub], [mul] and [div] on fewer than two
    elements, [pop], [inc], [dec] and [get] on an empty stack. *)
Theorem stack_underflow_rejected (app : Calculator) (e : Entry) (s : list Z) :
  Calculator_ app !! InstanceId e = Some s ->
  (Method e ∈ ["add"; "sub"; "mul"; "div"] /\ (length s < 2)%nat)
  \/ (Method e ∈ ["pop"; "inc"; "dec"; "get"] /\ s = []) ->
  ApplyCommand e app = (mkResult false 0, app).
Proof.
  intros Hs Hcase.
  pose proof (has_Some _ _ _ Hs) as Hhas.
  pose proof (stack_Some _ _ _ Hs) as Hstack.
  unfold ApplyCommand.
  destruct Hcase as [[Hm Hlen]|[Hm ->]];
    repeat (apply elem_of_cons in Hm as [->|Hm]);
    try (by apply elem_of_nil in Hm); simpl;
    unfold pop, add, sub, mul, div, inc, dec, get_, valOk, len; run;
    rewrite Hhas, Hstack; simpl.
  1-4: destruct (Z.ltb_spec (Z.of_nat (length s)) 2); [done|lia].
  all: done.
Qed.

Lemma stack_underflow_rejected_witness :
  let app := snd (applyAll [cmd "create" 0 0; cmd "push" 1 4] NewCalculator) in
  Calculator_ app !! InstanceId (cmd "mul" 1 0) = Some [4]
  /\ ApplyCommand (cmd "mul" 1 0) app = (mkResult false 0, app).
Proof.
  intros app.
  assert (H : Calculator_ app !! InstanceId (cmd "mul" 1 0) = Some [4])
    by (vm_compute; reflexivity).
  split; [exact H|].
  apply (stack_underflow_rejected app (cmd "mul" 1 0) [4] H).
  left. split; [|simpl; lia]. simpl. set_solver.
Defined.

Lemma binary_present app instanceId s x y :
  Calculator_ app !! instanceId = Some (s ++ [y; x]) ->
  has app instanceId = true
  /\ (len app instanceId <? 2) = false
  /\ pop instanceId app = ((x, true), with_stack instanceId (s ++ [y]) app)
  /\ pop instanceId (with_stack instanceId (s ++ [y]) app)
     = ((y, true), with_stack instanceId s app).
Proof.
  intros H. split; [by apply (has_Some _ _ _ H)|].
  split.
  { unfold len. rewrite (stack_Some _ _ _ H), length_app. simpl.
    destruct (Z.ltb_spec (Z.of_nat (length s + 2)) 2); [lia|done]. }
  change (s ++ [y; x]) with (s ++ [y] ++ [x]) in H. rewrite app_assoc in H.
  split; [by apply pop_present|].
  rewrite (pop_present _ _ s y (with_stack_lookup _ _ _)).
  by rewrite with_stack_twice.
Qed.

(** X4: with [x] on top of [y], [add], [sub], [mul] and [div] (for a
    non-zero [y]) replace the two by [x+y], [x-y], [x*y] and the quotient
    of [x] by [y] truncated toward zero, each wrapped to 64 bits, and return
    that value; the rest of the stack is kept. *)
Theorem binary_operations (app : Calculator) (instanceId x y : Z) (s : list Z) :
  Calculator_ app !! instanceId = Some (s ++ [y; x]) ->
  ApplyCommand (cmd "add" instanceId 0) app
    = (mkResult true (GoInt.wrap (x + y)),
       with_stack instanceId (s ++ [GoInt.wrap (x + y)]) app)
  /\ ApplyCommand (cmd "sub" instanceId 0) app
    = (mkResult true (GoInt.wrap (x - y)),
       with_stack instanceId (s ++ [GoInt.wrap (x - y)]) app)
  /\ ApplyCommand (cmd "mul" instanceId 0) app
    = (mkResult true (GoInt.wrap (x * y)),
       with_stack instanceId (s ++ [GoInt.wrap (x * y)]) app)
  /\ (y <> 0 ->
      ApplyCommand (cmd "div" instanceId 0) app
      = (mkResult true (GoInt.wrap (Z.quot x y)),
         with_stack instanceId (s ++ [GoInt.wrap (Z.quot x y)]) app)).
Proof.
  intros H. destruct (binary_present _ _ _ _ _ H) as (Hhas & Hlen & Hp1 & Hp2).
  repeat split; [| | |intros Hy];
    unfold ApplyCommand, valOk, add, sub, mul, div; run;
    rewrite Hhas, Hlen; simpl; rewrite Hp1, Hp2;
    try (destruct (Z.eqb_spec y 0) as [|_]; [done|]);
    rewrite (push_present _ _ s _ (with_stack_lookup _ _ _));
    by rewrite with_stack_twice.
Qed.

Lemma binary_operations_witness :
  let app := snd (applyAll [cmd "create" 0 0; cmd "push" 1 (-3); cmd "push" 1 7]
                    NewCalculator) in
  Calculator_ app !! 1 = Some ([] ++ [-3; 7])
  /\ fst (ApplyCommand (cmd "sub" 1 0) app) = mkResult true 10
  /\ fst (ApplyCommand (cmd "div" 1 0) app) = mkResult true (-2).
Proof.
  intros app.
  assert (H : Calculator_ app !! 1 = Some ([] ++ [-3; 7])) by (vm_compute; reflexivity).
  split; [exact H|].
  destruct (binary_operations app 1 7 (-3) [] H) as (_ & Hsub & _ & Hdiv).
  split; [by rewrite Hsub|]. rewrite Hdiv; [reflexivity|discriminate].
Defined.

Lemma wrap_sub_add_one x : GoInt.in_range x -> GoInt.sub (GoInt.add x 1) 1 = x.
Proof.
  intros Hx. unfold GoInt.sub, GoInt.add, GoInt.wrap.
  replace ((x + 1 + 2 ^ 63) mod 2 ^ 64 - 2 ^ 63 - 1 + 2 ^ 63)
    with ((x + 1 + 2 ^ 63) mod 2 ^ 64 - 1) by lia.
  rewrite Zminus_mod_idemp_l.
  replace (x + 1 + 2 ^ 63 - 1) with (x + 2 ^ 63) by lia.
  rewrite Z.mod_small
    by (unfold GoInt.in_range, GoInt.MinInt, GoInt.MaxInt in Hx; lia).
  lia.
Qed.

(** X5: [inc] followed by [dec] gives back the calculator it started
    from, for every 64-bit top element, the largest one included: [inc]
    returns [x+1] wrapped, [dec] returns [x]. *)
Theorem inc_dec_roundtrip (app : Calculator) (instanceId x : Z) (s : list Z) :
  Calculator_ app !! instanceId = Some (s ++ [x]) ->
  GoInt.in_range x ->
  let '(r1, app1) := ApplyCommand (cmd "inc" instanceId 0) app in
  r1 = mkResult true (GoInt.wrap (x + 1))
  /\ ApplyCommand (cmd "dec" instanceId 0) app1 = (mkResult true x, app).
Proof.
  intros H Hx.
  assert (Hlen : forall a t v, Calculator_ a !! instanceId = Some (t ++ [v]) ->
                               (len a instanceId =? 0) = false).
  { intros a t v Ha. unfold len. rewrite (stack_Some _ _ _ Ha).
    rewrite length_app. simpl.
    destruct (Z.eqb_spec (Z.of_nat (length t + 1)) 0); [lia|done]. }
  assert (E : ApplyCommand (cmd "inc" instanceId 0) app
              = (mkResult true (GoInt.wrap (x + 1)),
                 with_stack instanceId (s ++ [GoInt.wrap (x + 1)]) app)).
  { unfold ApplyCommand, valOk, inc. run.
    rewrite (has_Some _ _ _ H), (Hlen _ _ _ H). simpl.
    rewrite (pop_present _ _ _ _ H).
    rewrite (push_present _ _ s _ (with_stack_lookup _ _ _)).
    by rewrite with_stack_twice. }
  rewrite E. split; [done|].
  unfold ApplyCommand, valOk, dec. run.
  rewrite (has_Some _ _ _ (with_stack_lookup _ _ _)).
  rewrite (Hlen _ _ _ (with_stack_lookup _ _ _)). simpl.
  rewrite (pop_present _ _ _ _ (with_stack_lookup _ _ _)).
  rewrite with_stack_twice.
  rewrite (push_present _ _ s _ (with_stack_lookup _ _ _)).
  rewrite with_stack_twice.
  change (GoInt.sub (GoInt.wrap (x + 1)) 1) with (GoInt.sub (GoInt.add x 1) 1).
  by rewrite (wrap_sub_add_one x Hx), (with_stack_same _ _ _ H).
Qed.

Lemma inc_dec_roundtrip_witness :
  let app := snd (applyAll [cmd "create" 0 0; cmd "push" 1 GoInt.MaxInt]
                    NewCalculator) in
  Calculator_ app !! 1 = Some ([] ++ [GoInt.MaxInt])
  /\ GoInt.in_range GoInt.MaxInt
  /\ fst (ApplyCommand (cmd "inc" 1 0) app) = mkResult true GoInt.MinInt
  /\ ApplyCommand (cmd "dec" 1 0) (snd (ApplyCommand (cmd "inc" 1 0) app))
     = (mkResult true GoInt.MaxInt, app).
Proof.
  intros app.
  assert (H : Calculator_ app !! 1 = Some ([] ++ [GoInt.MaxInt]))
    by (vm_compute; reflexivity).
  assert (Hr : GoInt.in_range GoInt.MaxInt) by (vm_compute; split; discriminate).
  split; [exact H|]. split; [exact Hr|].
  pose proof (inc_dec_roundtrip app 1 GoInt.MaxInt [] H Hr) as Hthm.
  destruct (ApplyCommand (cmd "inc" 1 0) app) as [r1 app1].
  destruct Hthm as [-> Hdec]. split; [vm_compute; reflexivity|exact Hdec].
Defined.

(** *** What a command can reach *)

Lemma touches_refl instanceId app : touches_only instanceId app app.
Proof. by repeat split. Qed.

Lemma touches_trans instanceId a b c :
  touches_only instanceId a b -> touches_only instanceId b c ->
  touches_only instanceId a c.
Proof.
  intros (L1 & O1 & S1) (L2 & O2 & S2). split; [congruence|]. split.
  - intros j Hj. rewrite (O2 j Hj). by apply O1.
  - auto.
Qed.

Lemma bind_touches {A B} instanceId (m : M Calculator A) (k : A -> M Calculator B) app :
  touches_only instanceId app (snd (m app)) ->
  (forall a app', touches_only instanceId app' (snd (k a app'))) ->
  touches_only instanceId app (snd (bind m k app)).
Proof.
  intros Hm Hk. unfold bind. destruct (m app) as [a app1]. simpl in Hm.
  exact (touches_trans _ _ _ _ Hm (Hk a app1)).
Qed.

Lemma set_stack_touches instanceId s app :
  has app instanceId = true ->
  touches_only instanceId app (snd (set_stack instanceId s app)).
Proof.
  intros Hhas. apply bool_decide_eq_true in Hhas.
  unfold set_stack, modify. simpl. split; [done|]. split; [|done].
  intros j Hj. simpl. by rewrite lookup_insert_ne.
Qed.

Lemma push_touches instanceId operand app :
  touches_only instanceId app (snd (push instanceId operand app)).
Proof.
  unfold push. run. destruct (has app instanceId) eqn:Hhas; simpl.
  - by apply (set_stack_touches instanceId _ app).
  - apply touches_refl.
Qed.

Lemma pop_touches instanceId app :
  touches_only instanceId app (snd (pop instanceId app)).
Proof.
  unfold pop. run. destruct (has app instanceId) eqn:Hhas; simpl.
  - destruct (len app instanceId =? 0); simpl; [apply touches_refl|].
    by apply (set_stack_touches instanceId _ app).
  - apply touches_refl.
Qed.

Lemma delete_touches instanceId app :
  touches_only instanceId app (snd (deleteCalculator instanceId app)).
Proof.
  unfold deleteCalculator. run. destruct (has app instanceId) eqn:Hhas; simpl.
  - split; [done|]. split.
    + intros j Hj. simpl. by rewrite lookup_delete_ne.
    + simpl. rewrite lookup_delete_eq. by intros [? ?].
  - apply touches_refl.
Qed.

Ltac touch :=
  repeat first
    [ apply touches_refl
    | apply push_touches
    | apply pop_touches
    | apply delete_touches
    | progress (intros; cbv beta)
    | match goal with
      | |- touches_only _ _ (snd (let (_, _) := ?p in _)) => destruct p
      | |- touches_only _ _ (snd ((let (_, _) := ?p in _) _)) => destruct p
      | |- touches_only _ _ (snd ((if ?b then _ else _) _)) => destruct b
      | |- touches_only _ ?app (snd (get ?app)) => apply touches_refl
      | |- touches_only _ ?app (snd (ret _ ?app)) => apply touches_refl
      | |- touches_only _ _ (snd (bind _ _ _)) => apply bind_touches
      end ].

(** X6: a command other than [create] changes at most the stack of the
    instance it names: every other instance, and the id counter, are as
    before, and the command never brings its instance into existence. *)
Theorem command_touches_only_its_instance (app : Calculator) (e : Entry) :
  Method e <> "create" ->
  touches_only (InstanceId e) app (snd (ApplyCommand e app)).
Proof.
  intros Hm. unfold ApplyCommand.
  destruct (String.eqb_spec (Method e) "create") as [|_]; [done|].
  repeat match goal with
  | |- context [if String.eqb ?a ?b then _ else _] => destruct (String.eqb a b)
  end;
  unfold add, sub, mul, div, inc, dec, get_, valOk, mbind, mret, M_bind, M_ret;
  touch.
Qed.

Lemma command_touches_only_its_instance_witness :
  Method (cmd "add" 1 0) <> "create"
  /\ touches_only 1 after_push_0_10 (snd (ApplyCommand (cmd "add" 1 0) after_push_0_10)).
Proof.
  assert (H : Method (cmd "add" 1 0) <> "create") by discriminate.
  split; [exact H|].
  exact (command_touches_only_its_instance after_push_0_10 (cmd "add" 1 0) H).
Defined.

(** *** Instance ids stay below the counter *)

Lemma in_range_succ l :
  0 <= l -> l < GoInt.MaxInt -> GoInt.add l 1 = l + 1.
Proof.
  intros H0 H1. apply GoIntFacts.add_in_range.
  unfold GoInt.in_range, GoInt.MinInt, GoInt.MaxInt in *. lia.
Qed.

Lemma create_bounded e app :
  is_create e = true -> ids_bounded app -> LastInstanceId app < GoInt.MaxInt ->
  ids_bounded (snd (ApplyCommand e app))
  /\ LastInstanceId (snd (ApplyCommand e app)) = LastInstanceId app + 1.
Proof.
  intros He [H0 Hb] Hmax. rewrite (create_spec _ _ He). simpl.
  rewrite (in_range_succ _ H0 Hmax). split; [|done].
  split; simpl; [lia|]. intros j Hj.
  destruct (decide (j = LastInstanceId app + 1)) as [->|Hne]; [lia|].
  rewrite lookup_insert_ne in Hj by done. specialize (Hb j Hj). lia.
Qed.

Lemma other_bounded e app :
  is_create e = false -> ids_bounded app ->
  ids_bounded (snd (ApplyCommand e app))
  /\ LastInstanceId (snd (ApplyCommand e app)) = LastInstanceId app.
Proof.
  intros He [H0 Hb].
  assert (Hm : Method e <> "create").
  { intros Hm. unfold is_create in He. by rewrite Hm in He. }
  destruct (command_touches_only_its_instance app e Hm) as (HL & Hother & Hsame).
  split; [|done]. split; [lia|]. intros j Hj. rewrite HL.
  destruct (decide (j = InstanceId e)) as [->|Hne]; [by apply Hb, Hsame|].
  rewrite (Hother j Hne) in Hj. by apply Hb.
Qed.

Lemma applyAll_snd_cons e cmds app :
  snd (applyAll (e :: cmds) app) = snd (applyAll cmds (snd (ApplyCommand e app))).
Proof. by rewrite applyAll_cons. Qed.

Lemma applyAll_bounded cmds : forall app,
  ids_bounded app ->
  LastInstanceId app + Z.of_nat (length cmds) <= GoInt.MaxInt ->
  ids_bounded (snd (applyAll cmds app))
  /\ LastInstanceId app <= LastInstanceId (snd (applyAll cmds app))
     <= LastInstanceId app + Z.of_nat (length cmds).
Proof.
  induction cmds as [|e cmds IH]; intros app Hb Hmax.
  - simpl. split; [done|lia].
  - rewrite applyAll_snd_cons. simpl length in *.
    destruct (is_create e) eqn:He.
    + destruct (create_bounded e app He Hb) as [Hb' HL]; [lia|].
      destruct (IH _ Hb') as [Hb'' HL']; [lia|]. split; [done|lia].
    + destruct (other_bounded e app He Hb) as [Hb' HL].
      destruct (IH _ Hb') as [Hb'' HL']; [lia|]. split; [done|lia].
Qed.

Lemma NewCalculator_bounded : ids_bounded NewCalculator.
Proof.
  split; [done|]. intros j [x Hx]. simpl in Hx.
  by rewrite (lookup_empty (M:=gmap Z)) in Hx.
Qed.

(** X7: whatever commands a fresh calculator has run (fewer than 2^63-1),
    [create] then answers with an id that names no existing instance,
    gives it an empty stack, and leaves every other instance alone. *)
Theorem create_never_clobbers (cmds : list Entry) :
  Z.of_nat (length cmds) < GoInt.MaxInt ->
  let app := snd (applyAll cmds NewCalculator) in
  let '(r, app') := ApplyCommand (cmd "create" 0 0) app in
  Result_ r = true
  /\ Calculator_ app !! Value r = None
  /\ Calculator_ app' !! Value r = Some []
  /\ forall j, j <> Value r -> Calculator_ app' !! j = Calculator_ app !! j.
Proof.
  intros Hlen app.
  destruct (applyAll_bounded cmds NewCalculator NewCalculator_bounded)
    as [[H0 Hb] HL]; [simpl; lia|]. fold app in H0, Hb, HL. simpl in HL.
  rewrite (create_spec (cmd "create" 0 0) app eq_refl).
  rewrite (in_range_succ _ H0) by lia. simpl.
  split; [done|]. split.
  - destruct (Calculator_ app !! (LastInstanceId app + 1)) as [x|] eqn:E; [|done].
    assert (Hs : is_Some (Calculator_ app !! (LastInstanceId app + 1))) by eauto.
    specialize (Hb _ Hs). lia.
  - split; [apply lookup_insert_eq|]. intros j Hj. by rewrite lookup_insert_ne.
Qed.

Lemma create_never_clobbers_witness :
  let cmds := [cmd "create" 0 0; cmd "push" 1 4; cmd "create" 0 0; cmd "delete" 2 0] in
  Z.of_nat (length cmds) < GoInt.MaxInt
  /\ let app := snd (applyAll cmds NewCalculator) in
     let '(r, app') := ApplyCommand (cmd "create" 0 0) app in
     Result_ r = true /\ Calculator_ app !! Value r = None.
Proof.
  intros cmds.
  assert (H : Z.of_nat (length cmds) < GoInt.MaxInt) by (vm_compute; reflexivity).
  split; [exact H|].
  pose proof (create_never_clobbers cmds H) as Hthm. simpl in Hthm |- *.
  destruct (ApplyCommand (cmd "create" 0 0) (snd (applyAll cmds NewCalculator)))
    as [r app'].
  destruct Hthm as (Hr & Hnone & _). split; [exact Hr|exact Hnone].
Defined.

Lemma absent_stays_absent cmds : forall app instanceId,
  ids_bounded app ->
  LastInstanceId app + Z.of_nat (length cmds) <= GoInt.MaxInt ->
  instanceId <= LastInstanceId app ->
  Calculator_ app !! instanceId = None ->
  Calculator_ (snd (applyAll cmds app)) !! instanceId = None.
Proof.
  induction cmds as [|e cmds IH]; intros app instanceId Hb Hmax Hle Hnone; [done|].
  rewrite applyAll_snd_cons. simpl length in Hmax.
  destruct (is_create e) eqn:He.
  - destruct (create_bounded e app He Hb) as [Hb' HL]; [lia|].
    apply IH; [done|lia|lia|].
    rewrite (create_spec _ _ He). simpl.
    rewrite (in_range_succ _ (proj1 Hb)) by lia.
    by rewrite lookup_insert_ne by lia.
  - destruct (other_bounded e app He Hb) as [Hb' HL].
    apply IH; [done|lia|lia|].
    assert (Hm : Method e <> "create").
    { intros Hm. unfold is_create in He. by rewrite Hm in He. }
    destruct (command_touches_only_its_instance app e Hm) as (_ & Hother & Hsame).
    destruct (decide (instanceId = InstanceId e)) as [->|Hne].
    + destruct (Calculator_ (snd (ApplyCommand e app)) !! InstanceId e) eqn:E; [|done].
      destruct Hsame as [x Hx]; [eauto|]. congruence.
    + by rewrite (Hother _ Hne).
Qed.

(** X8: an instance that has been deleted never comes back: after a
    successful [delete] on a calculator grown from a fresh one, no later
    sequence of commands (within the 64-bit range of the id counter) makes
    that id name an instance again. *)
Theorem deleted_stays_deleted (before after : list Entry) (instanceId : Z) :
  Z.of_nat (length before) + Z.of_nat (length after) <= GoInt.MaxInt ->
  let app := snd (applyAll before NewCalculator) in
  let '(r, deleted) := ApplyCommand (cmd "delete" instanceId 0) app in
  Result_ r = true ->
  Calculator_ (snd (applyAll after deleted)) !! instanceId = None.
Proof.
  intros Hlen app.
  destruct (applyAll_bounded before NewCalculator NewCalculator_bounded)
    as [Hb HL]; [simpl; lia|]. fold app in Hb, HL. simpl in HL.
  destruct (ApplyCommand (cmd "delete" instanceId 0) app) as [r deleted] eqn:E.
  intros Hr.
  assert (Hdel : has app instanceId = true
                 /\ deleted = {| Calculator_ := delete instanceId (Calculator_ app);
                                 LastInstanceId := LastInstanceId app |}).
  { revert E. unfold ApplyCommand, deleteCalculator. run.
    destruct (has app instanceId); simpl; intros [= <- <-]; [done|].
    simpl in Hr. discriminate. }
  destruct Hdel as [Hhas ->]. apply bool_decide_eq_true in Hhas.
  destruct Hb as [H0 Hb]. pose proof (Hb _ Hhas) as Hrange.
  apply absent_stays_absent.
  - split; simpl; [exact H0|]. intros j Hj. apply Hb.
    destruct (decide (j = instanceId)) as [->|Hne].
    + rewrite lookup_delete_eq in Hj. by destruct Hj.
    + by rewrite lookup_delete_ne in Hj.
  - simpl. lia.
  - simpl. lia.
  - simpl. apply lookup_delete_eq.
Qed.

Lemma deleted_stays_deleted_witness :
  Z.of_nat (length [cmd "create" 0 0])
    + Z.of_nat (length [cmd "create" 0 0; cmd "push" 1 3]) <= GoInt.MaxInt
  /\ Result_ (fst (ApplyCommand (cmd "delete" 1 0)
                     (snd (applyAll [cmd "create" 0 0] NewCalculator)))) = true
  /\ Calculator_
       (snd (applyAll [cmd "create" 0 0; cmd "push" 1 3]
               (snd (ApplyCommand (cmd "delete" 1 0)
                       (snd (applyAll [cmd "create" 0 0] NewCalculator)))))) !! 1
     = None.
Proof.
  assert (H1 : Z.of_nat (length [cmd "create" 0 0])
               + Z.of_nat (length [cmd "create" 0 0; cmd "push" 1 3]) <= GoInt.MaxInt)
    by (vm_compute; discriminate).
  pose proof (deleted_stays_deleted [cmd "create" 0 0]
                [cmd "create" 0 0; cmd "push" 1 3] 1 H1) as Hthm.
  cbv zeta in Hthm.
  destruct (ApplyCommand (cmd "delete" 1 0)
              (snd (applyAll [cmd "create" 0 0] NewCalculator)))
    as [r deleted] eqn:E.
  assert (H2 : Result_ r = true).
  { revert E. vm_compute. by intros [= <- _]. }
  split; [exact H1|]. split; [exact H2|]. exact (Hthm H2).
Defined.

End calculator_props.

(** ** More on the consensus module *)

Module raft_props.
Import GoM raft GoSlice raft_spec.

Ltac run :=
  unfold mbind, mret, R_bind, R_ret, bind, ret, get, modify, emit, must, when;
  simpl.

Section Peers.
Context {Command AppResult : Type}.
Implicit Types cm : CM.t Command.

Local Abbreviation M := (R (CM.t Command) (Effect AppResult)).

Lemma elem_of_rangePeerIds cm p :
  p ∈ rangePeerIds cm <-> exists k, CM.peerIds cm !! k = Some p.
Proof.
  unfold rangePeerIds. rewrite list_elem_of_fmap. split.
  - intros ([k v] & -> & Hin). exists k. by apply elem_of_map_to_list in Hin.
  - intros (k & Hk). exists (k, p). split; [done|]. by apply elem_of_map_to_list.
Qed.

(** X9: a consensus module built for a cluster of [num] servers lists
    exactly the ids [0 .. num-1] as its peers, each under its own key: the
    node itself is one of its peers whenever its id is one of them. *)
Theorem NewConsensusModule_peers (serverId num : Z) :
  0 <= num ->
  let cm := NewConsensusModule (Command:=Command) serverId num in
  mapLen (CM.peerIds cm) = num
  /\ (forall k, 0 <= k < num -> CM.peerIds cm !! k = Some k)
  /\ (forall k p, CM.peerIds cm !! k = Some p -> p = k /\ 0 <= k < num)
  /\ (0 <= serverId < num -> CM.id cm ∈ rangePeerIds cm).
Proof.
  intros Hnum cm.
  assert (Hnd : NoDup ((fun i : Z => (i, i)) <$> seqZ 0 num).*1).
  { assert (E : forall l : list Z, ((fun i : Z => (i, i)) <$> l).*1 = l).
    { induction l as [|x l IH]; [done|]. simpl. f_equal. exact IH. }
    rewrite E. apply NoDup_seqZ. }
  assert (Hlook : forall k p, CM.peerIds cm !! k = Some p <-> p = k /\ 0 <= k < num).
  { intros k p. unfold cm, NewConsensusModule. simpl.
    rewrite <- (elem_of_list_to_map _ _ _ Hnd), list_elem_of_fmap. split.
    - intros (i & [= -> ->] & Hi). apply elem_of_seqZ in Hi. lia.
    - intros [-> Hk]. exists k. split; [done|]. apply elem_of_seqZ. lia. }
  split; [|split; [|split]].
  - unfold mapLen, cm, NewConsensusModule. simpl.
    rewrite (map_size_list_to_map _ Hnd), length_fmap, length_seqZ. lia.
  - intros k Hk. by apply Hlook.
  - intros k p Hp. by apply Hlook.
  - intros Hid. apply elem_of_rangePeerIds. exists serverId. by apply Hlook.
Qed.

(** *** [startLeader] *)

Lemma startLeader_fold l : forall cm p,
  let cm' := foldl (fun s q => startLeader_step q s) cm l in
  (p ∈ l -> CM.nextIndex cm' !! p = Some (len (CM.log cm))
            /\ CM.matchIndex cm' !! p = Some (-1))
  /\ (p ∉ l -> CM.nextIndex cm' !! p = CM.nextIndex cm !! p
               /\ CM.matchIndex cm' !! p = CM.matchIndex cm !! p).
Proof.
  induction l as [|q l IH]; intros cm p; simpl.
  - split; [intros H; by apply elem_of_nil in H|done].
  - destruct (IH (startLeader_step q cm) p) as [Hin Hout]. simpl in Hin, Hout.
    destruct (decide (p ∈ l)) as [Hl|Hl].
    + split; [intros _; by apply Hin|]. intros Hn. exfalso. apply Hn. by right.
    + destruct (Hout Hl) as [Hn Hm]. rewrite Hn, Hm.
      destruct (decide (p = q)) as [->|Hne].
      * rewrite !lookup_insert_eq. split; [done|].
        intros Hn'. exfalso. apply Hn'. by left.
      * rewrite !lookup_insert_ne by done. split; [|done].
        intros Hp. apply elem_of_cons in Hp as [?|?]; done.
Qed.

(** X10: [startLeader] makes the node Leader and, for every peer id in
    [peerIds] (its own included), sets [nextIndex] to the length of the
    log and [matchIndex] to -1; entries of the two tables under other keys,
    the term, the vote, the log and the commit index are kept, and the
    heartbeat loop is started with 50 ms. *)
Theorem startLeader_initialises_peers cm :
  exists cm',
    startLeader (AppResult:=AppResult) cm = Done tt cm' [GoRunAEsTimer 50]
    /\ CM.state cm' = Leader
    /\ CM.log cm' = CM.log cm /\ CM.currentTerm cm' = CM.currentTerm cm
    /\ CM.commitIndex cm' = CM.commitIndex cm /\ CM.peerIds cm' = CM.peerIds cm
    /\ forall p,
         (p ∈ rangePeerIds cm ->
            mapGet (CM.nextIndex cm') p = len (CM.log cm)
            /\ mapGet (CM.matchIndex cm') p = -1)
         /\ (p ∉ rangePeerIds cm ->
            CM.nextIndex cm' !! p = CM.nextIndex cm !! p
            /\ CM.matchIndex cm' !! p = CM.matchIndex cm !! p).
Proof.
  exists (foldl (fun s q => startLeader_step q s) (CM.with_state Leader cm)
            (rangePeerIds cm)).
  split.
  { unfold startLeader. run.
    by rewrite (forEach_modify _ startLeader_step) by done. }
  destruct (startLeader_fold_fields (rangePeerIds cm) (CM.with_state Leader cm))
    as (Hs & Hp & Hl & Ht & Hc).
  split; [exact Hs|]. split; [exact Hl|]. split; [exact Ht|].
  split; [exact Hc|]. split; [exact Hp|].
  intros p.
  destruct (startLeader_fold (rangePeerIds cm) (CM.with_state Leader cm) p)
    as [Hin Hout].
  split.
  - intros Hp'. destruct (Hin Hp') as [Hn Hm]. unfold mapGet. by rewrite Hn, Hm.
  - intros Hp'. by apply Hout.
Qed.

(** *** [startElection] *)

Lemma forEach_cons_done p l (body : Z -> M unit) cm cm1 cm2 es1 es2 :
  body p cm = Done tt cm1 es1 ->
  forEach l body cm1 = Done tt cm2 es2 ->
  forEach (p :: l) body cm = Done tt cm2 (es1 ++ es2).
Proof.
  intros H1 H2. simpl. unfold mbind, R_bind, bind. by rewrite H1, H2.
Qed.

Lemma forEach_emit (l : list Z) (f : Z -> Effect AppResult) cm :
  forEach (Command:=Command) l (fun p => emit (f p)) cm = Done tt cm (f <$> l).
Proof.
  induction l as [|p l IH]; [done|].
  by rewrite (forEach_cons_done _ _ _ _ cm cm [f p] (f <$> l) eq_refl IH).
Qed.

Lemma startElection_returns now cm :
  exists cm',
    startElection (AppResult:=AppResult) now cm
      = Done (GoInt.add (CM.currentTerm cm) 1, 1) cm'
          ((GoRequestVote <$> rangePeerIds cm) ++ [GoRunElectionTimer])
    /\ CM.state cm' = Candidate
    /\ CM.currentTerm cm' = GoInt.add (CM.currentTerm cm) 1
    /\ CM.votedFor cm' = CM.id cm
    /\ CM.electionResetEvent cm' = now
    /\ CM.log cm' = CM.log cm /\ CM.commitIndex cm' = CM.commitIndex cm.
Proof.
  unfold startElection.
  unfold mbind, mret, R_bind, R_ret, bind, ret, get, modify. simpl.
  rewrite forEach_emit. run.
  eexists. split; [by rewrite ?app_nil_r|]. done.
Qed.

(** X11: [startElection] makes the node Candidate in the next term
    (64-bit successor), with its vote for itself, one vote counted and the
    election deadline reset; it launches a RequestVote call for every peer
    id in [peerIds], the node's own id included when it is there, then a
    new election timer. Log and commit index are kept. *)
Theorem startElection_becomes_candidate now cm :
  exists cm' es,
    startElection (AppResult:=AppResult) now cm
      = Done (GoInt.add (CM.currentTerm cm) 1, 1) cm' (es ++ [GoRunElectionTimer])
    /\ CM.state cm' = Candidate
    /\ CM.currentTerm cm' = GoInt.add (CM.currentTerm cm) 1
    /\ CM.votedFor cm' = CM.id cm
    /\ CM.electionResetEvent cm' = now
    /\ CM.log cm' = CM.log cm /\ CM.commitIndex cm' = CM.commitIndex cm
    /\ length es = size (CM.peerIds cm)
    /\ (forall p, GoRequestVote p ∈ es <-> exists k, CM.peerIds cm !! k = Some p).
Proof.
  destruct (startElection_returns now cm) as (cm' & Hrun & H).
  exists cm', (GoRequestVote <$> rangePeerIds cm). split; [exact Hrun|].
  destruct H as (H1 & H2 & H3 & H4 & H5 & H6).
  do 6 (split; [assumption|]). split.
  - unfold rangePeerIds. by rewrite !length_fmap, length_map_to_list.
  - intros p. rewrite <- elem_of_rangePeerIds, list_elem_of_fmap. split.
    + by intros (q & [= ->] & Hq).
    + intros Hp. by exists p.
Qed.

(** *** [leaderSendAEs] *)

Lemma forEach_emit_unless (l : list Z) (self : Z) cm :
  forEach (Command:=Command) (AppResult:=AppResult) l
    (fun peerId => when (negb (bool_decide (self = peerId)))
                     (emit (GoAppendEntries peerId))) cm
  = Done tt cm (GoAppendEntries <$> filter (fun p => self <> p) l).
Proof.
  set (body := fun peerId : Z =>
                 when (S:=CM.t Command) (E:=Effect AppResult)
                   (negb (bool_decide (self = peerId)))
                   (emit (GoAppendEntries peerId))).
  induction l as [|p l IH]; [done|].
  assert (Hb : body p cm
               = Done tt cm (if decide (self = p) then [] else [GoAppendEntries p])).
  { unfold body. case_bool_decide as E; simpl.
    - by rewrite decide_True by done.
    - by rewrite decide_False by done. }
  rewrite (forEach_cons_done p l body cm cm cm _ _ Hb IH).
  rewrite filter_cons. destruct (decide (self = p)) as [E|E].
  - by rewrite decide_False by tauto.
  - by rewrite decide_True by done.
Qed.

(** X12: [leaderSendAEs] does nothing on a node that is not the leader;
    on the leader it saves the current term and launches one AppendEntries
    call for each peer id other than the node's own, and none to itself.
    The state is not changed. *)
Theorem leaderSendAEs_skips_self cm :
  (CM.state cm <> Leader ->
     leaderSendAEs (AppResult:=AppResult) cm = Done None cm [])
  /\ (CM.state cm = Leader ->
        leaderSendAEs (AppResult:=AppResult) cm
          = Done (Some (CM.currentTerm cm)) cm
              (GoAppendEntries <$> filter (fun p => CM.id cm <> p) (rangePeerIds cm))
        /\ GoAppendEntries (CM.id cm)
             ∉ (GoAppendEntries (AppResult:=AppResult)
                  <$> filter (fun p => CM.id cm <> p) (rangePeerIds cm))).
Proof.
  split; intros Hst; unfold leaderSendAEs;
    unfold mbind, mret, R_bind, R_ret, bind, ret, get, modify; simpl.
  - by rewrite (bool_decide_eq_true_2 _ Hst).
  - rewrite bool_decide_eq_false_2 by (rewrite Hst; tauto).
    rewrite forEach_emit_unless.
    simpl. split; [by rewrite ?app_nil_r|].
    intros Hin. apply list_elem_of_fmap in Hin as (p & [= <-] & Hp).
    apply list_elem_of_filter in Hp as [Hne _]. done.
Qed.

End Peers.

Section Replies.
Context {Command AppResult : Type}.
Implicit Types cm : CM.t Command.

Local Abbreviation M := (R (CM.t Command) (Effect AppResult)).

(** X13: the handler of a RequestVote reply always returns; it leaves a
    node that is no longer Candidate exactly as it is, and it can turn a
    node into the Leader only when that node is a Candidate and the reply
    is a vote granted in the saved election term. *)
Theorem vote_reply_makes_leader_only_on_grant now savedCurrentTerm reply
    votesReceived cm :
  exists votes' cm' es,
    startElection_reply (AppResult:=AppResult) now savedCurrentTerm reply
      votesReceived cm = Done votes' cm' es
    /\ (CM.state cm <> Candidate -> cm' = cm /\ votes' = votesReceived /\ es = [])
    /\ (CM.state cm' = Leader ->
        CM.state cm = Leader
        \/ (CM.state cm = Candidate
            /\ RequestVoteReply.Term reply = savedCurrentTerm
            /\ RequestVoteReply.VoteGranted reply = true))
    /\ (votes' <> votesReceived ->
        RequestVoteReply.Term reply = savedCurrentTerm
        /\ RequestVoteReply.VoteGranted reply = true
        /\ votes' = GoInt.add votesReceived 1).
Proof.
  unfold startElection_reply. run.
  case_bool_decide as Hc; simpl.
  { eexists _, _, _. split; [reflexivity|]. split; [done|].
    split; [tauto|]. done. }
  assert (Hcand : CM.state cm = Candidate) by (destruct (CM.state cm); tauto).
  case_bool_decide as Hhi; simpl.
  { eexists _, _, _. split; [reflexivity|]. split; [done|].
    split; [discriminate|]. done. }
  case_bool_decide as Heq; simpl.
  2:{ eexists _, _, _. split; [reflexivity|]. split; [done|].
      split; [|done]. rewrite Hcand. discriminate. }
  destruct (RequestVoteReply.VoteGranted reply) eqn:Hg; simpl.
  2:{ eexists _, _, _. split; [reflexivity|]. split; [done|].
      split; [|done]. rewrite Hcand. discriminate. }
  case_bool_decide as Hwin; simpl.
  - destruct (startLeader_returns (AppResult:=AppResult) cm) as (cm' & Hrun & _).
    rewrite Hrun. eexists _, _, _. split; [reflexivity|].
    split; [done|]. split; [intros _; right; done|]. done.
  - eexists _, _, _. split; [reflexivity|]. split; [done|].
    split; [intros _; right; done|]. done.
Qed.

(** X14: a reply to AppendEntries whose term is above the node's term
    makes the node a Follower of that term with its vote cleared and a new
    election timer, whatever its role was: the handler does not look at
    the role first, so this holds for a Dead node too. *)
Theorem append_reply_higher_term_steps_down now peerId savedCurrentTerm ni
    entries reply cm :
  AppendEntriesReply.Term reply > CM.currentTerm cm ->
  exists cm',
    leaderSendAEs_reply (AppResult:=AppResult) now peerId savedCurrentTerm ni
      entries reply cm = Done tt cm' [GoRunElectionTimer]
    /\ CM.state cm' = Follower
    /\ CM.currentTerm cm' = AppendEntriesReply.Term reply
    /\ CM.votedFor cm' = -1
    /\ CM.electionResetEvent cm' = now
    /\ CM.log cm' = CM.log cm /\ CM.commitIndex cm' = CM.commitIndex cm
    /\ CM.nextIndex cm' = CM.nextIndex cm /\ CM.matchIndex cm' = CM.matchIndex cm.
Proof.
  intros Hhi. unfold leaderSendAEs_reply. run.
  rewrite (bool_decide_eq_true_2 _ Hhi). simpl.
  eexists. split; [reflexivity|]. done.
Qed.

(** X15: a reply whose term is not above the node's is ignored unless
    the node is the Leader and the reply carries the saved term; an
    unsuccessful reply at the saved term lowers the peer's [nextIndex] to
    [ni - 1] (64-bit, with no lower bound) and changes nothing else. *)
Theorem append_reply_ignored_or_backs_off now peerId savedCurrentTerm ni
    entries reply cm :
  AppendEntriesReply.Term reply <= CM.currentTerm cm ->
  (CM.state cm <> Leader \/ savedCurrentTerm <> AppendEntriesReply.Term reply ->
     leaderSendAEs_reply (AppResult:=AppResult) now peerId savedCurrentTerm ni
       entries reply cm = Done tt cm [])
  /\ (CM.state cm = Leader ->
      savedCurrentTerm = AppendEntriesReply.Term reply ->
      AppendEntriesReply.Success reply = false ->
      leaderSendAEs_reply (AppResult:=AppResult) now peerId savedCurrentTerm ni
        entries reply cm
      = Done tt (CM.with_nextIndex (<[peerId := GoInt.sub ni 1]> (CM.nextIndex cm)) cm)
          []).
Proof.
  intros Hle. split.
  - intros Hcase. unfold leaderSendAEs_reply. run.
    rewrite bool_decide_eq_false_2 by lia.
    destruct Hcase as [H|H].
    + by rewrite (bool_decide_eq_false_2 _ H).
    + rewrite (bool_decide_eq_false_2 _ H). by rewrite andb_false_r.
  - intros Hst Hsaved Hfail. unfold leaderSendAEs_reply. run.
    rewrite bool_decide_eq_false_2 by lia.
    by rewrite (bool_decide_eq_true_2 _ Hst), (bool_decide_eq_true_2 _ Hsaved), Hfail.
Qed.

(** X16: on the leader, handling a successful reply at the saved term
    records [nextIndex = ni + len(entries)] and [matchIndex = nextIndex - 1]
    for the peer, never lowers the commit index, keeps it below the length
    of the log, moves it only onto an entry of the current term, and sends
    the two wake-ups exactly when it has moved. *)
Theorem append_reply_success_advances now peerId savedCurrentTerm ni entries
    reply cm :
  CM.state cm = Leader ->
  AppendEntriesReply.Term reply <= CM.currentTerm cm ->
  savedCurrentTerm = AppendEntriesReply.Term reply ->
  AppendEntriesReply.Success reply = true ->
  -1 <= CM.commitIndex cm < len (CM.log cm) ->
  len (CM.log cm) <= GoInt.MaxInt ->
  exists cm' es,
    leaderSendAEs_reply (AppResult:=AppResult) now peerId savedCurrentTerm ni
      entries reply cm = Done tt cm' es
    /\ mapGet (CM.nextIndex cm') peerId = GoInt.add ni (len entries)
    /\ mapGet (CM.matchIndex cm') peerId = GoInt.sub (GoInt.add ni (len entries)) 1
    /\ CM.commitIndex cm <= CM.commitIndex cm' < len (CM.log cm)
    /\ CM.log cm' = CM.log cm /\ CM.state cm' = Leader
    /\ CM.currentTerm cm' = CM.currentTerm cm
    /\ (CM.commitIndex cm' <> CM.commitIndex cm ->
        exists e, CM.log cm !! Z.to_nat (CM.commitIndex cm') = Some e
                  /\ LogEntry.Term e = CM.currentTerm cm)
    /\ es = (if bool_decide (CM.commitIndex cm' <> CM.commitIndex cm)
             then [SendNewCommitReady; SendTriggerAE] else []).
Proof.
  intros Hst Hle Hsaved Hsucc Hci Hlen.
  destruct (leaderSendAEs_reply_success (AppResult:=AppResult) now peerId
              savedCurrentTerm ni entries reply cm Hst Hle Hsaved Hsucc Hci Hlen)
    as (c' & Hrun & Hc').
  rewrite Hrun. eexists _, _. split; [reflexivity|]. simpl.
  unfold mapGet. rewrite !lookup_insert_eq. simpl.
  split; [done|]. split; [done|].
  destruct Hc' as [[-> _]|(Hrange & (e & He & Ht & _) & _)].
  - split; [lia|]. do 3 (split; [done|]). split; [done|]. done.
  - split; [lia|]. do 3 (split; [done|]). split; [|done].
    intros _. exists e. split; [|done].
    simpl in He. rewrite index_lookup in He by lia. exact He.
Qed.

(** X17: while the counts fit in 64 bits, an index passes the leader's
    commit test exactly when it holds an entry of the current term and
    twice the number of entries of [peerIds] whose [matchIndex] has reached
    it exceeds [N - 1], [N] being the number of entries of [peerIds]. *)
Theorem commit_test_counts_peers cm (i : Z) :
  2 * (mapLen (CM.peerIds cm) + 1) <= GoInt.MaxInt ->
  commits cm i <->
    (exists e, index (CM.log cm) i = Some e
               /\ LogEntry.Term e = CM.currentTerm cm)
    /\ 2 * Z.of_nat (length (matching cm i)) > mapLen (CM.peerIds cm) - 1.
Proof.
  intros Hfit. unfold commits.
  assert (HN : 0 <= mapLen (CM.peerIds cm)) by (unfold mapLen; lia).
  rewrite matchCount_counts by lia.
  assert (Hm : Z.of_nat (length (matching cm i)) <= mapLen (CM.peerIds cm)).
  { unfold matching, rangePeerIds, mapLen.
    etrans; [apply inj_le, length_filter|].
    rewrite length_fmap, length_map_to_list. lia. }
  rewrite GoIntFacts.mul_in_range, GoIntFacts.add_in_range
    by (unfold GoInt.in_range, GoInt.MinInt, GoInt.MaxInt in *; lia).
  split.
  - intros (e & He & Ht & Hc). split; [eauto|lia].
  - intros [(e & He & Ht) Hc]. exists e. split; [done|]. split; [done|lia].
Qed.

End Replies.

Section Handlers.
Context {Command AppResult : Type}.
Implicit Types cm : CM.t Command.
Implicit Types log entries : list (LogEntry.t Command).

Local Abbreviation M := (R (CM.t Command) (Effect AppResult)).

(** X18: a RequestVote or an AppendEntries that carries a term below the
    node's current term is refused, with the current term in the reply,
    and changes nothing: no vote, no new deadline, no log change, no
    effect. *)
Theorem stale_term_refused now (rvArgs : RequestVoteArgs.t)
    (aeArgs : AppendEntriesArgs.t Command) rvReply aeReply cm :
  CM.state cm <> Dead ->
  RequestVoteArgs.Term rvArgs < CM.currentTerm cm ->
  AppendEntriesArgs.Term aeArgs < CM.currentTerm cm ->
  RequestVote (AppResult:=AppResult) now rvArgs rvReply cm
    = Done (RequestVoteReply.mk (CM.currentTerm cm) false) cm []
  /\ AppendEntries (AppResult:=AppResult) now aeArgs aeReply cm
    = Done (AppendEntriesReply.mk (CM.currentTerm cm) false) cm [].
Proof.
  intros Hdead Hrv Hae. split; [|by apply AppendEntries_stale].
  unfold RequestVote. run.
  rewrite (bool_decide_eq_false_2 _ Hdead), lastLogIndexAndTerm_returns. simpl.
  rewrite (bool_decide_eq_false_2 (RequestVoteArgs.Term rvArgs > CM.currentTerm cm))
    by lia. simpl.
  rewrite (bool_decide_eq_false_2 (CM.currentTerm cm = RequestVoteArgs.Term rvArgs))
    by lia. done.
Qed.

(** X19: a vote, once granted, binds the voter for the term: after a
    grant to a candidate (whose id is not the -1 that stands for "none"),
    a request of the same term is granted only if it comes from that same
    candidate. *)
Theorem vote_binds_for_the_term now now' (first second : RequestVoteArgs.t)
    reply reply' cm r1 cm1 es1 r2 cm2 es2 :
  CM.state cm <> Dead ->
  RequestVoteArgs.CandidateId first <> -1 ->
  RequestVote (AppResult:=AppResult) now first reply cm = Done r1 cm1 es1 ->
  RequestVoteReply.VoteGranted r1 = true ->
  RequestVoteArgs.Term second = RequestVoteArgs.Term first ->
  RequestVote (AppResult:=AppResult) now' second reply' cm1 = Done r2 cm2 es2 ->
  RequestVoteReply.VoteGranted r2 = true ->
  RequestVoteArgs.CandidateId second = RequestVoteArgs.CandidateId first.
Proof.
  intros Hdead Hid Hrun1 Hg1 Hterm Hrun2 Hg2.
  destruct (RequestVote_returns (AppResult:=AppResult) now first reply cm Hdead)
    as (g1 & es & Hiff1 & E1).
  rewrite E1 in Hrun1. injection Hrun1 as <- <- <-. simpl in Hg1. subst g1.
  destruct (proj1 Hiff1 eq_refl) as (Ht1 & _ & _).
  set (cm0 := upgradeTerm now (RequestVoteArgs.Term first) cm) in *.
  set (cm1 := CM.with_electionResetEvent now
                (CM.with_votedFor (RequestVoteArgs.CandidateId first) cm0)) in *.
  assert (Hdead1 : CM.state cm1 <> Dead).
  { unfold cm1, cm0, upgradeTerm. case_bool_decide; simpl; done. }
  destruct (RequestVote_returns (AppResult:=AppResult) now' second reply' cm1 Hdead1)
    as (g2 & es' & Hiff2 & E2).
  rewrite E2 in Hrun2. injection Hrun2 as <- <- <-. simpl in Hg2. subst g2.
  destruct (proj1 Hiff2 eq_refl) as (_ & Hv & _).
  unfold upgradeTerm in Hv.
  rewrite bool_decide_eq_false_2 in Hv by (simpl; lia).
  simpl in Hv. destruct Hv as [Hv|Hv]; congruence.
Qed.

(** X20: an AppendEntries of the current or a higher term that fails the
    consistency check is refused, yet the node adopts the term, is a
    Follower afterwards and has its election deadline reset; its log and
    commit index are not changed. *)
Theorem inconsistent_append_refused now (args : AppendEntriesArgs.t Command)
    reply cm :
  CM.state cm <> Dead ->
  CM.currentTerm cm <= AppendEntriesArgs.Term args ->
  -1 <= AppendEntriesArgs.PrevLogIndex args ->
  ~ consistent (CM.log cm) args ->
  exists cm' es,
    AppendEntries (AppResult:=AppResult) now args reply cm
      = Done (AppendEntriesReply.mk (AppendEntriesArgs.Term args) false) cm' es
    /\ CM.log cm' = CM.log cm /\ CM.commitIndex cm' = CM.commitIndex cm
    /\ CM.currentTerm cm' = AppendEntriesArgs.Term args
    /\ CM.state cm' = Follower
    /\ CM.electionResetEvent cm' = now
    /\ SendNewCommitReady ∉ es.
Proof.
  intros Hdead Hterm Hprev Hcons.
  unfold AppendEntries. run.
  rewrite (bool_decide_eq_false_2 _ Hdead).
  case_bool_decide as Hup; simpl.
  - rewrite bool_decide_eq_true_2 by done. simpl.
    match goal with |- context [AppendEntries_check args ?s] =>
      destruct (check_returns (AppResult:=AppResult) args s) as (ok & Hc & Hok);
        [lia|]; rewrite Hc
    end.
    simpl in Hok. destruct ok; [tauto|]. simpl.
    eexists _, _; split; [reflexivity|]. simpl. repeat (split; [done|]).
    intros Hin. apply list_elem_of_singleton in Hin. discriminate.
  - assert (Heq : AppendEntriesArgs.Term args = CM.currentTerm cm) by lia.
    rewrite (bool_decide_eq_true_2 _ Heq). simpl.
    case_bool_decide as Hfol; simpl;
      match goal with |- context [AppendEntries_check args ?s] =>
        destruct (check_returns (AppResult:=AppResult) args s) as (ok & Hc & Hok);
          [lia|]; rewrite Hc
      end;
      simpl in Hok; (destruct ok; [tauto|]); simpl; rewrite <- ?Heq;
      eexists _, _; (split; [reflexivity|]); simpl.
    + repeat (split; [done|]).
      intros Hin. apply list_elem_of_singleton in Hin. discriminate.
    + split; [done|]. split; [done|]. split; [done|].
      split; [destruct (CM.state cm); done || tauto|]. split; [done|].
      intros Hin. by apply elem_of_nil in Hin.
Qed.

(** X21: an AppendEntries of the current or a higher term whose
    [PrevLogIndex] is below -1 makes the handler index the log out of
    range: the call panics instead of replying. *)
Theorem append_below_minus_one_panics now (args : AppendEntriesArgs.t Command)
    reply cm :
  CM.state cm <> Dead ->
  CM.currentTerm cm <= AppendEntriesArgs.Term args ->
  AppendEntriesArgs.PrevLogIndex args < -1 ->
  AppendEntries (AppResult:=AppResult) now args reply cm = Panic.
Proof. apply AppendEntries_panics. Qed.

(** *** Receiving the same entries again *)

Lemma agreeing_take_app (local sent : list (LogEntry.t Command)) :
  agreeing (take (agreeing local sent) local ++ drop (agreeing local sent) sent) sent
  = length sent.
Proof.
  assert (Hself : forall l : list (LogEntry.t Command), agreeing l l = length l).
  { induction l as [|a l IH]; [done|]. simpl.
    by rewrite bool_decide_eq_true_2, IH by done. }
  revert sent. induction local as [|a local IH]; intros [|b sent]; simpl; try done.
  - by rewrite bool_decide_eq_true_2, Hself by done.
  - case_bool_decide as E; simpl.
    + by rewrite (bool_decide_eq_true_2 _ E), IH.
    + by rewrite bool_decide_eq_true_2, Hself by done.
Qed.

Lemma reconcile_again log prevLogIndex entries :
  -1 <= prevLogIndex < len log ->
  reconcile (reconcile log prevLogIndex entries) prevLogIndex entries
  = reconcile log prevLogIndex entries.
Proof.
  intros Hprev. unfold len in Hprev. unfold reconcile at 2 3.
  set (first := Z.to_nat (prevLogIndex + 1)).
  set (k := agreeing (drop first log) entries).
  assert (Hfirst : (first <= length log)%nat) by (unfold first; lia).
  case_bool_decide as Hk.
  - unfold reconcile. fold first.
    rewrite drop_app_le by (rewrite length_take; lia).
    rewrite <- take_drop_commute.
    replace (agreeing (take k (drop first log) ++ drop k entries) entries)
      with (length entries) by (symmetry; apply agreeing_take_app).
    by rewrite bool_decide_eq_false_2 by lia.
  - unfold reconcile. fold first. fold k. by rewrite (bool_decide_eq_false_2 _ Hk).
Qed.

Lemma reconcile_keeps_prev log args :
  consistent log args ->
  consistent (reconcile log (AppendEntriesArgs.PrevLogIndex args)
                (AppendEntriesArgs.Entries args)) args.
Proof.
  intros [Hm|(e & H0 & He & Ht)]; [by left|]. right. exists e.
  split; [done|]. split; [|done].
  unfold reconcile. case_bool_decide; [|done].
  rewrite lookup_app_l by (rewrite length_take; apply lookup_lt_Some in He; lia).
  rewrite lookup_take_lt by lia. done.
Qed.

(** X22: delivering an accepted AppendEntries a second time is harmless:
    it is accepted again and leaves the log, the commit index, the term
    and the role as the first delivery left them. *)
Theorem append_twice_same_log now now' (args : AppendEntriesArgs.t Command)
    reply reply' cm :
  CM.state cm <> Dead ->
  CM.currentTerm cm <= AppendEntriesArgs.Term args ->
  consistent (CM.log cm) args ->
  exists r1 cm1 es1 r2 cm2 es2,
    AppendEntries (AppResult:=AppResult) now args reply cm = Done r1 cm1 es1
    /\ AppendEntries (AppResult:=AppResult) now' args reply' cm1 = Done r2 cm2 es2
    /\ AppendEntriesReply.Success r2 = true
    /\ CM.log cm2 = CM.log cm1
    /\ CM.commitIndex cm2 = CM.commitIndex cm1
    /\ CM.currentTerm cm2 = CM.currentTerm cm1
    /\ CM.state cm2 = CM.state cm1.
Proof.
  intros Hdead Hterm Hcons.
  destruct (AppendEntries_accepted (AppResult:=AppResult) now args reply cm
              Hdead Hterm Hcons)
    as (cm1 & t1 & Hrun1 & _ & Hlog1 & Hterm1 & Hst1 & _ & Hci1).
  assert (Hdead1 : CM.state cm1 <> Dead) by (rewrite Hst1; discriminate).
  assert (Hcons1 : consistent (CM.log cm1) args)
    by (rewrite Hlog1; by apply reconcile_keeps_prev).
  destruct (AppendEntries_accepted (AppResult:=AppResult) now' args reply' cm1
              Hdead1 ltac:(lia) Hcons1)
    as (cm2 & t2 & Hrun2 & _ & Hlog2 & Hterm2 & Hst2 & _ & Hci2).
  eexists _, cm1, _, _, cm2, _. split; [exact Hrun1|]. split; [exact Hrun2|].
  split; [done|].
  assert (Hlog : CM.log cm2 = CM.log cm1).
  { rewrite Hlog2, Hlog1. apply reconcile_again. by apply consistent_range. }
  split; [exact Hlog|]. split; [|split; congruence].
  rewrite Hci2, Hlog. revert Hci1. unfold intMin.
  repeat case_bool_decide;
    repeat match goal with
    | |- context [?a <? ?b] => destruct (Z.ltb_spec a b)
    end; intros; lia.
Qed.

(** *** From the leader's log to the follower's *)

Lemma leaderSendAEs_args_returns peerId savedCurrentTerm cm :
  let ni := mapGet (CM.nextIndex cm) peerId in
  0 <= ni <= len (CM.log cm) -> len (CM.log cm) <= GoInt.MaxInt ->
  exists prevLogTerm,
    leaderSendAEs_args (AppResult:=AppResult) peerId savedCurrentTerm cm
      = Done (ni, drop (Z.to_nat ni) (CM.log cm),
              AppendEntriesArgs.mk savedCurrentTerm (CM.id cm) (ni - 1) prevLogTerm
                (drop (Z.to_nat ni) (CM.log cm)) (CM.commitIndex cm)) cm []
    /\ (ni = 0 -> prevLogTerm = -1)
    /\ (0 < ni -> exists e, CM.log cm !! Z.to_nat (ni - 1) = Some e
                            /\ prevLogTerm = LogEntry.Term e).
Proof.
  intros ni Hni Hlen. unfold leaderSendAEs_args. run. fold ni.
  rewrite GoIntFacts.sub_in_range
    by (unfold GoInt.in_range, GoInt.MinInt, GoInt.MaxInt in *; lia).
  unfold slice_from. rewrite (bool_decide_eq_true_2 _ Hni).
  case_bool_decide as Hprev; simpl.
  - rewrite index_lookup by lia.
    destruct (lookup_lt_is_Some_2 (CM.log cm) (Z.to_nat (ni - 1))) as [e He];
      [unfold len in Hni; lia|].
    rewrite He. simpl. eexists. split; [reflexivity|]. split; [lia|]. eauto.
  - eexists. split; [reflexivity|]. split; [done|]. lia.
Qed.

Lemma agreeing_prefix (j : nat) (l : list (LogEntry.t Command)) :
  agreeing (take j l) l = (j `min` length l)%nat.
Proof.
  revert j. induction l as [|a l IH]; intros [|j]; simpl; try done.
  by rewrite bool_decide_eq_true_2, IH by done.
Qed.

(** X23: the entries the leader sends to a peer bring a follower that
    holds a prefix of the leader's log, at least up to the peer's
    [nextIndex], to exactly the leader's log: the call built by the leader
    is accepted, and the follower's commit index becomes the smaller of the
    leader's commit index and its new last index when the leader's is
    ahead. *)
Theorem follower_catches_up now peerId savedCurrentTerm reply
    (leader follower : CM.t Command) (m : nat) :
  let ni := mapGet (CM.nextIndex leader) peerId in
  0 <= ni <= len (CM.log leader) -> len (CM.log leader) <= GoInt.MaxInt ->
  CM.state follower <> Dead -> CM.currentTerm follower <= savedCurrentTerm ->
  CM.log follower = take m (CM.log leader) -> ni <= Z.of_nat m ->
  exists entries args r follower' es,
    leaderSendAEs_args (AppResult:=AppResult) peerId savedCurrentTerm leader
      = Done (ni, entries, args) leader []
    /\ AppendEntries (AppResult:=AppResult) now args reply follower
       = Done r follower' es
    /\ r = AppendEntriesReply.mk savedCurrentTerm true
    /\ CM.log follower' = CM.log leader
    /\ CM.commitIndex follower' =
         (if bool_decide (CM.commitIndex leader > CM.commitIndex follower)
          then Z.min (CM.commitIndex leader) (len (CM.log leader) - 1)
          else CM.commitIndex follower).
Proof.
  intros ni Hni Hlen Hdead Hterm Hlog Hm.
  destruct (leaderSendAEs_args_returns peerId savedCurrentTerm leader Hni Hlen)
    as (pt & Hargs & Hpt0 & Hpt). fold ni in Hargs, Hpt0, Hpt.
  set (args := AppendEntriesArgs.mk savedCurrentTerm (CM.id leader) (ni - 1) pt
                 (drop (Z.to_nat ni) (CM.log leader)) (CM.commitIndex leader)) in *.
  assert (Hcons : consistent (CM.log follower) args).
  { destruct (decide (ni = 0)) as [E|E]; [left; simpl; lia|]. right.
    destruct Hpt as (e & He & ->); [lia|]. exists e. simpl.
    split; [lia|]. split; [|done]. rewrite Hlog, lookup_take_lt by lia. done. }
  destruct (AppendEntries_accepted (AppResult:=AppResult) now args reply follower
              Hdead Hterm Hcons)
    as (f' & timers & Hrun & _ & Hlog' & _ & _ & _ & Hci).
  assert (Hfinal : CM.log f' = CM.log leader).
  { rewrite Hlog'. unfold reconcile. simpl.
    replace (Z.to_nat (ni - 1 + 1)) with (Z.to_nat ni) by lia.
    set (n := Z.to_nat ni). assert (Hn : (n <= m)%nat) by (unfold n; lia).
    rewrite Hlog.
    replace (drop n (take m (CM.log leader)))
      with (take (m - n) (drop n (CM.log leader)))
      by (rewrite take_drop_commute; f_equal; f_equal; lia).
    rewrite agreeing_prefix, length_drop.
    destruct (decide ((m - n) `min` (length (CM.log leader) - n)
                      < length (CM.log leader) - n)%nat) as [Hk|Hk];
      [rewrite (bool_decide_eq_true_2 _ Hk)|rewrite (bool_decide_eq_false_2 _ Hk)].
    - rewrite take_take. replace ((n + (m - n) `min` (length (CM.log leader) - n)) `min` m)%nat
        with m by lia.
      rewrite drop_drop. replace (n + (m - n) `min` (length (CM.log leader) - n))%nat
        with m by lia.
      apply take_drop.
    - apply take_ge. lia. }
  eexists _, args, _, f', _. split; [exact Hargs|]. split; [exact Hrun|].
  split; [done|]. split; [exact Hfinal|].
  rewrite Hci, Hfinal. unfold args, intMin. simpl.
  destruct (Z.ltb_spec (CM.commitIndex leader) (len (CM.log leader) - 1));
    repeat case_bool_decide; lia.
Qed.

End Handlers.

Section Pipeline.
Context {App Command AppResult : Type} `{!Application App Command AppResult}.
Implicit Types cm : CM.t Command.

Lemma applyCommands_cons (c : Command) rest (app : App) :
  applyCommands (c :: rest) app
  = (fst (ApplyCommand c app) :: fst (applyCommands rest (snd (ApplyCommand c app))),
     snd (applyCommands rest (snd (ApplyCommand c app)))).
Proof.
  simpl. destruct (ApplyCommand c app) as [res app']. simpl.
  by destruct (applyCommands rest app').
Qed.

Lemma commitChanSender_apply_returns (entries : list (LogEntry.t Command)) :
  forall savedLastApplied i cm (app : App),
  -1 <= savedLastApplied -> 0 <= i ->
  savedLastApplied + i + Z.of_nat (length entries) <= GoInt.MaxInt ->
  commitChanSender_apply savedLastApplied i entries (cm, app)
  = Done tt (cm, snd (applyCommands (LogEntry.Command_ <$> entries) app))
      (if bool_decide (CM.state cm = Leader)
       then tagged (savedLastApplied + i + 1)
              (fst (applyCommands (LogEntry.Command_ <$> entries) app))
       else []).
Proof.
  induction entries as [|entry entries IH]; intros saved i cm app Hs Hi Hfit.
  - simpl. run. by case_bool_decide.
  - rewrite fmap_cons, applyCommands_cons. simpl length in Hfit.
    cbn [commitChanSender_apply]. run.
    destruct (ApplyCommand (LogEntry.Command_ entry) app) as [res app'] eqn:E.
    simpl.
    rewrite (GoIntFacts.add_in_range saved i)
      by (unfold GoInt.in_range, GoInt.MinInt, GoInt.MaxInt in *; lia).
    rewrite (GoIntFacts.add_in_range (saved + i) 1)
      by (unfold GoInt.in_range, GoInt.MinInt, GoInt.MaxInt in *; lia).
    case_bool_decide as Hst; simpl.
    + rewrite IH by lia. rewrite (bool_decide_eq_true_2 _ Hst). simpl.
      do 3 f_equal. lia.
    + rewrite IH by lia. by rewrite (bool_decide_eq_false_2 _ Hst).
Qed.

(** X24: one round of the apply worker, on a node whose [lastApplied] is
    at most its commit index and whose commit index is inside the log,
    applies the commands of the entries [lastApplied+1 .. commitIndex] to
    the application once each and in log order, moves [lastApplied] to the
    commit index, and, on the Leader only, sends each result tagged with
    the index of its entry. A second round with no new commit applies
    nothing. *)
Theorem apply_round_applies_once_in_order cm (app : App) :
  -1 <= CM.lastApplied cm <= CM.commitIndex cm ->
  CM.commitIndex cm < len (CM.log cm) -> len (CM.log cm) <= GoInt.MaxInt ->
  let commands :=
    LogEntry.Command_
      <$> take (Z.to_nat (CM.commitIndex cm - CM.lastApplied cm))
            (drop (Z.to_nat (CM.lastApplied cm + 1)) (CM.log cm)) in
  let applied := CM.with_lastApplied (CM.commitIndex cm) cm in
  let app' := snd (applyCommands commands app) in
  commitChanSender_round (cm, app)
  = Done tt (applied, app')
      (if bool_decide (CM.state cm = Leader)
       then tagged (CM.lastApplied cm + 1) (fst (applyCommands commands app))
       else [])
  /\ length commands = Z.to_nat (CM.commitIndex cm - CM.lastApplied cm)
  /\ commitChanSender_round (applied, app') = Done tt (applied, app') [].
Proof.
  intros Hla Hci Hlen commands applied app'.
  assert (Hcount : length commands = Z.to_nat (CM.commitIndex cm - CM.lastApplied cm)).
  { unfold commands. rewrite length_fmap, length_take, length_drop.
    unfold len in Hci. lia. }
  split; [|split; [exact Hcount|]].
  - unfold commitChanSender_round. run.
    case_bool_decide as Hnew; simpl.
    + rewrite !GoIntFacts.add_in_range
        by (unfold GoInt.in_range, GoInt.MinInt, GoInt.MaxInt in *; lia).
      unfold slice. rewrite bool_decide_eq_true_2 by lia. simpl.
      replace (Z.to_nat (CM.commitIndex cm + 1 - (CM.lastApplied cm + 1)))
        with (Z.to_nat (CM.commitIndex cm - CM.lastApplied cm)) by lia.
      rewrite commitChanSender_apply_returns.
      * simpl. fold commands. fold app'.
        replace (CM.lastApplied cm + 0 + 1) with (CM.lastApplied cm + 1) by lia.
        done.
      * lia.
      * lia.
      * rewrite length_take, length_drop. unfold len in *. lia.
    + assert (E : commands = []).
      { apply length_zero_iff_nil. rewrite Hcount. lia. }
      unfold app'. rewrite E. simpl. run.
      replace applied with cm; [by case_bool_decide|].
      unfold applied. replace (CM.commitIndex cm) with (CM.lastApplied cm) by lia.
      by destruct cm.
  - unfold commitChanSender_round. run.
    rewrite bool_decide_eq_false_2 by (simpl; lia). simpl. done.
Qed.

(** X25: the submitter is answered with the application's result for
    its own command. On a leader that has applied its whole log, [Submit]
    appends the command at index [t = len(log)]; once the commit index
    reaches [t], the apply worker applies that command alone and sends its
    result tagged [t]; on receiving it, [Submit] returns that result with
    [true]. *)
Theorem submit_receives_own_result (command : Command) cm (app : App) :
  CM.state cm = Leader ->
  CM.lastApplied cm = len (CM.log cm) - 1 ->
  len (CM.log cm) < GoInt.MaxInt ->
  let t := len (CM.log cm) in
  let appended :=
    CM.with_log (CM.log cm ++ [LogEntry.mk command (CM.currentTerm cm)]) cm in
  let committed := CM.with_commitIndex t appended in
  let res := fst (ApplyCommand command app) in
  commitChanSender_round (committed, app)
  = Done tt (CM.with_lastApplied t committed, snd (ApplyCommand command app))
      [SendCommittedResult (CommittedResult.mk res t)]
  /\ Submit command [Received (CommittedResult.mk res t)] cm
     = Done (Returned (Some res) true) appended [SendTriggerAE; NewTicker 650].
Proof.
  intros Hst Hla Hlen t appended committed res.
  assert (Ht0 : 0 <= t) by (unfold t, len; lia). fold t in Hla, Hlen.
  split.
  - unfold commitChanSender_round. run. fold t.
    rewrite bool_decide_eq_true_2 by lia.
    rewrite !GoIntFacts.add_in_range
      by (unfold GoInt.in_range, GoInt.MinInt, GoInt.MaxInt in *; lia).
    unfold slice.
    rewrite bool_decide_eq_true_2
      by (unfold len; rewrite length_app; simpl; unfold t, len in *; lia).
    simpl.
    replace (Z.to_nat (CM.lastApplied cm + 1)) with (length (CM.log cm))
      by (unfold t, len in *; lia).
    replace (Z.to_nat (t + 1 - (CM.lastApplied cm + 1))) with 1%nat
      by (unfold t, len in *; lia).
    rewrite drop_app_length. simpl.
    pose proof (commitChanSender_apply_returns
                  [LogEntry.mk command (CM.currentTerm cm)] (CM.lastApplied cm) 0
                  (CM.with_lastApplied t committed) app) as Hloop.
    simpl in Hloop. rewrite Hloop by (unfold GoInt.MaxInt in *; simpl; lia).
    simpl. rewrite (bool_decide_eq_true_2 _ Hst).
    destruct (ApplyCommand command app) as [r app'] eqn:E. simpl.
    unfold res. simpl.
    replace (CM.lastApplied cm + 0 + 1) with t by lia. done.
  - unfold Submit. run. rewrite (bool_decide_eq_true_2 _ Hst). simpl.
    rewrite bool_decide_eq_false_2; [done|].
    unfold t, len. rewrite length_app. simpl. lia.
Qed.

End Pipeline.

Section Timer.
Context {Command AppResult : Type}.
Implicit Types cm : CM.t Command.

Lemma tick_before_deadline t timeoutDuration termStarted cm :
  t - CM.electionResetEvent cm < timeoutDuration ->
  runElectionTimer_tick (AppResult:=AppResult) t timeoutDuration termStarted cm
  = Done (if bool_decide ((CM.state cm = Follower \/ CM.state cm = Candidate)
                          /\ termStarted = CM.currentTerm cm)
          then TimerContinues else TimerReturns) cm [].
Proof.
  intros Hearly. unfold runElectionTimer_tick. run.
  destruct (decide (CM.state cm = Follower \/ CM.state cm = Candidate)) as [Hrole|Hrole].
  - assert (Hc : (bool_decide (CM.state cm <> Candidate)
                  && bool_decide (CM.state cm <> Follower)) = false).
    { destruct Hrole as [->| ->]; reflexivity. }
    rewrite Hc.
    destruct (decide (termStarted = CM.currentTerm cm)) as [Ht|Ht].
    + rewrite (bool_decide_eq_false_2 (termStarted <> CM.currentTerm cm)) by tauto.
      rewrite (bool_decide_eq_false_2 (t - CM.electionResetEvent cm >= timeoutDuration))
        by lia.
      by rewrite bool_decide_eq_true_2 by tauto.
    + rewrite (bool_decide_eq_true_2 (termStarted <> CM.currentTerm cm)) by tauto.
      by rewrite bool_decide_eq_false_2 by tauto.
  - assert (Hc : (bool_decide (CM.state cm <> Candidate)
                  && bool_decide (CM.state cm <> Follower)) = true).
    { apply andb_true_iff. rewrite !bool_decide_eq_true. tauto. }
    rewrite Hc. by rewrite bool_decide_eq_false_2 by tauto.
Qed.

(** X26: an accepted AppendEntries and a granted vote both put off the
    election: at any instant less than the timeout after the call, a tick
    of the node's election timer starts no election and changes nothing;
    the timer of the current term just goes on waiting. *)
Theorem heartbeat_or_vote_defers_election now t timeoutDuration
    (aeArgs : AppendEntriesArgs.t Command) aeReply (rvArgs : RequestVoteArgs.t)
    rvReply cm :
  CM.state cm <> Dead ->
  CM.currentTerm cm <= AppendEntriesArgs.Term aeArgs ->
  consistent (CM.log cm) aeArgs ->
  t - now < timeoutDuration ->
  (exists r cm' es,
     AppendEntries (AppResult:=AppResult) now aeArgs aeReply cm = Done r cm' es
     /\ runElectionTimer_tick (AppResult:=AppResult) t timeoutDuration
          (CM.currentTerm cm') cm' = Done TimerContinues cm' [])
  /\ (forall r cm' es,
        RequestVote (AppResult:=AppResult) now rvArgs rvReply cm = Done r cm' es ->
        RequestVoteReply.VoteGranted r = true ->
        exists tick,
          runElectionTimer_tick (AppResult:=AppResult) t timeoutDuration
            (CM.currentTerm cm') cm' = Done tick cm' []
          /\ (tick = TimerContinues \/ tick = TimerReturns)).
Proof.
  intros Hdead Hterm Hcons Hearly. split.
  - destruct (AppendEntries_accepted (AppResult:=AppResult) now aeArgs aeReply cm
                Hdead Hterm Hcons)
      as (cm' & timers & Hrun & _ & _ & _ & Hst & Hreset & _).
    eexists _, cm', _. split; [exact Hrun|].
    rewrite tick_before_deadline by (rewrite Hreset; lia).
    by rewrite bool_decide_eq_true_2 by (split; [by left|done]).
  - intros r cm' es Hrun Hg.
    destruct (RequestVote_returns (AppResult:=AppResult) now rvArgs rvReply cm Hdead)
      as (g & es' & _ & E).
    rewrite E in Hrun. injection Hrun as <- <- <-. simpl in Hg. subst g.
    rewrite tick_before_deadline by (simpl; lia).
    eexists. split; [reflexivity|]. case_bool_decide; tauto.
Qed.

(** X27: a tick of the election timer starts an election exactly when
    the node is Follower or Candidate, still in the term the timer was
    started in, and the timeout has elapsed since the last reset; the node
    is then a Candidate of the next term that has voted for itself. On a
    Leader or Dead node, or after a term change, the timer returns without
    touching anything. *)
Theorem election_timer_tick t timeoutDuration termStarted cm :
  ((CM.state cm = Follower \/ CM.state cm = Candidate) ->
   termStarted = CM.currentTerm cm ->
   t - CM.electionResetEvent cm >= timeoutDuration ->
   exists cm' es,
     runElectionTimer_tick (AppResult:=AppResult) t timeoutDuration termStarted cm
       = Done (TimerElects (GoInt.add (CM.currentTerm cm) 1) 1) cm' es
     /\ CM.state cm' = Candidate
     /\ CM.currentTerm cm' = GoInt.add (CM.currentTerm cm) 1
     /\ CM.votedFor cm' = CM.id cm
     /\ CM.electionResetEvent cm' = t)
  /\ (CM.state cm = Leader \/ CM.state cm = Dead
      \/ termStarted <> CM.currentTerm cm ->
      runElectionTimer_tick (AppResult:=AppResult) t timeoutDuration termStarted cm
        = Done TimerReturns cm []).
Proof.
  split.
  - intros Hrole Hterm Hlate. unfold runElectionTimer_tick.
    unfold mbind, mret, R_bind, R_ret, bind, ret, get. simpl.
    assert (Hc : (bool_decide (CM.state cm <> Candidate)
                  && bool_decide (CM.state cm <> Follower)) = false).
    { destruct Hrole as [->| ->]; reflexivity. }
    rewrite Hc. rewrite bool_decide_eq_false_2 by tauto.
    rewrite (bool_decide_eq_true_2 _ Hlate).
    destruct (startElection_returns (AppResult:=AppResult) t cm)
      as (cm' & Hrun & Hst & Ht & Hv & Hr & _).
    rewrite Hrun. simpl. eexists _, _. split; [reflexivity|]. done.
  - intros Hcase. unfold runElectionTimer_tick. run.
    destruct (decide (CM.state cm = Leader \/ CM.state cm = Dead)) as [Hrole|Hrole].
    + assert (Hc : (bool_decide (CM.state cm <> Candidate)
                    && bool_decide (CM.state cm <> Follower)) = true).
      { destruct Hrole as [->| ->]; reflexivity. }
      by rewrite Hc.
    + assert (Hc : (bool_decide (CM.state cm <> Candidate)
                    && bool_decide (CM.state cm <> Follower)) = false).
      { destruct (CM.state cm); try reflexivity; tauto. }
      rewrite Hc. by rewrite bool_decide_eq_true_2 by tauto.
Qed.

(** X28: [Stop] makes the node Dead and closes the commit-ready channel;
    from then on RequestVote and AppendEntries return without touching the
    reply or the node, [Submit] refuses, the election timer returns, a
    RequestVote reply is ignored, and [leaderSendAEs] sends nothing. *)
Theorem stop_silences_the_node cm :
  let dead := CM.with_state Dead cm in
  Stop (AppResult:=AppResult) cm = Done tt dead [CloseNewCommitReady]
  /\ (forall now args reply,
        RequestVote (AppResult:=AppResult) now args reply dead = Done reply dead [])
  /\ (forall now args reply,
        AppendEntries (AppResult:=AppResult) now args reply dead = Done reply dead [])
  /\ (forall command sel,
        Submit (AppResult:=AppResult) command sel dead
          = Done (Returned None false) dead [])
  /\ (forall t timeoutDuration termStarted,
        runElectionTimer_tick (AppResult:=AppResult) t timeoutDuration termStarted dead
          = Done TimerReturns dead [])
  /\ (forall now savedCurrentTerm reply votesReceived,
        startElection_reply (AppResult:=AppResult) now savedCurrentTerm reply
          votesReceived dead = Done votesReceived dead [])
  /\ leaderSendAEs (AppResult:=AppResult) dead = Done None dead [].
Proof.
  intros dead. repeat split; intros; reflexivity.
Qed.

End Timer.

(** *** The theorems on concrete nodes *)

Import scenarios.

(** A three-server cluster: node 0 has the three peer ids 0, 1 and 2. *)
Lemma NewConsensusModule_peers_witness :
  0 <= 3
  /\ mapLen (CM.peerIds (NewConsensusModule (Command:=Cmd) 0 3)) = 3
  /\ CM.peerIds (NewConsensusModule (Command:=Cmd) 0 3) !! 0 = Some 0.
Proof.
  assert (H : 0 <= 3) by lia. split; [exact H|].
  destruct (NewConsensusModule_peers (Command:=Cmd) 0 3 H) as (Hlen & Hk & _).
  split; [exact Hlen|]. apply Hk. lia.
Defined.

(** The stopped node of the scenarios, at term 3, is a Follower of term 5
    after a late reply of term 5. *)
Lemma append_reply_higher_term_steps_down_witness :
  AppendEntriesReply.Term (AppendEntriesReply.mk 5 false) > CM.currentTerm deadNode
  /\ CM.state deadNode = Dead
  /\ exists cm',
       leaderSendAEs_reply (AppResult:=Res) 9 1 3 0 [] (AppendEntriesReply.mk 5 false)
         deadNode = Done tt cm' [GoRunElectionTimer]
       /\ CM.state cm' = Follower.
Proof.
  assert (H : AppendEntriesReply.Term (AppendEntriesReply.mk 5 false)
              > CM.currentTerm deadNode) by (vm_compute; reflexivity).
  split; [exact H|]. split; [reflexivity|].
  destruct (append_reply_higher_term_steps_down (AppResult:=Res) 9 1 3 0 []
              (AppendEntriesReply.mk 5 false) deadNode H) as (cm' & Hrun & Hst & _).
  exists cm'. split; [exact Hrun|exact Hst].
Defined.

(** The leader of the scenario, told that its first AppendEntries failed,
    is left with [nextIndex] -1 for the peer. *)
Lemma append_reply_ignored_or_backs_off_witness :
  AppendEntriesReply.Term (AppendEntriesReply.mk 1 false) <= CM.currentTerm leaderNode
  /\ CM.state leaderNode = Leader
  /\ mapGet (CM.nextIndex
               (exec (AppResult:=Res)
                  (leaderSendAEs_reply 0 1 1 0 [entry 1] (AppendEntriesReply.mk 1 false))
                  leaderNode)) 1 = -1.
Proof.
  assert (H1 : AppendEntriesReply.Term (AppendEntriesReply.mk 1 false)
               <= CM.currentTerm leaderNode) by (vm_compute; discriminate).
  assert (H2 : CM.state leaderNode = Leader) by reflexivity.
  split; [exact H1|]. split; [exact H2|].
  destruct (append_reply_ignored_or_backs_off (AppResult:=Res) 0 1 1 0 [entry 1]
              (AppendEntriesReply.mk 1 false) leaderNode H1) as [_ Hback].
  unfold exec. rewrite (Hback H2 eq_refl eq_refl). vm_compute. reflexivity.
Defined.

Lemma append_reply_success_advances_witness :
  CM.state leaderNode = Leader
  /\ AppendEntriesReply.Term success <= CM.currentTerm leaderNode
  /\ -1 <= CM.commitIndex leaderNode < len (CM.log leaderNode)
  /\ len (CM.log leaderNode) <= GoInt.MaxInt
  /\ exists cm' es,
       leaderSendAEs_reply (AppResult:=Res) 0 1 1 0 [entry 1] success leaderNode
         = Done tt cm' es
       /\ mapGet (CM.matchIndex cm') 1 = GoInt.sub (GoInt.add 0 1) 1
       /\ CM.commitIndex leaderNode <= CM.commitIndex cm'.
Proof.
  assert (H1 : CM.state leaderNode = Leader) by reflexivity.
  assert (H2 : AppendEntriesReply.Term success <= CM.currentTerm leaderNode)
    by (vm_compute; discriminate).
  assert (H3 : -1 <= CM.commitIndex leaderNode < len (CM.log leaderNode))
    by (vm_compute; split; [discriminate|reflexivity]).
  assert (H4 : len (CM.log leaderNode) <= GoInt.MaxInt) by (vm_compute; discriminate).
  split; [exact H1|]. split; [exact H2|]. split; [exact H3|]. split; [exact H4|].
  destruct (append_reply_success_advances (AppResult:=Res) 0 1 1 0 [entry 1] success
              leaderNode H1 H2 eq_refl eq_refl H3 H4)
    as (cm' & es & Hrun & _ & Hm & Hci & _).
  exists cm', es. split; [exact Hrun|]. split; [exact Hm|]. lia.
Defined.

Lemma commit_test_counts_peers_witness :
  2 * (mapLen (CM.peerIds leaderNode) + 1) <= GoInt.MaxInt
  /\ (commits leaderNode 0 <->
        (exists e, index (CM.log leaderNode) 0 = Some e
                   /\ LogEntry.Term e = CM.currentTerm leaderNode)
        /\ 2 * Z.of_nat (length (matching leaderNode 0))
           > mapLen (CM.peerIds leaderNode) - 1).
Proof.
  assert (H : 2 * (mapLen (CM.peerIds leaderNode) + 1) <= GoInt.MaxInt)
    by (vm_compute; discriminate).
  split; [exact H|]. exact (commit_test_counts_peers leaderNode 0 H).
Defined.

Lemma stale_term_refused_witness :
  CM.state follower3 <> Dead
  /\ RequestVoteArgs.Term staleVote < CM.currentTerm follower3
  /\ AppendEntriesArgs.Term staleAppend < CM.currentTerm follower3
  /\ RequestVote (AppResult:=Res) 0 staleVote RequestVoteReply.zero follower3
     = Done (RequestVoteReply.mk 2 false) follower3 []
  /\ AppendEntries (AppResult:=Res) 0 staleAppend AppendEntriesReply.zero follower3
     = Done (AppendEntriesReply.mk 2 false) follower3 [].
Proof.
  assert (H1 : CM.state follower3 <> Dead) by done.
  assert (H2 : RequestVoteArgs.Term staleVote < CM.currentTerm follower3)
    by (vm_compute; reflexivity).
  assert (H3 : AppendEntriesArgs.Term staleAppend < CM.currentTerm follower3)
    by (vm_compute; reflexivity).
  split; [exact H1|]. split; [exact H2|]. split; [exact H3|].
  exact (stale_term_refused (AppResult:=Res) 0 staleVote staleAppend
           RequestVoteReply.zero AppendEntriesReply.zero follower3 H1 H2 H3).
Defined.

(** The same candidate asks twice in term 3 and is granted twice. *)
Lemma vote_binds_for_the_term_witness :
  let voter := node Follower 2 [] (-1) in
  let voted := exec (AppResult:=Res) (RequestVote 7 voteRequest RequestVoteReply.zero)
                 voter in
  CM.state voter <> Dead
  /\ RequestVoteArgs.CandidateId voteRequest <> -1
  /\ (exists r1 es1,
        RequestVote (AppResult:=Res) 7 voteRequest RequestVoteReply.zero voter
          = Done r1 voted es1 /\ RequestVoteReply.VoteGranted r1 = true)
  /\ (exists r2 cm2 es2,
        RequestVote (AppResult:=Res) 8 voteRequest RequestVoteReply.zero voted
          = Done r2 cm2 es2 /\ RequestVoteReply.VoteGranted r2 = true)
  /\ RequestVoteArgs.CandidateId voteRequest = RequestVoteArgs.CandidateId voteRequest.
Proof.
  intros voter voted.
  assert (H1 : CM.state voter <> Dead) by done.
  assert (H2 : RequestVoteArgs.CandidateId voteRequest <> -1) by discriminate.
  split; [exact H1|]. split; [exact H2|].
  split; [eexists _, _; split; vm_compute; reflexivity|].
  split; [eexists _, _, _; split; vm_compute; reflexivity|].
  refine (vote_binds_for_the_term (AppResult:=Res) 7 8 voteRequest voteRequest
            RequestVoteReply.zero RequestVoteReply.zero voter
            _ voted _ _ _ _ H1 H2 _ _ eq_refl _ _);
    try (vm_compute; reflexivity).
Defined.

Lemma inconsistent_append_refused_witness :
  CM.state follower3 <> Dead
  /\ CM.currentTerm follower3 <= AppendEntriesArgs.Term gapAppend
  /\ -1 <= AppendEntriesArgs.PrevLogIndex gapAppend
  /\ ~ consistent (CM.log follower3) gapAppend
  /\ exists cm' es,
       AppendEntries (AppResult:=Res) 0 gapAppend AppendEntriesReply.zero follower3
         = Done (AppendEntriesReply.mk 2 false) cm' es
       /\ CM.log cm' = CM.log follower3.
Proof.
  assert (H1 : CM.state follower3 <> Dead) by done.
  assert (H2 : CM.currentTerm follower3 <= AppendEntriesArgs.Term gapAppend)
    by (vm_compute; discriminate).
  assert (H3 : -1 <= AppendEntriesArgs.PrevLogIndex gapAppend)
    by (vm_compute; discriminate).
  assert (H4 : ~ consistent (CM.log follower3) gapAppend).
  { intros [H|(e & _ & He & _)]; [discriminate|]. vm_compute in He. discriminate. }
  split; [exact H1|]. split; [exact H2|]. split; [exact H3|]. split; [exact H4|].
  destruct (inconsistent_append_refused (AppResult:=Res) 0 gapAppend
              AppendEntriesReply.zero follower3 H1 H2 H3 H4)
    as (cm' & es & Hrun & Hlog & _).
  exists cm', es. split; [exact Hrun|exact Hlog].
Defined.

Lemma append_below_minus_one_panics_witness :
  CM.state follower3 <> Dead
  /\ CM.currentTerm follower3 <= AppendEntriesArgs.Term badIndexAppend
  /\ AppendEntriesArgs.PrevLogIndex badIndexAppend < -1
  /\ AppendEntries (AppResult:=Res) 0 badIndexAppend AppendEntriesReply.zero follower3
     = Panic.
Proof.
  assert (H1 : CM.state follower3 <> Dead) by done.
  assert (H2 : CM.currentTerm follower3 <= AppendEntriesArgs.Term badIndexAppend)
    by (vm_compute; discriminate).
  assert (H3 : AppendEntriesArgs.PrevLogIndex badIndexAppend < -1)
    by (vm_compute; reflexivity).
  split; [exact H1|]. split; [exact H2|]. split; [exact H3|].
  exact (append_below_minus_one_panics (AppResult:=Res) 0 badIndexAppend
           AppendEntriesReply.zero follower3 H1 H2 H3).
Defined.

Lemma append_twice_same_log_witness :
  CM.state follower3 <> Dead
  /\ CM.currentTerm follower3 <= AppendEntriesArgs.Term appendTwo
  /\ consistent (CM.log follower3) appendTwo
  /\ exists r1 cm1 es1 r2 cm2 es2,
       AppendEntries (AppResult:=Res) 0 appendTwo AppendEntriesReply.zero follower3
         = Done r1 cm1 es1
       /\ AppendEntries (AppResult:=Res) 1 appendTwo AppendEntriesReply.zero cm1
          = Done r2 cm2 es2
       /\ CM.log cm2 = CM.log cm1.
Proof.
  assert (H1 : CM.state follower3 <> Dead) by done.
  assert (H2 : CM.currentTerm follower3 <= AppendEntriesArgs.Term appendTwo)
    by (vm_compute; discriminate).
  assert (H3 : consistent (CM.log follower3) appendTwo).
  { right. exists (entry 1). split; [done|]. split; reflexivity. }
  split; [exact H1|]. split; [exact H2|]. split; [exact H3|].
  destruct (append_twice_same_log (AppResult:=Res) 0 1 appendTwo
              AppendEntriesReply.zero AppendEntriesReply.zero follower3 H1 H2 H3)
    as (r1 & cm1 & es1 & r2 & cm2 & es2 & Hrun1 & Hrun2 & _ & Hlog & _).
  exists r1, cm1, es1, r2, cm2, es2. split; [exact Hrun1|]. split; [exact Hrun2|].
  exact Hlog.
Defined.

Lemma follower_catches_up_witness :
  0 <= mapGet (CM.nextIndex twoEntryLeader) 1 <= len (CM.log twoEntryLeader)
  /\ len (CM.log twoEntryLeader) <= GoInt.MaxInt
  /\ CM.state laggingFollower <> Dead
  /\ CM.currentTerm laggingFollower <= 1
  /\ CM.log laggingFollower = take 1 (CM.log twoEntryLeader)
  /\ mapGet (CM.nextIndex twoEntryLeader) 1 <= Z.of_nat 1
  /\ exists args r follower' es,
       AppendEntries (AppResult:=Res) 0 args AppendEntriesReply.zero laggingFollower
         = Done r follower' es
       /\ CM.log follower' = CM.log twoEntryLeader
       /\ CM.commitIndex follower' = 0.
Proof.
  assert (H1 : 0 <= mapGet (CM.nextIndex twoEntryLeader) 1
               <= len (CM.log twoEntryLeader))
    by (vm_compute; split; discriminate).
  assert (H2 : len (CM.log twoEntryLeader) <= GoInt.MaxInt)
    by (vm_compute; discriminate).
  assert (H3 : CM.state laggingFollower <> Dead) by done.
  assert (H4 : CM.currentTerm laggingFollower <= 1) by (vm_compute; discriminate).
  assert (H5 : CM.log laggingFollower = take 1 (CM.log twoEntryLeader)) by reflexivity.
  assert (H6 : mapGet (CM.nextIndex twoEntryLeader) 1 <= Z.of_nat 1)
    by (vm_compute; discriminate).
  do 6 (split; [assumption|]).
  destruct (follower_catches_up (AppResult:=Res) 0 1 1 AppendEntriesReply.zero
              twoEntryLeader laggingFollower 1 H1 H2 H3 H4 H5 H6)
    as (entries & args & r & f' & es & _ & Hrun & _ & Hlog & Hci).
  exists args, r, f', es. split; [exact Hrun|]. split; [exact Hlog|].
  rewrite Hci. vm_compute. reflexivity.
Defined.

(** The committed leader applies its [create] to a fresh calculator and
    sends the result tagged with index 0. *)
Lemma apply_round_applies_once_in_order_witness :
  -1 <= CM.lastApplied committedLeader <= CM.commitIndex committedLeader
  /\ CM.commitIndex committedLeader < len (CM.log committedLeader)
  /\ len (CM.log committedLeader) <= GoInt.MaxInt
  /\ commitChanSender_round (committedLeader, calculator.NewCalculator)
     = Done tt (appliedLeader, oneInstance)
         [SendCommittedResult
            (CommittedResult.mk (calculator.mkResult true 1) 0)].
Proof.
  assert (H1 : -1 <= CM.lastApplied committedLeader <= CM.commitIndex committedLeader)
    by (vm_compute; split; discriminate).
  assert (H2 : CM.commitIndex committedLeader < len (CM.log committedLeader))
    by (vm_compute; reflexivity).
  assert (H3 : len (CM.log committedLeader) <= GoInt.MaxInt)
    by (vm_compute; discriminate).
  split; [exact H1|]. split; [exact H2|]. split; [exact H3|].
  destruct (apply_round_applies_once_in_order committedLeader
              calculator.NewCalculator H1 H2 H3) as (Hrun & _).
  rewrite Hrun. vm_compute. reflexivity.
Defined.

(** The applied leader gets [push 1 7] submitted; the calculator answers
    [Result=true], and that is what [Submit] returns. *)
Lemma submit_receives_own_result_witness :
  let command := calculator.cmd "push" 1 7 in
  CM.state appliedLeader = Leader
  /\ CM.lastApplied appliedLeader = len (CM.log appliedLeader) - 1
  /\ len (CM.log appliedLeader) < GoInt.MaxInt
  /\ exists cm',
       Submit command [Received (CommittedResult.mk (calculator.mkResult true 0) 1)]
         appliedLeader
       = Done (Returned (Some (calculator.mkResult true 0)) true) cm'
           [SendTriggerAE; NewTicker 650].
Proof.
  intros command.
  assert (H1 : CM.state appliedLeader = Leader) by reflexivity.
  assert (H2 : CM.lastApplied appliedLeader = len (CM.log appliedLeader) - 1)
    by reflexivity.
  assert (H3 : len (CM.log appliedLeader) < GoInt.MaxInt) by (vm_compute; reflexivity).
  split; [exact H1|]. split; [exact H2|]. split; [exact H3|].
  destruct (submit_receives_own_result command appliedLeader oneInstance H1 H2 H3)
    as [_ Hsub].
  eexists. exact Hsub.
Defined.

Lemma heartbeat_or_vote_defers_election_witness :
  CM.state follower3 <> Dead
  /\ CM.currentTerm follower3 <= AppendEntriesArgs.Term appendTwo
  /\ consistent (CM.log follower3) appendTwo
  /\ 100000000 - 0 < electionTimeout 0
  /\ exists r cm' es,
       AppendEntries (AppResult:=Res) 0 appendTwo AppendEntriesReply.zero follower3
         = Done r cm' es
       /\ runElectionTimer_tick (AppResult:=Res) 100000000 (electionTimeout 0)
            (CM.currentTerm cm') cm' = Done TimerContinues cm' [].
Proof.
  assert (H1 : CM.state follower3 <> Dead) by done.
  assert (H2 : CM.currentTerm follower3 <= AppendEntriesArgs.Term appendTwo)
    by (vm_compute; discriminate).
  assert (H3 : consistent (CM.log follower3) appendTwo).
  { right. exists (entry 1). split; [done|]. split; reflexivity. }
  assert (H4 : 100000000 - 0 < electionTimeout 0) by (vm_compute; reflexivity).
  split; [exact H1|]. split; [exact H2|]. split; [exact H3|]. split; [exact H4|].
  exact (proj1 (heartbeat_or_vote_defers_election (AppResult:=Res) 0 100000000
                  (electionTimeout 0) appendTwo AppendEntriesReply.zero voteRequest
                  RequestVoteReply.zero follower3 H1 H2 H3 H4)).
Defined.

(** A follower of term 2 whose deadline was reset at instant 0 becomes a
    candidate of term 3 at the tick after 150 ms. *)
Lemma election_timer_tick_witness :
  (CM.state follower3 = Follower \/ CM.state follower3 = Candidate)
  /\ 2 = CM.currentTerm follower3
  /\ 150000000 - CM.electionResetEvent follower3 >= electionTimeout 0
  /\ exists cm' es,
       runElectionTimer_tick (AppResult:=Res) 150000000 (electionTimeout 0) 2 follower3
         = Done (TimerElects 3 1) cm' es
       /\ CM.state cm' = Candidate.
Proof.
  assert (H1 : CM.state follower3 = Follower \/ CM.state follower3 = Candidate)
    by (left; reflexivity).
  assert (H2 : 2 = CM.currentTerm follower3) by reflexivity.
  assert (H3 : 150000000 - CM.electionResetEvent follower3 >= electionTimeout 0)
    by (vm_compute; discriminate).
  split; [exact H1|]. split; [exact H2|]. split; [exact H3|].
  destruct (election_timer_tick (AppResult:=Res) 150000000 (electionTimeout 0) 2
              follower3) as [Hfire _].
  destruct (Hfire H1 H2 H3) as (cm' & es & Hrun & Hst & _).
  exists cm', es. split; [exact Hrun|exact Hst].
Defined.

End raft_props.
